(** * mojito-waterfall: the timed-span aggregation engine

    A shallow embedding of [yui_modules/waterfall.common.js]: profile keys,
    the profile tree with its merge ([Profile.add]), the call-log reconciler
    ([_processCalls]), the row normalisation of [getGui], the per-bucket
    statistics of [computeStats] and the instance life cycle.

    JavaScript strings are modelled as [string] (one [ascii] per code unit),
    objects used as maps as association lists of their own properties in
    enumeration order, numbers as [Z] extended with [NaN] (the clocks
    return whole numbers, on which the arithmetic of doubles is that of
    the integers as long as no result reaches [2^53]), exceptions as
    [None], and in-place mutation as explicit state passing. *)

From Stdlib Require Import String Ascii List Bool ZArith Lia Arith DecimalString.
Import ListNotations.

Local Open Scope string_scope.
Local Open Scope list_scope.

Set Implicit Arguments.
Set Warnings "-register-all".

(* ------------------------------------------------------------------ *)
(** ** JavaScript string primitives *)

Module JsString.

(** [String.prototype.trim] strips white space and line terminators; on
    code units below 256 these are TAB, LF, VT, FF, CR, SPACE and NBSP. *)
Definition is_ws (c : ascii) : bool :=
  match nat_of_ascii c with
  | 9 | 10 | 11 | 12 | 13 | 32 | 160 => true
  | _ => false
  end.

Fixpoint trim_left (s : string) : string :=
  match s with
  | EmptyString => EmptyString
  | String c r => if is_ws c then trim_left r else s
  end.

Fixpoint trim_right (s : string) : string :=
  match s with
  | EmptyString => EmptyString
  | String c r =>
      match trim_right r with
      | EmptyString => if is_ws c then EmptyString else String c EmptyString
      | r' => String c r'
      end
  end.

Definition trim (s : string) : string := trim_right (trim_left s).

(** [s.split(sep)] for a one-character separator: never empty, the empty
    string splits into one empty part. *)
Fixpoint split (sep : ascii) (s : string) : list string :=
  match s with
  | EmptyString => [EmptyString]
  | String c r =>
      if Ascii.eqb c sep then EmptyString :: split sep r
      else match split sep r with
           | [] => [String c EmptyString]
           | h :: t => String c h :: t
           end
  end.

(** [parts.join(sep)] *)
Fixpoint join (sep : string) (parts : list string) : string :=
  match parts with
  | [] => EmptyString
  | [p] => p
  | p :: ps => p ++ sep ++ join sep ps
  end.

(** [s.indexOf(c) !== -1] *)
Fixpoint contains (c : ascii) (s : string) : bool :=
  match s with
  | EmptyString => false
  | String d r => Ascii.eqb d c || contains c r
  end.

(** [s.indexOf(c) === 0] *)
Definition starts_with (c : ascii) (s : string) : bool :=
  match s with
  | String d _ => Ascii.eqb d c
  | EmptyString => false
  end.

(** truthiness of a string: non-empty *)
Definition truthy (s : string) : bool :=
  match s with EmptyString => false | _ => true end.

End JsString.

(* ------------------------------------------------------------------ *)
(** ** Regular expressions: [RegExp.prototype.test] on an anchored pattern

    The pattern of [PROFILE_KEY_REGEX] uses only concatenation, character
    classes, [+], [*] and [?] between [^] and [$]; for such a pattern [test]
    decides membership in its language, here by Brzozowski derivatives. *)

Module Regex.

Inductive regex : Type :=
| Void
| Eps
| Cls (p : ascii -> bool)
| Cat (r1 r2 : regex)
| Alt (r1 r2 : regex)
| Star (r : regex).

Definition Plus (r : regex) : regex := Cat r (Star r).
Definition Opt (r : regex) : regex := Alt r Eps.
Definition Chr (c : ascii) : regex := Cls (fun d => Ascii.eqb d c).

Fixpoint nullable (r : regex) : bool :=
  match r with
  | Void => false
  | Eps => true
  | Cls _ => false
  | Cat r1 r2 => nullable r1 && nullable r2
  | Alt r1 r2 => nullable r1 || nullable r2
  | Star _ => true
  end.

Fixpoint deriv (c : ascii) (r : regex) : regex :=
  match r with
  | Void => Void
  | Eps => Void
  | Cls p => if p c then Eps else Void
  | Cat r1 r2 =>
      if nullable r1 then Alt (Cat (deriv c r1) r2) (deriv c r2)
      else Cat (deriv c r1) r2
  | Alt r1 r2 => Alt (deriv c r1) (deriv c r2)
  | Star r1 => Cat (deriv c r1) (Star r1)
  end.

Fixpoint test (r : regex) (s : string) : bool :=
  match s with
  | EmptyString => nullable r
  | String c s' => test (deriv c r) s'
  end.

(** The language of a pattern. *)
Inductive lang : regex -> string -> Prop :=
| L_eps : lang Eps EmptyString
| L_cls p c : p c = true -> lang (Cls p) (String c EmptyString)
| L_cat r1 r2 s1 s2 : lang r1 s1 -> lang r2 s2 -> lang (Cat r1 r2) (s1 ++ s2)
| L_alt_l r1 r2 s : lang r1 s -> lang (Alt r1 r2) s
| L_alt_r r1 r2 s : lang r2 s -> lang (Alt r1 r2) s
| L_star_nil r : lang (Star r) EmptyString
| L_star_cons r s1 s2 :
    lang r s1 -> lang (Star r) s2 -> lang (Star r) (s1 ++ s2).

End Regex.

(* ------------------------------------------------------------------ *)
(** ** ProfileKey *)

Module Key.
Import JsString Regex.

(** [[^\/:]] *)
Definition not_sep (c : ascii) : bool :=
  negb (Ascii.eqb c "/" || Ascii.eqb c ":").

(** [/^(\/?[^\/:]+)+(\/[^\/:]+)*(:[^\/:]+)?$/] *)
Definition PROFILE_KEY_REGEX : regex :=
  Cat (Plus (Cat (Opt (Chr "/")) (Plus (Cls not_sep))))
      (Cat (Star (Cat (Chr "/") (Plus (Cls not_sep))))
           (Opt (Cat (Chr ":") (Plus (Cls not_sep))))).

(** The fields a [ProfileKey] instance carries.  [duration] is [None]
    for JavaScript's [null]. *)
Record ProfileKey : Type := mkKey {
  profiles : list string;
  duration : option string;
  root : bool
}.

(** [this.duration ? ... : ...] and [if (profileKey.duration)]: [null]
    and the empty string are falsy. *)
Definition duration_label (d : option string) : option string :=
  match d with
  | Some l => if truthy l then Some l else None
  | None => None
  end.

(** Replace the last element of a non-empty array. *)
Fixpoint set_last (l : list string) (x : string) : list string :=
  match l with
  | [] => []
  | [_] => [x]
  | y :: ys => y :: set_last ys x
  end.

(** [new ProfileKey(key)].  [None] is the [TypeError] of
    [this.profiles[this.profiles.length - 1].indexOf] on an empty
    [profiles] array. *)
Definition parse (key : string) : option ProfileKey :=
  let ps := filter truthy (map trim (split "/" key)) in
  match ps with
  | [] => None
  | _ =>
      let lst := last ps EmptyString in
      if contains ":" lst then
        let parts := split ":" lst in
        Some (mkKey (set_last ps (trim (nth 0 parts EmptyString)))
                    (Some (trim (nth 1 parts EmptyString)))
                    (starts_with "/" key))
      else
        Some (mkKey ps None (starts_with "/" key))
  end.

(** [ProfileKey.prototype.toString]; the cached [this.str] is a function
    of fields that never change after construction. *)
Definition toString (k : ProfileKey) : string :=
  (if root k then "/" else "") ++ join "/" (profiles k) ++
  match duration_label (duration k) with
  | Some l => ":" ++ l
  | None => ""
  end.

(** Line 661-662: the raw key is trimmed, then must be non-empty and
    match the pattern. *)
Definition valid (raw : string) : bool :=
  truthy (trim raw) && test PROFILE_KEY_REGEX (trim raw).

End Key.

(* ------------------------------------------------------------------ *)
(** ** Time stamps and numbers *)

Module Num.

(** What [Waterfall._now] returns: a number of milliseconds in a
    browser, the pair [[seconds, nanoseconds]] of [process.hrtime]
    otherwise. *)
Inductive rawtime : Type :=
| TNum (z : Z)
| THr (s ns : Z).

(** Truthiness: the number 0 is falsy, an array is truthy. *)
Definition truthy_time (t : rawtime) : bool :=
  match t with
  | TNum z => negb (Z.eqb z 0)
  | THr _ _ => true
  end.

(** [a || b] on time stamps, [None] being [undefined]. *)
Definition or_time (a b : option rawtime) : option rawtime :=
  match a with
  | Some t => if truthy_time t then a else b
  | None => b
  end.

(** A JavaScript number, restricted to the integers and [NaN]. *)
Inductive num : Type :=
| NaN
| Fin (z : Z).

(** A number or [undefined]. *)
Definition value : Type := option num.

Definition to_num (v : value) : num :=
  match v with Some n => n | None => NaN end.

Definition sub (a b : num) : num :=
  match a, b with Fin x, Fin y => Fin (x - y) | _, _ => NaN end.

Definition add (a b : num) : num :=
  match a, b with Fin x, Fin y => Fin (x + y) | _, _ => NaN end.

Definition lt (a b : num) : bool :=
  match a, b with Fin x, Fin y => Z.ltb x y | _, _ => false end.

Definition gt (a b : num) : bool := lt b a.

(** [Math.min] and [Math.max]: [NaN] as soon as an argument is [NaN]
    or [undefined]. *)
Definition min (a b : num) : num :=
  match a, b with Fin x, Fin y => Fin (Z.min x y) | _, _ => NaN end.

Definition max (a b : num) : num :=
  match a, b with Fin x, Fin y => Fin (Z.max x y) | _, _ => NaN end.

(** [v || 0] for a number or [undefined]. *)
Definition or_zero (v : value) : num :=
  match v with
  | Some (Fin z) => Fin z
  | _ => Fin 0
  end.

End Num.

(* ------------------------------------------------------------------ *)
(** ** Objects used as maps

    An object literal used as a map is an association list of its own
    properties in the order [Y.Object.each] visits them: keys that
    spell an array index first, in ascending numeric order, then the
    other keys in insertion order.  A read [o[k]] that finds no own
    property falls through to [Object.prototype]: [inherited] lists the
    names found there. *)

Module Obj.

(** The property names every object literal inherits. *)
Definition inherited (k : string) : bool :=
  existsb (String.eqb k)
    ["constructor"; "toString"; "toLocaleString"; "valueOf";
     "hasOwnProperty"; "isPrototypeOf"; "propertyIsEnumerable";
     "__proto__"; "__defineGetter__"; "__defineSetter__";
     "__lookupGetter__"; "__lookupSetter__"].

Definition is_digit (c : ascii) : bool :=
  (48 <=? nat_of_ascii c)%nat && (nat_of_ascii c <=? 57)%nat.

Fixpoint all_digits (s : string) : bool :=
  match s with
  | EmptyString => true
  | String c r => is_digit c && all_digits r
  end.

(** A canonical array index: decimal digits without a leading zero,
    at most [2^32 - 2]. *)
Definition is_index (k : string) : bool :=
  match k with
  | EmptyString => false
  | String c r =>
      all_digits k &&
      (negb (Ascii.eqb c "0") || String.eqb r "") &&
      ((String.length k <? 10)%nat ||
       ((String.length k =? 10)%nat && String.leb k "4294967294"))
  end.

(** Numeric order on canonical array indices. *)
Definition index_lt (a b : string) : bool :=
  (String.length a <? String.length b)%nat ||
  ((String.length a =? String.length b)%nat && String.ltb a b).

(** [k] is enumerated before [k'] wherever it is inserted. *)
Definition before (k k' : string) : bool :=
  is_index k && (negb (is_index k') || index_lt k k').

Section Assoc.
Variable V : Type.

Fixpoint lookup (k : string) (o : list (string * V)) : option V :=
  match o with
  | [] => None
  | (k', v) :: o' => if String.eqb k' k then Some v else lookup k o'
  end.

(** The value of an existing key replaced in place. *)
Fixpoint replace (k : string) (v : V) (o : list (string * V))
  : list (string * V) :=
  match o with
  | [] => []
  | (k', v') :: o' =>
      if String.eqb k' k then (k', v) :: o' else (k', v') :: replace k v o'
  end.

(** A new key put at its place in the enumeration order. *)
Fixpoint insert (k : string) (v : V) (o : list (string * V))
  : list (string * V) :=
  match o with
  | [] => [(k, v)]
  | (k', v') :: o' =>
      if before k k' then (k, v) :: o else (k', v') :: insert k v o'
  end.

(** [o[k] = v] *)
Definition set (k : string) (v : V) (o : list (string * V))
  : list (string * V) :=
  match lookup k o with
  | Some _ => replace k v o
  | None => insert k v o
  end.

(** [Y.mix(receiver, supplier)]: keys of the receiver are kept. *)
Definition mix (receiver supplier : list (string * V))
  : list (string * V) :=
  fold_left (fun r kv =>
               match lookup (fst kv) r with
               | Some _ => r
               | None => set (fst kv) (snd kv) r
               end) supplier receiver.

(** [Y.mix(receiver, supplier, true, null, 0, true)] on flat values:
    the supplier's keys overwrite. *)
Definition mix_overwrite (receiver supplier : list (string * V))
  : list (string * V) :=
  fold_left (fun r kv => set (fst kv) (snd kv) r) supplier receiver.

End Assoc.

(** Attributes attached to a profile; attribute values are strings. *)
Definition Data : Type := list (string * string).

(** [data.k || dflt] *)
Definition get_or (k : string) (d : Data) (dflt : string) : string :=
  match lookup k d with
  | Some v => if JsString.truthy v then v else dflt
  | None => dflt
  end.

End Obj.

(* ------------------------------------------------------------------ *)
(** ** Profile: the tree node and its merge *)

Module Prof.
Import JsString Key Num Obj.

(** A duration bucket [{startTime, endTime}]. *)
Record Duration : Type := mkDuration {
  d_startTime : option rawtime;
  d_endTime : option rawtime
}.

(** A [Profile] object.  [durations] is [None] for [null];
    [cur_duration] is the label [l] when [this.duration] is the bucket
    [this.durations[l]] created by the constructor; [startTime] and
    [endTime] are [None] while [undefined]; [closed] is [false] while
    [undefined]. *)
Inductive Profile : Type := mkProfile {
  profileKey : ProfileKey;
  id : string;
  type : string;
  durations : option (list (string * Duration));
  cur_duration : option string;
  children : list (string * list Profile);
  data : Data;
  startTime : option rawtime;
  endTime : option rawtime;
  closed : bool
}.

Definition with_children (p : Profile) (c : list (string * list Profile)) :=
  mkProfile (profileKey p) (id p) (type p) (durations p) (cur_duration p)
            c (data p) (startTime p) (endTime p) (closed p).

Definition with_durations (p : Profile) (d : option (list (string * Duration))) :=
  mkProfile (profileKey p) (id p) (type p) d (cur_duration p)
            (children p) (data p) (startTime p) (endTime p) (closed p).

Definition with_type (p : Profile) (t : string) :=
  mkProfile (profileKey p) (id p) t (durations p) (cur_duration p)
            (children p) (data p) (startTime p) (endTime p) (closed p).

Definition with_data (p : Profile) (d : Data) :=
  mkProfile (profileKey p) (id p) (type p) (durations p) (cur_duration p)
            (children p) d (startTime p) (endTime p) (closed p).

Definition with_times (p : Profile) (s e : option rawtime) :=
  mkProfile (profileKey p) (id p) (type p) (durations p) (cur_duration p)
            (children p) (data p) s e (closed p).

Definition with_closed (p : Profile) (c : bool) :=
  mkProfile (profileKey p) (id p) (type p) (durations p) (cur_duration p)
            (children p) (data p) (startTime p) (endTime p) c.

(** One node as the constructor leaves it, before its child is linked:
    lines 65-70 and 83-86. *)
Definition node (segs : list string) (dur : option string) (rt : bool)
  : Profile :=
  let i := hd EmptyString segs in
  mkProfile (mkKey segs dur rt) i i
    (match duration_label dur with
     | Some l => Some [(l, mkDuration None None)]
     | None => None
     end)
    (duration_label dur) [] [] None None false.

(** A profile on the reconciler's stack.  The constructor builds a chain
    of single-child nodes, one per segment, and stores in the top node a
    pointer [this.profile] to the deepest one.  The chain is kept as a
    zipper: [spine] holds the nodes above the deepest one, top first,
    each with its link to the next left out of [children]; [focus] is
    the node [this.profile] points at.  Only the top node ([type],
    [closed]) and the deepest node change while the profile is open. *)
Record Entry : Type := mkEntry {
  spine : list Profile;
  focus : Profile
}.

(** [new Profile(profileKey)] for a key with segments [seg :: segs]. *)
Fixpoint chain (seg : string) (segs : list string) (dur : option string)
         (rt : bool) : Entry :=
  match segs with
  | [] => mkEntry [] (node [seg] dur rt)
  | s :: segs' =>
      let e := chain s segs' dur false in
      mkEntry (node (seg :: segs) dur rt :: spine e) (focus e)
  end.

(** The constructor on a parsed key; the reconciler only builds
    profiles from keys whose [profiles] array is non-empty. *)
Definition newProfile (k : ProfileKey) : Entry :=
  match profiles k with
  | [] => mkEntry [] (node [] (duration k) (root k))
  | seg :: segs => chain seg segs (duration k) (root k)
  end.

(** The object the zipper stands for: every spine node gets back its
    one child, [children[profiles[1]] = [child]]. *)
Definition plug (e : Entry) : Profile :=
  fold_right (fun n child => with_children n [(id child, [child])])
             (focus e) (spine e).

(** Apply [f] to the top node of the chain. *)
Definition map_top (f : Profile -> Profile) (e : Entry) : Entry :=
  match spine e with
  | [] => mkEntry [] (f (focus e))
  | t :: ts => mkEntry (f t :: ts) (focus e)
  end.

Definition top (e : Entry) : Profile :=
  match spine e with
  | [] => focus e
  | t :: _ => t
  end.

(** The argument of [set]. *)
Record SetData : Type := mkSetData {
  sd_startTime : option rawtime;
  sd_endTime : option rawtime;
  sd_data : Data
}.

(** Lines 98-106 on the deepest node. *)
Definition set_focus (sd : SetData) (p : Profile) : Profile :=
  let p1 :=
    match cur_duration p with
    | Some l =>
        match durations p with
        | Some ds =>
            match lookup l ds with
            | Some d =>
                with_durations p
                  (Some (Obj.set l
                     (mkDuration (or_time (d_startTime d) (sd_startTime sd))
                                 (or_time (d_endTime d) (sd_endTime sd)))
                     ds))
            | None => p
            end
        | None => p
        end
    | None =>
        with_times p (or_time (startTime p) (sd_startTime sd))
                     (or_time (endTime p) (sd_endTime sd))
    end in
  with_data p1 (mix_overwrite (data p1) (sd_data sd)).

(** [Profile.prototype.set], called on the top node of a chain. *)
Definition set (sd : SetData) (e : Entry) : Entry :=
  let e1 := mkEntry (spine e) (set_focus sd (focus e)) in
  map_top (fun t => with_type t (get_or "type" (data (focus e1)) (type t))) e1.

(** Replace the last element of a non-empty array by its image. *)
Fixpoint map_last (f : Profile -> Profile) (l : list Profile)
  : list Profile :=
  match l with
  | [] => []
  | [x] => [f x]
  | x :: xs => x :: map_last f xs
  end.

Definition or_empty (d : option (list (string * Duration)))
  : list (string * Duration) :=
  match d with Some ds => ds | None => [] end.

(** [x.durations = x.durations || {}; Y.mix(x.durations, supplier)] *)
Definition mix_durations (x : Profile)
           (supplier : option (list (string * Duration))) : Profile :=
  with_durations x (Some (mix (or_empty (durations x)) (or_empty supplier))).

(** Lines 155-158. *)
Definition merge_into (lastProfile profile : Profile) : Profile :=
  let l1 := with_times lastProfile (startTime profile) (endTime profile) in
  let l2 := with_type l1 (get_or "type" (data profile) (type l1)) in
  with_data l2 (mix_overwrite (data l2) (data profile)).

(** [Profile.prototype.add] with its [parentProfile] made explicit: the
    parent as the call leaves it, and whether the call threw.  Line 134
    reads [children[profile.id]] through the prototype chain: for an id
    that is no own key but names a member of [Object.prototype] the
    test finds that member, [lastProfile] of line 140 is [undefined]
    and line 142 or 146 throws a [TypeError], as they do on an empty
    array.  The recursion of line 150 descends into the children of
    [profile] and stops at the first call that throws. *)
Fixpoint add_run (profile parentProfile : Profile) {struct profile}
  : Profile * bool :=
  match profile with
  | mkProfile _ pid _ pdur _ pchildren _ _ _ _ =>
      if negb (truthy pid) then (mix_durations parentProfile pdur, false)
      else
        match lookup pid (children parentProfile) with
        | None =>
            if inherited pid then (parentProfile, true)
            else
              (with_children parentProfile
                 (Obj.set pid [profile] (children parentProfile)), false)
        | Some profileArray =>
            match last (map (fun x => Some x) profileArray) None with
            | None => (parentProfile, true)
            | Some lastProfile =>
                let upd (lp : Profile) :=
                  with_children parentProfile
                    (Obj.set pid (map_last (fun _ => lp) profileArray)
                             (children parentProfile)) in
                match pdur, startTime lastProfile, pchildren with
                | Some _, _, _ =>
                    (upd (mix_durations lastProfile pdur), false)
                | None, None, _ :: _ =>
                    let (lp, threw) :=
                      (fix each_key (cs : list (string * list Profile))
                           (acc : Profile) {struct cs} : Profile * bool :=
                         match cs with
                         | [] => (acc, false)
                         | (_, arr) :: cs' =>
                             let (acc1, threw1) :=
                               (fix each_child (a : list Profile)
                                    (acc' : Profile) {struct a}
                                  : Profile * bool :=
                                  match a with
                                  | [] => (acc', false)
                                  | c :: a' =>
                                      let (acc2, threw2) := add_run c acc' in
                                      if threw2 then (acc2, true)
                                      else each_child a' acc2
                                  end) arr acc in
                             if threw1 then (acc1, true)
                             else each_key cs' acc1
                         end) pchildren lastProfile in
                    (upd lp, threw)
                | None, None, [] =>
                    (upd (merge_into lastProfile profile), false)
                | None, Some _, _ =>
                    (with_children parentProfile
                       (Obj.set pid (profileArray ++ [profile])
                                (children parentProfile)), false)
                end
            end
        end
  end.

(** The parent after [add(profile, parentProfile)]. *)
Definition add (profile parentProfile : Profile) : Profile :=
  fst (add_run profile parentProfile).

(** Whether [add(profile, parentProfile)] throws. *)
Definition add_throws (profile parentProfile : Profile) : bool :=
  snd (add_run profile parentProfile).

End Prof.

(* ------------------------------------------------------------------ *)
(** ** The call log and its reconciler ([_processCalls]) *)

Module Reconciler.
Import JsString Key Num Obj Prof.

(** The [time] property of an event object: what the clock returned
    or the caller supplied, or what [getGui] has put in its place. *)
Inductive EvTime : Type :=
| Recorded (t : rawtime)
| Normalized (v : value).

(** The object an [event] call is given as [data], which is also the
    object [this.events] holds: [ev_type] and [ev_time] are its
    properties [type] and [time], [None] while it has none, [ev_data]
    its other properties.  Every call is given an object of its own. *)
Record EventRec : Type := mkEvent {
  ev_data : Data;
  ev_type : option string;
  ev_time : option EvTime
}.

(** One entry of [this._calls]: what [start], [end] and [event] push.
    For [start] and [end] a missing [data] is the empty object and a
    missing key the empty string ([args.profileKey || '']); for
    [event], [None] is a missing [data]. *)
Inductive Call : Type :=
| Start (key : string) (time : rawtime) (data : Data)
| End (key : string) (time : rawtime) (data : Data)
| Event (name : string) (time : rawtime) (data : option EventRec).

(** [Y.mix(data, {type: name, time: time})]: a property the object has
    is kept. *)
Definition mix_event (name : string) (time : rawtime) (o : EventRec)
  : EventRec :=
  mkEvent (ev_data o)
          (match ev_type o with Some x => Some x | None => Some name end)
          (match ev_time o with
           | Some x => Some x
           | None => Some (Recorded time)
           end).

(** Line 654: the object pushed onto [this.events]. *)
Definition event_object (name : string) (time : rawtime)
           (data : option EventRec) : EventRec :=
  mix_event name time
    (match data with Some o => o | None => mkEvent [] None None end).


(** What the reconciler reads and writes: its local [stack] (index 0
    first), [this.events] and [this.absoluteStartTime]. *)
Record State : Type := mkState {
  stack : list Entry;
  events : list EventRec;
  absoluteStartTime : option rawtime
}.

(** [_error]: one line handed to [Y.log] at level [error]. *)
Definition error (message profileKeyStr : string) : string :=
  "Error when profiling '" ++ profileKeyStr ++ "': " ++ message.

(** [new Profile({profiles: ['root']})] *)
Definition rootEntry : Entry := mkEntry [] (node ["root"] None false).

Definition init : State := mkState [rootEntry] [] None.

(** The canonical key of a stack entry, [stack[i].profileKey.toString()]. *)
Definition entry_key (e : Entry) : string := toString (profileKey (top e)).

(** Lines 679-684: the greatest index [i > 0] whose key matches;
    [find_from k l i] searches [l], whose first element has index [i]. *)
Fixpoint find_from (k : string) (l : list Entry) (i : nat) : option nat :=
  match l with
  | [] => None
  | e :: l' =>
      match find_from k l' (S i) with
      | Some j => Some j
      | None => if String.eqb (entry_key e) k then Some i else None
      end
  end.

Definition find_open (k : string) (st : list Entry) : option nat :=
  match st with
  | [] => None
  | _ :: above => find_from k above 1
  end.

(** [stack.splice(i, 1)] *)
Fixpoint splice (i : nat) (l : list Entry) : list Entry :=
  match l, i with
  | [], _ => []
  | _ :: l', O => l'
  | x :: l', S i' => x :: splice i' l'
  end.

(** In-place update of [stack[i]]. *)
Fixpoint update (i : nat) (f : Entry -> Entry) (l : list Entry)
  : list Entry :=
  match l, i with
  | [], _ => []
  | x :: l', O => f x :: l'
  | x :: l', S i' => x :: update i' f l'
  end.

(** [parent.add(profile)]: the parent's [this.profile] receives it. *)
Definition add_to (profile : Profile) (parent : Entry) : Entry :=
  mkEntry (spine parent) (add profile (focus parent)).

(** Line 651. *)
Definition origin (abs : option rawtime) (c : Call) : option rawtime :=
  match abs with
  | Some _ => abs
  | None =>
      match c with
      | Start _ t _ | Event _ t _ => Some t
      | End _ _ _ => None
      end
  end.

(** Line 703, [stack[parent].add(profile)]: the stack afterwards;
    [None] when the call throws. *)
Definition add_at (parent : nat) (profile : Profile) (st : list Entry)
  : option (list Entry) :=
  match nth_error st parent with
  | Some p =>
      if add_throws profile (focus p) then None
      else Some (update parent (add_to profile) st)
  | None => None
  end.

(** Lines 678-706, once the key is parsed; [None] stands for an
    exception. *)
Definition step_end (s : State) (abs : option rawtime) (pk : ProfileKey)
           (time : rawtime) (d : Data) : option (State * list string) :=
  match find_open (toString pk) (stack s) with
  | Some i =>
      match nth_error (stack s) i with
      | Some profile =>
          let profile1 := set (mkSetData None (Some time) d) profile in
          let profile2 := map_top (fun t => with_closed t true) profile1 in
          let stack1 := splice i (stack s) in
          let parent := if root pk then 0 else i - 1 in
          match add_at parent (plug profile2) stack1 with
          | Some stack2 => Some (mkState stack2 (events s) abs, [])
          | None => None
          end
      | None => Some (mkState (stack s) (events s) abs, [])
      end
  | None =>
      Some (mkState (stack s) (events s) abs,
            [error "Start was never called." (toString pk)])
  end.

(** The body of the loop of line 646 for one call.  [None] stands for
    an exception leaving [_processCalls]. *)
Definition step (s : State) (c : Call) : option (State * list string) :=
  let abs := origin (absoluteStartTime s) c in
  match c with
  | Event name t data =>
      Some (mkState (stack s) (events s ++ [event_object name t data]) abs,
            [])
  | Start raw t d =>
      let key := trim raw in
      if negb (truthy key) || negb (Regex.test PROFILE_KEY_REGEX key) then
        Some (mkState (stack s) (events s) abs,
              [error "Invalid profile." key])
      else
        match parse key with
        | None => None
        | Some pk =>
            let profile := set (mkSetData (Some t) None d) (newProfile pk) in
            Some (mkState (stack s ++ [profile]) (events s) abs, [])
        end
  | End raw t d =>
      let key := trim raw in
      if negb (truthy key) || negb (Regex.test PROFILE_KEY_REGEX key) then
        Some (mkState (stack s) (events s) abs,
              [error "Invalid profile." key])
      else
        match parse key with
        | None => None
        | Some pk => step_end s abs pk t d
        end
  end.

(** [Y.Array.each(this._calls, ...)], collecting the logged errors. *)
Fixpoint run (s : State) (calls : list Call)
  : option (State * list string) :=
  match calls with
  | [] => Some (s, [])
  | c :: calls' =>
      match step s c with
      | None => None
      | Some (s1, log1) =>
          match run s1 calls' with
          | None => None
          | Some (s2, log2) => Some (s2, log1 ++ log2)
          end
      end
  end.

(** Lines 720-726 for one unterminated profile: its closed children
    are added to the root, in the order of [Y.Object.each] then
    [Y.Array.each]; [None] when an [add] throws. *)
Definition salvage (profile rootProfile : Profile) : option Profile :=
  fold_left
    (fun acc kv =>
       fold_left (fun acc' childProfile =>
                    match acc' with
                    | None => None
                    | Some r =>
                        if closed childProfile then
                          if add_throws childProfile r then None
                          else Some (add childProfile r)
                        else Some r
                    end)
                 (snd kv) acc)
    (children profile) (Some rootProfile).

(** Lines 711-728: the sweep over what is left above the root. *)
Fixpoint sweep (above : list Entry) (rootProfile : Profile)
  : option (Profile * list string) :=
  match above with
  | [] => Some (rootProfile, [])
  | e :: above' =>
      if closed (top e) then sweep above' rootProfile
      else
        match salvage (plug e) rootProfile with
        | None => None
        | Some r1 =>
            match sweep above' r1 with
            | None => None
            | Some (r, log) =>
                Some (r, error "End was never called." (entry_key e) :: log)
            end
        end
  end.

(** What [_processCalls] leaves in the instance: [_rootProfile],
    [events], [absoluteStartTime], and the errors it logged. *)
Record Result : Type := mkResult {
  rootProfile : Profile;
  r_events : list EventRec;
  r_origin : option rawtime;
  r_log : list string
}.

Definition finish (s : State) (log : list string) : option Result :=
  match stack s with
  | [] => Some (mkResult (focus rootEntry) (events s) (absoluteStartTime s) log)
  | r :: above =>
      match sweep above (focus r) with
      | None => None
      | Some (rp, log') =>
          Some (mkResult rp (events s) (absoluteStartTime s) (log ++ log'))
      end
  end.

(** [_processCalls] on a fresh instance whose log is [calls]; [None]
    stands for an exception. *)
Definition processCalls (calls : list Call) : option Result :=
  match run init calls with
  | Some (s, log) => finish s log
  | None => None
  end.

End Reconciler.

(* ------------------------------------------------------------------ *)
(** ** Rows: [_normalize] and the [createRows] closure of [getGui] *)

Module Rows.
Import JsString Key Num Obj Prof.

(** A row: the profile's [data] object with [durations], [details]
    ([None] once deleted), [startTime] and [endTime] written onto it. *)
Inductive Row : Type := mkRow {
  row_data : Data;
  row_durations : list (string * num);
  row_details : option (list Row);
  row_startTime : value;
  row_endTime : value
}.

(** [time - this.absoluteStartTime] in a browser. *)
Definition diff_ms (t : rawtime) (abs : option rawtime) : num :=
  match t, abs with
  | TNum a, Some (TNum b) => Fin (a - b)
  | _, _ => NaN
  end.

(** [s * 1e9 + ns] of lines 746-748. *)
Definition diff_hr (t abs : rawtime) : num :=
  match t, abs with
  | THr s ns, THr s0 ns0 => Fin ((s - s0) * 1000000000 + (ns - ns0))
  | _, _ => NaN
  end.

(** [_normalize].  The outer [None] is the [TypeError] of indexing an
    [undefined] [absoluteStartTime]; the inner one is [undefined]. *)
Definition normalize (isBrowser : bool) (abs : option rawtime)
           (time : option rawtime) : option value :=
  match time with
  | None => Some None
  | Some t =>
      if negb (truthy_time t) then Some None
      else if isBrowser then Some (Some (diff_ms t abs))
      else match abs with
           | Some a => Some (Some (diff_hr t a))
           | None => None
           end
  end.

(** [x !== undefined ? Math.min(x, y) : y] and its [Math.max] twin. *)
Definition widen_min (x y : value) : value :=
  match x with
  | Some n => Some (Num.min n (to_num y))
  | None => y
  end.

Definition widen_max (x y : value) : value :=
  match x with
  | Some n => Some (Num.max n (to_num y))
  | None => y
  end.

(** The running variables of the loop over [profile.durations]. *)
Record DurAcc : Type := mkDurAcc {
  da_rows : list (string * num);
  da_total : num;
  da_start : value;
  da_end : value
}.

(** Lines 536-551. *)
Fixpoint each_duration (isBrowser : bool) (abs : option rawtime)
         (ds : list (string * Duration)) (acc : DurAcc) : option DurAcc :=
  match ds with
  | [] => Some acc
  | (durationType, d) :: ds' =>
      match normalize isBrowser abs (d_startTime d),
            normalize isBrowser abs (d_endTime d) with
      | Some st, Some en =>
          let duration := sub (to_num en) (to_num st) in
          each_duration isBrowser abs ds'
            (mkDurAcc (da_rows acc ++ [(durationType, duration)])
                      (Num.add (da_total acc) duration)
                      (widen_min (da_start acc) st)
                      (widen_max (da_end acc) en))
      | _, _ => None
      end
  end.

(** Lines 573-585: the default bucket, or the gap left by the buckets. *)
Definition default_duration (durs : list (string * num))
           (totalDuration totalTime : num) : list (string * num) :=
  match durs with
  | [] => [("Elapsed Time", totalTime)]
  | _ =>
      if lt totalDuration totalTime
      then durs ++ [("Other", sub totalTime totalDuration)]
      else durs
  end.

(** The running variables of the loops over [profile.children]:
    [row.details], the profile's bounds, [self.absoluteEndTime]. *)
Record ChildAcc : Type := mkChildAcc {
  ca_details : list Row;
  ca_start : value;
  ca_end : value;
  ca_absEnd : num
}.

(** [createRows(profile, rows)]: the row pushed onto [rows] and the new
    [self.absoluteEndTime].  A child's row is its [data] object, on
    which line 561 has written [Name] before the recursive call. *)
Fixpoint createRows (isBrowser : bool) (abs : option rawtime)
         (profile : Profile) (absEnd : num) {struct profile}
  : option (Row * num) :=
  match profile with
  | mkProfile _ _ _ pdur _ pchildren pdata pstart pend _ =>
      match normalize isBrowser abs pstart,
            normalize isBrowser abs pend with
      | Some start0, Some end0 =>
          match each_duration isBrowser abs (or_empty pdur)
                  (mkDurAcc [] (Fin 0) start0 end0) with
          | None => None
          | Some da =>
              let after_children :=
                (fix each_key (cs : list (string * list Profile))
                     (acc : ChildAcc) {struct cs} : option ChildAcc :=
                   match cs with
                   | [] => Some acc
                   | (_, profileArray) :: cs' =>
                       match
                         (fix each_child (a : list Profile)
                              (details : list Row) (pst pen : value)
                              (absE : num) {struct a}
                            : option (list Row * value * value * num) :=
                            match a with
                            | [] => Some (details, pst, pen, absE)
                            | childProfile :: a' =>
                                let named :=
                                  with_data childProfile
                                    (Obj.set "Name"
                                       (get_or "Name" (data childProfile)
                                               (type childProfile))
                                       (data childProfile)) in
                                match createRows isBrowser abs childProfile absE with
                                | None => None
                                | Some (r, absE') =>
                                    let childRow :=
                                      mkRow (data named) (row_durations r)
                                            (row_details r) (row_startTime r)
                                            (row_endTime r) in
                                    each_child a' (details ++ [childRow])
                                      (match pst with
                                       | Some _ => pst
                                       | None => row_startTime childRow
                                       end)
                                      (row_endTime childRow) absE'
                                end
                            end) profileArray (ca_details acc) None None
                                 (ca_absEnd acc)
                       with
                       | None => None
                       | Some (details, pst, pen, absE) =>
                           each_key cs'
                             (mkChildAcc details
                                (widen_min (ca_start acc) pst)
                                (widen_max (ca_end acc) pen) absE)
                       end
                   end) pchildren
                  (mkChildAcc [] (da_start da) (da_end da) absEnd) in
              match after_children with
              | None => None
              | Some ca =>
                  let totalTime :=
                    sub (to_num (ca_end ca)) (to_num (ca_start ca)) in
                  Some (mkRow pdata
                          (default_duration (da_rows da) (da_total da) totalTime)
                          (match ca_details ca with
                           | [] => None
                           | ds => Some ds
                           end)
                          (ca_start ca) (ca_end ca),
                        Num.max (ca_absEnd ca) (or_zero (ca_end ca)))
              end
          end
      | _, _ => None
      end
  end.

(** Lines 606-608: the rows of the waterfall are the [details] of the
    root's row ([None] when the root has no child). *)
Definition buildRows (isBrowser : bool) (abs : option rawtime)
           (rootProfile : Profile) : option (option (list Row) * num) :=
  match createRows isBrowser abs rootProfile (Fin 0) with
  | Some (r, absEnd) => Some (row_details r, absEnd)
  | None => None
  end.

End Rows.

(* ------------------------------------------------------------------ *)
(** ** Statistics: [_executeExpression] and [computeStats] *)

Module Stats.
Import JsString Num Obj Rows.

(** A value an expression can read or produce; [JQuot n d] is the
    number [n / d], [JObject] any object or array. *)
Inductive JsVal : Type :=
| JUndefined
| JNull
| JBool (b : bool)
| JNum (n : num)
| JStr (s : string)
| JQuot (n : num) (d : nat)
| JObject.

(** The outcome of [eval]: a value, or an exception with its message. *)
Inductive EvalResult : Type :=
| Returns (v : JsVal)
| Throws (message : string).

(** The [values] argument of [_executeExpression]: an object read
    through its property names. *)
Definition Values : Type := string -> JsVal.

Definition dq : string := String (ascii_of_nat 34) EmptyString.

(** One occurrence collected in a bucket (lines 319-323); [sv_root] is
    [None] when [root] is [undefined]. *)
Record StatValue : Type := mkStatValue {
  sv_startTime : num;
  sv_endTime : num;
  sv_root : option string
}.

(** [minDuration] and [maxDuration]: empty objects until the first
    occurrence is seen. *)
Definition Extreme : Type := option (num * option string).

(** One entry of [stat.summary]. *)
Record Summary (D : Type) : Type := mkSummary {
  sm_Name : option string;
  sm_Duration : D
}.

(** The figures of a bucket before they are turned into text. *)
Record Figures : Type := mkFigures {
  f_total : num;
  f_min : Extreme;
  f_max : Extreme;
  f_summary : list (Summary num)
}.

(** A finished bucket: every duration is text. *)
Record Stat : Type := mkStat {
  st_Name : string;
  st_Calls : nat;
  st_Total : string;
  st_Avg : string;
  st_Min : string;
  st_Max : string;
  st_summary : list (Summary string)
}.

(** What [stats[statType]] holds at the end: the finished bucket, or
    still the array of occurrences when [statsFilter] rejected it. *)
Inductive Bucket : Type :=
| Finished (s : Stat)
| Raw (occurrences : list StatValue).

(** [String(x)] for a name or [undefined]. *)
Definition name_str (n : option string) : string :=
  match n with Some s => s | None => "undefined" end.

(** Lines 413-414: the name in brackets unless [name === statType]. *)
Definition annotation (statType : string) (name : option string) : string :=
  match name with
  | Some n => if String.eqb n statType then "" else " (" ++ n ++ ")"
  | None => " (undefined)"
  end.

Definition extreme_value (e : Extreme) : value :=
  match e with Some (d, _) => Some d | None => None end.

Definition extreme_name (e : Extreme) : option string :=
  match e with Some (_, n) => n | None => None end.

(** Lines 381-399 for one occurrence. *)
Definition accumulate (f : Figures) (statValue : StatValue) : Figures :=
  let duration := sub (sv_endTime statValue) (sv_startTime statValue) in
  let name := sv_root statValue in
  mkFigures
    (Num.add (f_total f) duration)
    (match f_min f with
     | None => Some (duration, name)
     | Some (m, _) => if lt duration m then Some (duration, name) else f_min f
     end)
    (match f_max f with
     | None => Some (duration, name)
     | Some (m, _) => if gt duration m then Some (duration, name) else f_max f
     end)
    (f_summary f ++ [mkSummary name duration]).

Definition figures (statArray : list StatValue) : Figures :=
  fold_left accumulate statArray (mkFigures (Fin 0) None None []).

Section Engine.

(** [eval], and the textual substitution of lines 198-218 that builds
    [valueExpression] from the expression and the values.  The
    substitution runs before the [try] block: [None] is an exception
    it raises (a replacement read from the values can be a function
    that throws when [replace] calls it). *)
Variable js_eval : string -> EvalResult.
Variable substitute : string -> Values -> option string.

(** The module [mojito-waterfall-time] is not part of the sources:
    [Time.timeToMs], [Time.msTimeToString(x, 4)], and the latter on
    the quotient [total / calls]. *)
Variable timeToMs : string -> num.
Variable msTimeToString : value -> string.
Variable msAvgToString : num -> nat -> string.

(** [Array.prototype.sort] with a comparator. *)
Variable array_sort : forall A : Type, (A -> A -> num) -> list A -> list A.

(** [Waterfall._executeExpression]: the value and what was logged;
    the expression [None] is a missing one, the result [None] an
    exception of the substitution. *)
Definition executeExpression (expression : option string)
           (values : Values) : option (JsVal * list string) :=
  match expression with
  | None => Some (JNull, [])
  | Some e =>
      if negb (truthy e) then Some (JNull, [])
      else
        match substitute e values with
        | None => None
        | Some valueExpression =>
            match js_eval valueExpression with
            | Returns v => Some (v, [])
            | Throws message =>
                Some (JNull,
                      [("Error executing the expression " ++ dq ++ e ++ dq ++
                        " = " ++ dq ++ valueExpression ++ dq ++ ": " ++
                        message)%string])
            end
        end
  end.

(** [x === false] *)
Definition is_false (v : JsVal) : bool :=
  match v with JBool false => true | _ => false end.

(** The variables [stats], [minTime] and [maxTime] of [computeStats]
    while occurrences are collected. *)
Record Collect : Type := mkCollect {
  c_stats : list (string * list StatValue);
  c_minTime : value;
  c_maxTime : value
}.

(** What [addStat] reads from its [profile] argument. *)
Record Occurrence : Type := mkOccurrence {
  o_type : option string;
  o_Name : option string;
  o_startMs : num;
  o_endMs : num;
  o_values : Values
}.

(** [profile.type || profile.Name], used as a property name. *)
Definition bucket_of (o : Occurrence) : string :=
  match o_type o with
  | Some t => if truthy t then t else name_str (o_Name o)
  | None => name_str (o_Name o)
  end.

(** Lines 318-326: the occurrence pushed onto the array [arr] of its
    bucket. *)
Definition record_stat (o : Occurrence) (root : option string)
           (arr : list StatValue) (c : Collect) : Collect :=
  mkCollect (Obj.set (bucket_of o)
               (arr ++ [mkStatValue (o_startMs o) (o_endMs o) root])
               (c_stats c))
    (match c_minTime c with
     | None => Some (o_startMs o)
     | Some m => Some (Num.min (o_startMs o) m)
     end)
    (match c_maxTime c with
     | None => Some (o_endMs o)
     | Some m => Some (Num.max (o_endMs o) m)
     end).

(** [addStat(profile, root)]: lines 310-327.  [None] stands for an
    exception: of the filter's substitution, or of line 319 when
    [stats[type]] of line 318 is a member of [Object.prototype], which
    has no [push]. *)
Definition addStat (profileFilter : option string) (o : Occurrence)
           (root : option string) (c : Collect)
  : option (Collect * list string) :=
  match executeExpression profileFilter (o_values o) with
  | None => None
  | Some (v, log) =>
      if is_false v then Some (c, log)
      else
        match lookup (bucket_of o) (c_stats c) with
        | Some arr => Some (record_stat o root arr c, log)
        | None =>
            if inherited (bucket_of o) then None
            else Some (record_stat o root [] c, log)
        end
  end.

(** A duration of a row after the statistics pass: [getMsTime] has
    written [startMs] and [endMs] on every bucket but the default one. *)
Record SDur : Type := mkSDur {
  sd_type : string;
  sd_duration : num;
  sd_ms : option (num * num)
}.

(** A row after the statistics pass. *)
Inductive SRow : Type := mkSRow {
  s_data : Data;
  s_durations : list SDur;
  s_details : option (list SRow);
  s_startTime : value;
  s_endTime : value;
  s_startMs : num;
  s_endMs : num
}.

(** [String(x)] for a number or [undefined]. *)
Definition show_value (v : value) : string :=
  match v with
  | None => "undefined"
  | Some NaN => "NaN"
  | Some (Fin z) => NilZero.string_of_int (Z.to_int z)
  end.

(** [x + (Number(x) ? units : '')] of lines 307-308. *)
Definition with_units (units : string) (v : value) : string :=
  show_value v ++
  match v with
  | Some (Fin z) => if Z.eqb z 0 then "" else units
  | _ => ""
  end.

Definition ms_of (units : string) (v : value) : num :=
  timeToMs (with_units units v).

(** Lines 340-342. *)
Definition by_start (a b : SRow) : num :=
  if gt (s_startMs a) (s_startMs b) then Fin 1
  else if lt (s_startMs a) (s_startMs b) then Fin (-1)
  else Fin 0.

Definition sdur_of (units : string) (d : string * num) : SDur :=
  mkSDur (fst d) (snd d)
    (if String.eqb (fst d) "Elapsed Time" then None
     else Some (ms_of units None, ms_of units None)).

(** [getMsTime] on every row and bucket and [rows.sort] on every level
    (lines 337-342, 356).  Neither depends on what the traversal of
    [getStats] collects, so the model sorts the whole tree first. *)
Fixpoint sortRows (units : string) (r : Row) {struct r} : SRow :=
  match r with
  | mkRow rdata rdurs rdetails rstart rend =>
      mkSRow rdata (map (sdur_of units) rdurs)
        (match rdetails with
         | None => None
         | Some ds =>
             Some (array_sort by_start
                     ((fix each (l : list Row) : list SRow :=
                         match l with
                         | [] => []
                         | x :: l' => sortRows units x :: each l'
                         end) ds))
         end)
        rstart rend (ms_of units rstart) (ms_of units rend)
  end.

(** Lines 343-346: [names[name]] becomes 0 for a name seen for the
    first time and 1 for a name seen before.  The table is an object
    literal: a name inherited from [Object.prototype] is never
    [undefined] and counts as seen before, and the assignment of a
    number to [__proto__] leaves no trace. *)
Definition count_names (rows : list SRow) : list (string * nat) :=
  fold_left (fun names row =>
               let name := name_str (lookup "Name" (s_data row)) in
               match lookup name names with
               | Some _ => Obj.set name 1 names
               | None =>
                   if String.eqb name "__proto__" then names
                   else if inherited name then Obj.set name 1 names
                   else Obj.set name 0 names
               end) rows [].

Definition dur_values (d : SDur) : Values :=
  fun k =>
    if String.eqb k "type" then JStr (sd_type d)
    else if String.eqb k "duration" then JNum (sd_duration d)
    else if String.eqb k "startMs" then
      match sd_ms d with Some (a, _) => JNum a | None => JUndefined end
    else if String.eqb k "endMs" then
      match sd_ms d with Some (_, b) => JNum b | None => JUndefined end
    else JUndefined.

Definition js_value (v : value) : JsVal :=
  match v with Some n => JNum n | None => JUndefined end.

Definition row_values (r : SRow) : Values :=
  fun k =>
    if String.eqb k "durations" then JObject
    else if String.eqb k "details" then
      match s_details r with Some _ => JObject | None => JUndefined end
    else if String.eqb k "startTime" then js_value (s_startTime r)
    else if String.eqb k "endTime" then js_value (s_endTime r)
    else if String.eqb k "startMs" then JNum (s_startMs r)
    else if String.eqb k "endMs" then JNum (s_endMs r)
    else match lookup k (s_data r) with
         | Some v => JStr v
         | None => JUndefined
         end.

(** Lines 354-359: the buckets of one row. *)
Fixpoint each_row_duration (profileFilter : option string)
         (root : option string) (ds : list SDur) (c : Collect)
  : option (Collect * list string) :=
  match ds with
  | [] => Some (c, [])
  | d :: ds' =>
      match sd_ms d with
      | None => each_row_duration profileFilter root ds' c
      | Some (a, b) =>
          match addStat profileFilter
                  (mkOccurrence (Some (sd_type d)) None a b (dur_values d))
                  root c with
          | None => None
          | Some (c1, log1) =>
              match each_row_duration profileFilter root ds' c1 with
              | None => None
              | Some (c2, log2) => Some (c2, (log1 ++ log2)%list)
              end
          end
      end
  end.

Definition with_Name (r : SRow) (name : string) : SRow :=
  mkSRow (Obj.set "Name" name (s_data r))
         (s_durations r) (s_details r) (s_startTime r) (s_endTime r)
         (s_startMs r) (s_endMs r).

(** Lines 349-353: a row whose counter is truthy gets it appended to
    its name.  [names] is the table [count_names] built from the rows
    of the level, which binds the name of every row but [__proto__];
    for that name [names[name]] is [Object.prototype], and the
    increment leaves no trace. *)
Definition rename (names : list (string * nat)) (r : SRow)
  : SRow * list (string * nat) :=
  let name := name_str (lookup "Name" (s_data r)) in
  match lookup name names with
  | Some (S n) =>
      (with_Name r
         (name ++ " (" ++ NilZero.string_of_uint (Nat.to_uint (S n)) ++ ")")%string,
       Obj.set name (S (S n)) names)
  | Some O => (r, names)
  | None =>
      if String.eqb name "__proto__"
      then (with_Name r (name ++ " ([object Object])")%string, names)
      else (r, names)
  end.

(** [root || row.Name] *)
Definition root_or (root : option string) (r : SRow) : option string :=
  match root with
  | Some n => if truthy n then root else lookup "Name" (s_data r)
  | None => lookup "Name" (s_data r)
  end.

Definition occurrence_of (r : SRow) : Occurrence :=
  mkOccurrence (lookup "type" (s_data r)) (lookup "Name" (s_data r))
               (s_startMs r) (s_endMs r) (row_values r).

(** The body of the loop of lines 348-362 for one row of a sorted level,
    with [getStats(row.details, root || row.Name)] inlined: the row as
    it is left, the counters [names] of its level, what was collected
    and what was logged. *)
Fixpoint visit (profileFilter : option string) (root : option string)
         (r : SRow) (names : list (string * nat)) (c : Collect)
         {struct r}
  : option (SRow * list (string * nat) * Collect * list string) :=
  match r with
  | mkSRow _ _ rdetails _ _ _ _ =>
      let (r1, names1) := rename names r in
      match each_row_duration profileFilter root (s_durations r1) c with
      | None => None
      | Some (c1, log1) =>
          let root' := root_or root r1 in
          match addStat profileFilter (occurrence_of r1) root' c1 with
          | None => None
          | Some (c2, log2) =>
              match rdetails with
              | None => Some (r1, names1, c2, (log1 ++ log2)%list)
              | Some ds =>
                  match
                    (fix each (l : list SRow) (nm : list (string * nat))
                         (acc : Collect) {struct l}
                       : option (list SRow * Collect * list string) :=
                       match l with
                       | [] => Some ([], acc, [])
                       | x :: l' =>
                           match visit profileFilter root' x nm acc with
                           | None => None
                           | Some (x', nm', acc', lg) =>
                               match each l' nm' acc' with
                               | None => None
                               | Some (xs', acc'', lg') =>
                                   Some (x' :: xs', acc'', (lg ++ lg')%list)
                               end
                           end
                       end) ds (count_names ds) c2
                  with
                  | None => None
                  | Some (ds', c3, log3) =>
                      Some (mkSRow (s_data r1) (s_durations r1) (Some ds')
                              (s_startTime r1) (s_endTime r1)
                              (s_startMs r1) (s_endMs r1),
                            names1, c3, (log1 ++ log2 ++ log3)%list)
                  end
              end
          end
      end
  end.

(** [getStats(waterfall.rows)] on the sorted top level; [None] stands
    for an exception. *)
Fixpoint getStats (profileFilter : option string) (rows : list SRow)
         (names : list (string * nat)) (c : Collect)
  : option (list SRow * Collect * list string) :=
  match rows with
  | [] => Some ([], c, [])
  | x :: rows' =>
      match visit profileFilter None x names c with
      | None => None
      | Some (x', names', c', lg) =>
          match getStats profileFilter rows' names' c' with
          | None => None
          | Some (xs', c'', lg') => Some (x' :: xs', c'', (lg ++ lg')%list)
          end
      end
  end.

(** The object [stat] as [statsFilter] reads it (lines 401-404). *)
Definition stat_values (statType : string) (calls : nat) (f : Figures)
  : Values :=
  fun k =>
    if String.eqb k "Name" then JStr statType
    else if String.eqb k "Calls" then JNum (Fin (Z.of_nat calls))
    else if String.eqb k "Total Duration" then JNum (f_total f)
    else if String.eqb k "Avg Duration" then JQuot (f_total f) calls
    else if String.eqb k "Min Duration" then js_value (extreme_value (f_min f))
    else if String.eqb k "Max Duration" then js_value (extreme_value (f_max f))
    else if String.eqb k "summary" then JObject
    else JUndefined.

(** [summarySorter] *)
Definition summarySorter (a b : Summary num) : num :=
  sub (sm_Duration b) (sm_Duration a).

(** Lines 411-421: the figures as text. *)
Definition finish_stat (statType : string) (calls : nat) (f : Figures)
  : Stat :=
  mkStat statType calls
    (msTimeToString (Some (f_total f)))
    (msAvgToString (f_total f) calls)
    (msTimeToString (extreme_value (f_min f)) ++
     annotation statType (extreme_name (f_min f)))
    (msTimeToString (extreme_value (f_max f)) ++
     annotation statType (extreme_name (f_max f)))
    (map (fun sm => mkSummary (sm_Name sm)
                      (msTimeToString (Some (sm_Duration sm))))
         (array_sort summarySorter (f_summary f))).

(** The body of the loop of line 367 for one bucket: what
    [stats[statType]] holds afterwards and what was logged; [None]
    stands for an exception of the filter's substitution. *)
Definition bucket (statsFilter : option string) (statType : string)
           (statArray : list StatValue) : option (Bucket * list string) :=
  let f := figures statArray in
  let calls := length statArray in
  match executeExpression statsFilter (stat_values statType calls f) with
  | None => None
  | Some (v, log) =>
      if is_false v then Some (Raw statArray, log)
      else Some (Finished (finish_stat statType calls f), log)
  end.

(** What [computeStats] returns and leaves behind: the buckets,
    [stats.totalDuration], the rows as it has sorted and renamed them,
    and what the filters logged. *)
Record StatsResult : Type := mkStatsResult {
  sr_buckets : list (string * Bucket);
  sr_totalDuration : string;
  sr_rows : option (list SRow);
  sr_log : list string
}.

Fixpoint each_bucket (statsFilter : option string)
         (stats : list (string * list StatValue))
  : option (list (string * Bucket) * list string) :=
  match stats with
  | [] => Some ([], [])
  | (statType, statArray) :: stats' =>
      match bucket statsFilter statType statArray with
      | None => None
      | Some (b, log1) =>
          match each_bucket statsFilter stats' with
          | None => None
          | Some (bs, log2) => Some ((statType, b) :: bs, (log1 ++ log2)%list)
          end
      end
  end.

(** Line 425 stores a text under [totalDuration]: a bucket of that
    name is gone. *)
Definition without_total (bs : list (string * Bucket))
  : list (string * Bucket) :=
  filter (fun kv => negb (String.eqb (fst kv) "totalDuration")) bs.

(** [Waterfall.computeStats(waterfall, config)]; [units] is
    [waterfall.units], the filters are [config.stats.profileFilter] and
    [config.stats.statsFilter].  [None] stands for an exception. *)
Definition computeStats (units : string)
           (profileFilter statsFilter : option string)
           (rows : option (list Row)) : option StatsResult :=
  let sorted :=
    match rows with
    | None => None
    | Some rs =>
        Some (array_sort by_start (map (sortRows units) rs))
    end in
  match
    match sorted with
    | None => Some (None, mkCollect [] None None, [])
    | Some rs =>
        match getStats profileFilter rs (count_names rs)
                       (mkCollect [] None None) with
        | None => None
        | Some (rs', c, lg) => Some (Some rs', c, lg)
        end
    end
  with
  | None => None
  | Some (rows', c, log1) =>
      match each_bucket statsFilter (c_stats c) with
      | None => None
      | Some (buckets, log2) =>
          Some (mkStatsResult (without_total buckets)
                  (msTimeToString
                     (Some (sub (to_num (c_maxTime c)) (to_num (c_minTime c)))))
                  rows' (log1 ++ log2)%list)
      end
  end.

End Engine.

End Stats.

(* ------------------------------------------------------------------ *)
(** ** The Waterfall instance and its life cycle *)

Module Waterfall.
Import JsString Key Num Obj Prof Reconciler Rows Stats.

(** The configuration object: its [stats] sub-object and its other
    attributes.  [config.headers] is the array held in [headers]. *)
Record Config : Type := mkConfig {
  cfg_stats : option Data;
  cfg_attrs : Data
}.

(** [Y.mix(this.config, config, true, null, 0, true)]: attributes are
    overwritten, the two [stats] objects are merged. *)
Definition mix_config (receiver supplier : Config) : Config :=
  mkConfig
    (match cfg_stats receiver, cfg_stats supplier with
     | Some a, Some b => Some (mix_overwrite a b)
     | None, Some b => Some b
     | a, None => a
     end)
    (mix_overwrite (cfg_attrs receiver) (cfg_attrs supplier)).

(** [config && config.stats && config.stats[name]] *)
Definition stats_option (config : option Config) (name : string)
  : option string :=
  match config with
  | Some c =>
      match cfg_stats c with
      | Some st => lookup name st
      | None => None
      end
  | None => None
  end.

(** The function a method name is bound to on an instance: the one of
    the prototype, the empty function installed by [pause], or the
    closure [disabled] installed by [_disable]. *)
Inductive Fn : Type :=
| Proto
| Noop
| Disabled.

(** The object [getGui] returns. *)
Record Gui : Type := mkGui {
  g_headers : list string;
  g_rows : option (list SRow);
  g_units : string;
  g_events : list EventRec;
  g_summary : string;
  g_stats : list (string * Bucket);
  g_totalDuration : string
}.

(** A Waterfall instance.  [_rootProfile] keeps the tree as
    [_processCalls] built it; [this.stats] is never written after the
    constructor and is left out.  The objects of [events] are the data
    objects of the processed [event] calls of [_calls]: what is written
    into the ones is written into the others. *)
Record Instance : Type := mkInstance {
  config : option Config;
  headers : option (list string);
  events : list EventRec;
  _calls : list Call;
  m_configure : Fn;
  m_start : Fn;
  m_end : Fn;
  m_event : Fn;
  m_clear : Fn;
  m_pause : Fn;
  m_resume : Fn;
  _originalStart : option Fn;
  _originalEnd : option Fn;
  _originalEvent : option Fn;
  waterfall : option Gui;
  _rootProfile : option Profile;
  absoluteStartTime : option rawtime;
  absoluteEndTime : option num
}.

(** [new Waterfall(config)] *)
Definition create (config : option Config) (headers : option (list string))
  : Instance :=
  mkInstance config headers [] [] Proto Proto Proto Proto Proto Proto Proto
             None None None None None None None.

(** A call of one of the seven recording and control methods; the time
    is what [Waterfall._now()] returns during the call. *)
Inductive Invocation : Type :=
| Configure (c : Config)
| DoStart (key : string) (now : rawtime) (data : Data)
| DoEnd (key : string) (now : rawtime) (data : Data)
| DoEvent (name : string) (now : rawtime) (data : option EventRec)
| Clear
| Pause
| Resume.

Definition slot (w : Instance) (inv : Invocation) : Fn :=
  match inv with
  | Configure _ => m_configure w
  | DoStart _ _ _ => m_start w
  | DoEnd _ _ _ => m_end w
  | DoEvent _ _ _ => m_event w
  | Clear => m_clear w
  | Pause => m_pause w
  | Resume => m_resume w
  end.

Definition with_calls (w : Instance) (calls : list Call) : Instance :=
  mkInstance (config w) (headers w) (events w) calls
    (m_configure w) (m_start w) (m_end w) (m_event w) (m_clear w)
    (m_pause w) (m_resume w) (_originalStart w) (_originalEnd w)
    (_originalEvent w) (waterfall w) (_rootProfile w)
    (absoluteStartTime w) (absoluteEndTime w).

Definition or_fn (a : option Fn) (b : Fn) : Fn :=
  match a with Some f => f | None => b end.

(** The bodies of the prototype's methods: the instance afterwards and
    the value returned ([None] for [undefined]). *)
Definition proto (w : Instance) (inv : Invocation)
  : Instance * option rawtime :=
  match inv with
  | Configure c =>
      (mkInstance
         (match config w with
          | Some c0 => Some (mix_config c0 c)
          | None => None
          end)
         (headers w) (events w) (_calls w)
         (m_configure w) (m_start w) (m_end w) (m_event w) (m_clear w)
         (m_pause w) (m_resume w) (_originalStart w) (_originalEnd w)
         (_originalEvent w) (waterfall w) (_rootProfile w)
         (absoluteStartTime w) (absoluteEndTime w), None)
  | DoStart k t d => (with_calls w (_calls w ++ [Start k t d]), Some t)
  | DoEnd k t d => (with_calls w (_calls w ++ [End k t d]), Some t)
  | DoEvent n t d => (with_calls w (_calls w ++ [Event n t d]), Some t)
  | Clear => (with_calls w [], None)
  | Pause =>
      (mkInstance (config w) (headers w) (events w) (_calls w)
         (m_configure w) Noop Noop Noop (m_clear w)
         (m_pause w) (m_resume w)
         (Some (or_fn (_originalStart w) (m_start w)))
         (Some (or_fn (_originalEnd w) (m_end w)))
         (Some (or_fn (_originalEvent w) (m_event w)))
         (waterfall w) (_rootProfile w)
         (absoluteStartTime w) (absoluteEndTime w), None)
  | Resume =>
      (mkInstance (config w) (headers w) (events w) (_calls w)
         (m_configure w)
         (or_fn (_originalStart w) (m_start w))
         (or_fn (_originalEnd w) (m_end w))
         (or_fn (_originalEvent w) (m_event w))
         (m_clear w) (m_pause w) (m_resume w)
         None None None
         (waterfall w) (_rootProfile w)
         (absoluteStartTime w) (absoluteEndTime w), None)
  end.

(** What [disabled] logs: [_error] called without a key. *)
Definition disabled_message : string :=
  error "Cannot continue profiling after the waterfall has been finalized."
        "undefined".

(** [w.method(...)]: the instance afterwards, what was logged, and the
    value returned. *)
Definition call (w : Instance) (inv : Invocation)
  : Instance * list string * option rawtime :=
  match slot w inv with
  | Proto => let (w', r) := proto w inv in (w', [], r)
  | Noop => (w, [], None)
  | Disabled => (w, [disabled_message], None)
  end.


Section Finalize.

(** [typeof window === 'object'] *)
Variable isBrowser : bool.

(** What the statistics depend on and the sources do not define. *)
Variable js_eval : string -> EvalResult.
Variable substitute : string -> Values -> option string.
Variable timeToMs : string -> num.
Variable msTimeToString : value -> string.
Variable msAvgToString : num -> nat -> string.
Variable array_sort : forall A : Type, (A -> A -> num) -> list A -> list A.

(** Lines 615-617: the [Timeline] text, a function of
    [self.absoluteEndTime] through [_timeToMs], [msTimeToString] and the
    global [escape]. *)
Variable timeline : num -> string.








Definition units : string := if isBrowser then "ms" else "ns".


End Finalize.

End Waterfall.

(* ------------------------------------------------------------------ *)
(** ** The shape of a key accepted by the pattern

    Auxiliary definitions for the proofs about keys: a scanner for the
    language of [PROFILE_KEY_REGEX], the way an accepted key is laid out,
    and what it means for a key to be free of stray white space. *)

Module Shape.
Import JsString Regex Key.

Definition is_sep (c : ascii) : bool := Ascii.eqb c "/" || Ascii.eqb c ":".

(** Where the scanner stands: at the start of the key, after a [/]
    where a segment must begin, inside a segment, after the [:] where
    the label must begin, inside the label. *)
Inductive kstate : Type := KInit | KNeed | KSeg | KLabNeed | KLab.

Fixpoint scan (q : kstate) (s : string) : bool :=
  match s with
  | EmptyString => match q with KSeg | KLab => true | _ => false end
  | String c r =>
      match q with
      | KInit =>
          if Ascii.eqb c "/" then scan KNeed r
          else if Ascii.eqb c ":" then false else scan KSeg r
      | KNeed => if is_sep c then false else scan KSeg r
      | KSeg =>
          if Ascii.eqb c "/" then scan KNeed r
          else if Ascii.eqb c ":" then scan KLabNeed r else scan KSeg r
      | KLabNeed => if is_sep c then false else scan KLab r
      | KLab => if is_sep c then false else scan KLab r
      end
  end.

(** [(\/?[^\/:]+)], one group of the first part of the pattern. *)
Definition group : regex := Cat (Opt (Chr "/")) (Plus (Cls not_sep)).

(** A string without separators. *)
Definition sepfree (s : string) : bool :=
  negb (contains "/" s) && negb (contains ":" s).

(** A segment or a label: non-empty, without separators. *)
Definition plain (s : string) : Prop := s <> "" /\ sepfree s = true.

Definition plain_label (lab : option string) : Prop :=
  match lab with Some l => plain l | None => True end.

(** [/s1/s2.../sn] *)
Fixpoint tail_str (segs : list string) : string :=
  match segs with
  | [] => ""
  | s :: segs' => "/" ++ s ++ tail_str segs'
  end.

Definition lab_str (lab : option string) : string :=
  match lab with Some l => ":" ++ l | None => "" end.

(** A key laid out from its parts. *)
Definition render (rooted : bool) (seg : string) (segs : list string)
           (lab : option string) : string :=
  (if rooted then "/" else "") ++ seg ++ tail_str segs ++ lab_str lab.

(** The parts [split('/')] finds in [seg ++ tail_str segs ++ suffix]. *)
Fixpoint attach (seg : string) (segs : list string) (suffix : string)
  : list string :=
  match segs with
  | [] => [(seg ++ suffix)%string]
  | s :: segs' => seg :: attach s segs' suffix
  end.

(** No white space in front, none at the end. *)
Definition head_ok (s : string) : bool :=
  match s with
  | EmptyString => true
  | String c _ => negb (is_ws c)
  end.

Fixpoint last_ok (s : string) : bool :=
  match s with
  | EmptyString => true
  | String c EmptyString => negb (is_ws c)
  | String _ r => last_ok r
  end.



End Shape.

(* ------------------------------------------------------------------ *)
(** ** Vocabulary of the statements *)

Module Props.
Import JsString Key Num Obj Prof Reconciler Rows Stats Waterfall Shape.
Local Open Scope string_scope.

(** A string [trim] leaves as it is. *)
Definition clean (s : string) : Prop := head_ok s = true /\ last_ok s = true.

(** The synthetic root: a chain of the one node [root]. *)
Definition is_root (e : Entry) : Prop :=
  spine e = [] /\ id (focus e) = "root".

(** [stack[0]] is the synthetic root. *)
Definition rooted_stack (st : list Entry) : Prop :=
  exists r above, st = r :: above /\ is_root r.


(** [c] is a [start] or an [end] with the raw key [raw]. *)
Definition malformed (c : Call) (raw : string) : Prop :=
  exists t d, c = Start raw t d \/ c = End raw t d.

(** The result of [_processCalls] had the line [e] been logged after
    the first [n] lines. *)
Definition logged_also (n : nat) (e : string) (r : Result) : Result :=
  mkResult (rootProfile r) (r_events r) (r_origin r)
           (firstn n (r_log r) ++ e :: skipn n (r_log r)).

(** The profile an [end] closes, as it is handed to [add]. *)
Definition closed_profile (profile : Entry) (t : rawtime) (d : Data) : Profile :=
  plug (map_top (fun p => with_closed p true)
                (set (mkSetData None (Some t) d) profile)).

(** The loops of lines 148-152 of [add]: the children of the added
    profile go to [acc], the last occurrence of its id, until a call
    throws. *)
Fixpoint add_each_child (a : list Profile) (acc : Profile) : Profile * bool :=
  match a with
  | [] => (acc, false)
  | c :: a' =>
      let (acc2, threw2) := add_run c acc in
      if threw2 then (acc2, true) else add_each_child a' acc2
  end.

Fixpoint add_each_key (cs : list (string * list Profile)) (acc : Profile)
  : Profile * bool :=
  match cs with
  | [] => (acc, false)
  | (_, arr) :: cs' =>
      let (acc1, threw1) := add_each_child arr acc in
      if threw1 then (acc1, true) else add_each_key cs' acc1
  end.

(** No profile of the tree bears a name that object literals inherit
    from [Object.prototype], and no child array is empty. *)
Fixpoint sound (p : Profile) : bool :=
  match p with
  | mkProfile _ pid _ _ _ pchildren _ _ _ _ =>
      negb (inherited pid) &&
      forallb (fun kv : string * list Profile =>
                 let (_, arr) := kv in
                 match arr with
                 | [] => false
                 | _ :: _ => forallb sound arr
                 end) pchildren
  end.

(** A child array as [sound] wants it. *)
Definition arr_ok (arr : list Profile) : bool :=
  match arr with [] => false | _ :: _ => forallb sound arr end.

(** [add] of the profile to a sound parent returns and leaves the
    parent sound. *)
Definition adds_well (c : Profile) : Prop :=
  forall parent, sound parent = true ->
    add_throws c parent = false /\ sound (add c parent) = true.

(** The segments of the key of a [start] are no names inherited from
    [Object.prototype]. *)
Definition safe_key (raw : string) : bool :=
  match parse (trim raw) with
  | Some pk => forallb (fun i => negb (inherited i)) (profiles pk)
  | None => true
  end.

Definition safe_call (c : Call) : bool :=
  match c with
  | Start raw _ _ => safe_key raw
  | _ => true
  end.

(** Two chains with the same ids and the same children below. *)
Definition same_frame (e e' : Entry) : Prop :=
  map id (spine e') = map id (spine e) /\
  id (focus e') = id (focus e) /\
  children (focus e') = children (focus e).

(** Every profile on the stack is [sound]. *)
Definition sound_stack (st : list Entry) : Prop :=
  Forall (fun e => sound (plug e) = true) st.

(** [startTime] of the last element of a child array, as [add] reads it. *)
Definition last_start (l : list Profile) : option rawtime :=
  match last (map (fun x => Some x) l) None with
  | Some lp => startTime lp
  | None => None
  end.

(** The profile one pair [start(k)], [end(k)] hands to [add]. *)
Definition pair_profile (i : string) (t1 : rawtime) (d1 : Data)
           (t2 : rawtime) (d2 : Data) : Profile :=
  closed_profile
    (set (mkSetData (Some t1) None d1) (newProfile (mkKey [i] None false)))
    t2 d2.

(** One recorded pair: the time and data of [start], then of [end]. *)
Definition Pair : Type := (rawtime * Data * rawtime * Data)%type.

Definition pair_calls (raw : string) (x : Pair) : list Call :=
  let '(t1, d1, t2, d2) := x in [Start raw t1 d1; End raw t2 d2].

(** [start(k)], [end(k)] issued once per element of [ts], in order. *)
Definition repeated (raw : string) (ts : list Pair) : list Call :=
  flat_map (pair_calls raw) ts.

(** The clock gave [start] a truthy time stamp. *)
Definition started (x : Pair) : Prop :=
  let '(t1, _, _, _) := x in truthy_time t1 = true.

(** The child array of [parent] for [i] holds [n] occurrences, the last
    of which has a start time. *)
Definition holds (i : string) (parent : Entry) (n : nat) : Prop :=
  match lookup i (children (focus parent)) with
  | None => n = 0%nat
  | Some arr => length arr = n /\ exists t, last_start arr = Some t
  end.

(** The rows [getGui] builds from a call log (lines 506-608), before
    [computeStats] sorts each level and numbers the names that repeat;
    the statistics pass adds and removes no row and no duration. *)
Definition rows_of (isBrowser : bool) (calls : list Call)
  : option (option (list Row)) :=
  match processCalls calls with
  | Some r =>
      match buildRows isBrowser (r_origin r) (rootProfile r) with
      | Some (rows, _) => Some rows
      | None => None
      end
  | None => None
  end.

(** [start("/r")], [start("/r/a")], [end("/r/a")], [end("/r")]. *)
Definition nested_trace (t0 t5 t10 : rawtime) : list Call :=
  [Start "/r" t0 []; Start "/r/a" t0 []; End "/r/a" t5 []; End "/r" t10 []].

(** The time stamp [t] lies [d] units after the origin [t0]. *)
Definition at_offset (isBrowser : bool) (t0 t : rawtime) (d : Z) : Prop :=
  normalize isBrowser (Some t0) (Some t) = Some (Some (Fin d)).

(** A row without buckets and without children. *)
Definition leaf_row (name : string) (s e : Z) : Row :=
  mkRow [("Name", name)] [("Elapsed Time", Fin (e - s))] None
        (Some (Fin s)) (Some (Fin e)).

(** Row [r] has the one child [a] with a single duration of 5 and
    carries itself a bucket [Other] of 5. *)
Definition other_bucket_of_five (rows : option (option (list Row))) : Prop :=
  exists rs r a label,
    rows = Some (Some rs) /\ In r rs /\
    lookup "Name" (row_data r) = Some "r" /\
    row_details r = Some [a] /\
    lookup "Name" (row_data a) = Some "a" /\
    row_durations a = [(label, Fin 5)] /\
    In ("Other", Fin 5) (row_durations r).

(** [start("a:warm")], [end("a:warm")], [start("a:cold")], [end("a:cold")]. *)
Definition warm_cold (t1 t2 t3 t4 : rawtime) : list Call :=
  [Start "a:warm" t1 []; End "a:warm" t2 []; Start "a:cold" t3 [];
   End "a:cold" t4 []].

Local Open Scope Z_scope.

(** Both times of an occurrence are numbers. *)
Definition finite (o : StatValue) : Prop :=
  exists a b, sv_startTime o = Fin a /\ sv_endTime o = Fin b.

(** [endTime - startTime] of an occurrence whose times are numbers. *)
Definition span (o : StatValue) : Z :=
  match sv_endTime o, sv_startTime o with
  | Fin b, Fin a => b - a
  | _, _ => 0
  end.

Definition total_span (l : list StatValue) : Z :=
  fold_right (fun o acc => span o + acc) 0 l.

(** [f] holds the figures of the occurrences [seen]. *)
Definition summarises (seen : list StatValue) (f : Figures) : Prop :=
  f_total f = Fin (total_span seen) /\
  match seen with
  | [] => f_min f = None /\ f_max f = None
  | _ =>
      (exists o, In o seen /\ f_min f = Some (Fin (span o), sv_root o) /\
                 forall o', In o' seen -> span o <= span o') /\
      (exists o, In o seen /\ f_max f = Some (Fin (span o), sv_root o) /\
                 forall o', In o' seen -> span o' <= span o)
  end.

(** The entry [{Name, Duration}] the summary keeps for an occurrence:
    its name is [statValue.root]. *)
Definition summary_of (o : StatValue) : Summary num :=
  mkSummary (sv_root o) (Fin (span o)).





End Props.

(* ------------------------------------------------------------------ *)
(** ** Concrete logs, states and parameters used by the examples *)

Module Demo.
Import JsString Key Num Obj Prof Reconciler Rows Stats Waterfall Props.
Local Open Scope string_scope.


Definition log_after (calls : list Call) : list string :=
  match run init calls with
  | Some (_, l) => l
  | None => []
  end.




Definition span_x : list Call :=
  [Start "x" (TNum 2) []; End "x" (TNum 3) []].

Definition two_pairs : list Pair :=
  [(TNum 1, [], TNum 2, []); (TNum 3, [], TNum 4, [])].

(** An [eval] that always throws, a substitution that changes nothing,
    and simple stand-ins for the time module and the sort. *)
Definition eval_throws (_ : string) : EvalResult := Throws "SyntaxError".

Definition substitute_none (e : string) (_ : Values) : option string :=
  Some e.


Definition ms_text (v : value) : string := show_value v ++ "ms".

Definition avg_text (total : num) (calls : nat) : string :=
  show_value (Some total) ++ "/" ++ NilZero.string_of_uint (Nat.to_uint calls).

Definition keep_order (A : Type) (_ : A -> A -> num) (l : list A) : list A := l.



Definition two_occurrences : list StatValue :=
  [mkStatValue (Fin 0) (Fin 5) (Some "r");
   mkStatValue (Fin 2) (Fin 4) (Some "a")].







(** A time module that reads the digits a text begins with. *)
Fixpoint digits_prefix (s : string) : string :=
  match s with
  | EmptyString => EmptyString
  | String c r => if is_digit c then String c (digits_prefix r) else EmptyString
  end.

Definition ms_number (s : string) : num :=
  match digits_prefix s with
  | EmptyString => NaN
  | ds =>
      match NilZero.uint_of_string ds with
      | Some u => Fin (Z.of_nat (Nat.of_uint u))
      | None => NaN
      end
  end.

(** The rows of the trace [nested_trace]: [r] with the one row [a]
    below it. *)
Definition nested_rows : list Row :=
  [mkRow [("Name", "r")] [("Elapsed Time", Fin 10)]
         (Some [leaf_row "a" 0 5]) (Some (Fin 0)) (Some (Fin 10))].

End Demo.

(* ------------------------------------------------------------------ *)
(** ** Blank parts of a key *)

Module KeyProps.
Import JsString Regex Key Shape.
Local Open Scope string_scope.

(** A part that [trim] empties: nothing but white space. *)
Definition blank (s : string) : Prop := trim s = "".

Definition nonblank_label (lab : option string) : Prop :=
  match lab with Some l => ~ blank l | None => True end.

End KeyProps.

(* ------------------------------------------------------------------ *)
(** ** What a call log leaves behind *)

Module LogProps.
Import JsString Key Num Obj Prof Reconciler Props.
Local Open Scope string_scope.

(** The events a call log records, in call order. *)
Definition event_records (calls : list Call) : list EventRec :=
  flat_map (fun c =>
              match c with
              | Event name t d => [event_object name t d]
              | _ => []
              end) calls.

(** The time of the first [start] or [event] of a log, whatever its key. *)
Fixpoint first_time (calls : list Call) : option rawtime :=
  match calls with
  | [] => None
  | Start _ t _ :: _ => Some t
  | Event _ t _ :: _ => Some t
  | End _ _ _ :: calls' => first_time calls'
  end.

(** The line the sweep logs for a profile left open. *)
Definition never_ended (e : Entry) : string :=
  error "End was never called." (entry_key e).

(** No profile of the stack is marked closed. *)
Definition all_open (st : list Entry) : Prop :=
  Forall (fun e => closed (top e) = false) st.

(** The profile a recorded pair hands to [add]. *)
Definition profile_of_pair (i : string) (x : Pair) : Profile :=
  let '(t1, d1, t2, d2) := x in pair_profile i t1 d1 t2 d2.

(** The parent after the pairs [ts] for the id [i] were added to it. *)
Definition after_pairs (i : string) (ts : list Pair) (parent : Entry) : Entry :=
  fold_left (fun e x => add_to (profile_of_pair i x) e) ts parent.

(** The clock gave [start] a falsy time stamp, the number 0. *)
Definition unstarted (x : Pair) : Prop :=
  let '(t1, _, _, _) := x in truthy_time t1 = false.

(** The time of the last [end] of the pairs. *)
Definition last_end (ts : list Pair) (dflt : option rawtime)
  : option rawtime :=
  fold_left (fun _ (x : Pair) => Some (snd (fst x))) ts dflt.

End LogProps.

(* ------------------------------------------------------------------ *)
(** ** Buckets and span of a row *)

Module RowProps.
Import JsString Key Num Obj Prof Reconciler Rows.
Local Open Scope string_scope.

(** The sum of the buckets of a row, added up as [totalDuration] is. *)
Definition total (durs : list (string * num)) : num :=
  fold_left (fun acc d => Num.add acc (snd d)) durs (Fin 0).

(** [row.endTime - row.startTime] *)
Definition row_span (r : Row) : num :=
  sub (to_num (row_endTime r)) (to_num (row_startTime r)).

(** The labels of the duration buckets a profile recorded. *)
Definition labels (p : Profile) : list string :=
  map fst (or_empty (durations p)).

Local Open Scope Z_scope.

(** A time stamp of magnitude at most [B]: a whole number of
    milliseconds, or whole seconds and nanoseconds that amount to at
    most [B] nanoseconds. *)
Definition within (B : Z) (t : option rawtime) : Prop :=
  match t with
  | None => True
  | Some (TNum z) => Z.abs z <= B
  | Some (THr s ns) => Z.abs s * 1000000000 + Z.abs ns <= B
  end.

Definition duration_within (B : Z) (d : Duration) : Prop :=
  within B (d_startTime d) /\ within B (d_endTime d).

(** Every time stamp of the tree is within [B]. *)
Fixpoint tree_within (B : Z) (p : Profile) : Prop :=
  match p with
  | mkProfile _ _ _ pdur _ pchildren _ pstart pend _ =>
      within B pstart /\ within B pend /\
      Forall (fun kv : string * Duration => duration_within B (snd kv))
             (or_empty pdur) /\
      (fix each_key (cs : list (string * list Profile)) : Prop :=
         match cs with
         | [] => True
         | (_, arr) :: cs' =>
             (fix each_child (a : list Profile) : Prop :=
                match a with
                | [] => True
                | c :: a' => tree_within B c /\ each_child a'
                end) arr /\ each_key cs'
         end) pchildren
  end.

(** No profile of the tree has more than [n] duration buckets. *)
Fixpoint labels_below (n : nat) (p : Profile) : Prop :=
  match p with
  | mkProfile _ _ _ pdur _ pchildren _ _ _ _ =>
      (length (or_empty pdur) <= n)%nat /\
      (fix each_key (cs : list (string * list Profile)) : Prop :=
         match cs with
         | [] => True
         | (_, arr) :: cs' =>
             (fix each_child (a : list Profile) : Prop :=
                match a with
                | [] => True
                | c :: a' => labels_below n c /\ each_child a'
                end) arr /\ each_key cs'
         end) pchildren
  end.

(** With time stamps within [B], every number [createRows] computes
    for a row with [n] buckets is a whole number below [2^53] in
    magnitude: offsets from the origin are within [2 * B], durations
    and spans within [4 * B], sums of buckets and the bucket [Other]
    within [4 * (n + 1) * B].  On such numbers the arithmetic of
    doubles is that of the integers. *)
Definition exact_for (B : Z) (n : nat) : Prop :=
  8 * (Z.of_nat n + 1) * B <= 2 ^ 53.

End RowProps.

(* ------------------------------------------------------------------ *)
(** ** Rows built from two origins *)

Module OriginProps.
Import JsString Key Num Obj Prof Reconciler Rows.
Local Open Scope string_scope.

(** A row without its two time stamps: its data, its buckets and the
    rows below it. *)
Fixpoint untimed (r : Row) : Row :=
  match r with
  | mkRow rdata rdurs rdetails _ _ =>
      mkRow rdata rdurs
        (match rdetails with
         | None => None
         | Some ds => Some (map untimed ds)
         end)
        None None
  end.

(** Two origins read from the same clock. *)
Definition same_clock (a a' : rawtime) : Prop :=
  match a, a' with
  | TNum _, TNum _ => True
  | THr _ _, THr _ _ => True
  | _, _ => False
  end.

(** How much later the origin [a] is than the origin [a'], in the unit
    of the clock. *)
Definition drift (a a' : rawtime) : Z :=
  match a, a' with
  | TNum x, TNum y => x - y
  | THr s ns, THr s' ns' => (s - s') * 1000000000 + (ns - ns')
  | _, _ => 0
  end.

(** [v'] is [v] moved by [delta]; [undefined] and [NaN] do not move. *)
Definition shifted (delta : Z) (v v' : value) : Prop :=
  match v, v' with
  | None, None => True
  | Some NaN, Some NaN => True
  | Some (Fin x), Some (Fin y) => y = (x + delta)%Z
  | _, _ => False
  end.

(** The loop of lines 559-566 over one child array, the recursive call
    being [rows_of]. *)
Fixpoint each_child_rows (rows_of : Profile -> num -> option (Row * num))
         (a : list Profile) (details : list Row) (pst pen : value)
         (absE : num) : option (list Row * value * value * num) :=
  match a with
  | [] => Some (details, pst, pen, absE)
  | childProfile :: a' =>
      match rows_of childProfile absE with
      | None => None
      | Some (r, absE') =>
          let childRow :=
            mkRow (Obj.set "Name"
                     (get_or "Name" (data childProfile) (type childProfile))
                     (data childProfile))
                  (row_durations r) (row_details r)
                  (row_startTime r) (row_endTime r) in
          each_child_rows rows_of a' (details ++ [childRow])
            (match pst with
             | Some _ => pst
             | None => row_startTime childRow
             end)
            (row_endTime childRow) absE'
      end
  end.

(** The loop of lines 555-571 over [profile.children]. *)
Fixpoint each_key_rows (rows_of : Profile -> num -> option (Row * num))
         (cs : list (string * list Profile)) (acc : ChildAcc)
  : option ChildAcc :=
  match cs with
  | [] => Some acc
  | (_, profileArray) :: cs' =>
      match each_child_rows rows_of profileArray (ca_details acc) None None
                            (ca_absEnd acc) with
      | None => None
      | Some (details, pst, pen, absE) =>
          each_key_rows rows_of cs'
            (mkChildAcc details (widen_min (ca_start acc) pst)
                        (widen_max (ca_end acc) pen) absE)
      end
  end.

(** Two runs of the loops that differ by the origin only. *)
Definition same_rows (delta : Z) (ca ca' : ChildAcc) : Prop :=
  map untimed (ca_details ca) = map untimed (ca_details ca') /\
  shifted delta (ca_start ca) (ca_start ca') /\
  shifted delta (ca_end ca) (ca_end ca').

(** What two runs of [createRows] on one profile share when only the
    origin differs. *)
Definition rows_agree (delta : Z) (f f' : Profile -> num -> option (Row * num))
           (p : Profile) : Prop :=
  forall e e', exists r x r' x',
    f p e = Some (r, x) /\ f' p e' = Some (r', x') /\
    untimed r = untimed r' /\
    shifted delta (row_startTime r) (row_startTime r') /\
    shifted delta (row_endTime r) (row_endTime r').

End OriginProps.

(* ------------------------------------------------------------------ *)
(** ** Sequences of method calls *)

Module LifeProps.
Import JsString Key Num Obj Prof Reconciler Rows Stats Waterfall.
Local Open Scope string_scope.

(** The instance after the method calls [invs], made in this order. *)
Definition after (w : Instance) (invs : list Invocation) : Instance :=
  fold_left (fun w' inv => fst (fst (call w' inv))) invs w.


(** [start], [end] and [event]: the methods [pause] replaces. *)
Definition records (inv : Invocation) : bool :=
  match inv with
  | DoStart _ _ _ | DoEnd _ _ _ | DoEvent _ _ _ => true
  | _ => false
  end.

(** [pause] has saved no method on the instance. *)
Definition not_paused (w : Instance) : Prop :=
  _originalStart w = None /\ _originalEnd w = None /\ _originalEvent w = None.

(** The instance [pause] leaves, whatever the number of calls. *)
Definition paused (w : Instance) : Instance :=
  mkInstance (config w) (headers w) (Waterfall.events w) (_calls w)
    (m_configure w) Noop Noop Noop (m_clear w) (m_pause w) (m_resume w)
    (Some (m_start w)) (Some (m_end w)) (Some (m_event w))
    (waterfall w) (_rootProfile w)
    (Waterfall.absoluteStartTime w) (absoluteEndTime w).

(** What a recording call pushes onto [_calls]. *)
Definition call_of (inv : Invocation) : list Call :=
  match inv with
  | DoStart k t d => [Start k t d]
  | DoEnd k t d => [End k t d]
  | DoEvent n t d => [Event n t d]
  | _ => []
  end.

(** An instance no [getGui] has finalized: the control methods are
    those of the prototype, and so are the recording methods, in place
    or saved by [pause]. *)
Definition live (w : Instance) : Prop :=
  m_configure w = Proto /\ m_clear w = Proto /\
  m_pause w = Proto /\ m_resume w = Proto /\
  or_fn (_originalStart w) (m_start w) = Proto /\
  or_fn (_originalEnd w) (m_end w) = Proto /\
  or_fn (_originalEvent w) (m_event w) = Proto.


End LifeProps.

(* ------------------------------------------------------------------ *)
(** ** Names of the rows of a level *)

Module StatProps.
Import JsString Num Obj Rows Stats.
Local Open Scope string_scope.

(** [row.Name] as a property name. *)
Definition row_name (r : SRow) : string :=
  name_str (lookup "Name" (s_data r)).

(** How many rows of a level bear the name [n]. *)
Definition bearing (n : string) (rows : list SRow) : nat :=
  length (filter (fun r => String.eqb (row_name r) n) rows).

(** The name a row of the level [all] ends with, [pre] being the rows
    before it: its rank among the rows that bear its name when there
    are several, or when the name is one that object literals inherit;
    its own name otherwise.  A row named [__proto__] gets the text of
    [Object.prototype] for a rank. *)
Definition ranked_name (all pre : list SRow) (r : SRow) : option string :=
  if String.eqb (row_name r) "__proto__"
  then Some (row_name r ++ " ([object Object])")
  else if (2 <=? bearing (row_name r) all)%nat || inherited (row_name r)
  then Some (row_name r ++ " (" ++
             NilZero.string_of_uint (Nat.to_uint (S (bearing (row_name r) pre))) ++
             ")")
  else lookup "Name" (s_data r).

Fixpoint ranked (all pre rest : list SRow) : list (option string) :=
  match rest with
  | [] => []
  | r :: rest' => ranked_name all pre r :: ranked all (pre ++ [r]) rest'
  end.

(** The counters [names] once the rows [pre] of the level [all] are
    renamed. *)
Definition counted (all pre : list SRow) (names : list (string * nat)) : Prop :=
  forall n,
    lookup n names =
    if String.eqb n "__proto__" then None
    else
      match bearing n all with
      | O => None
      | S O => if inherited n then Some (S (bearing n pre)) else Some O
      | _ => Some (S (bearing n pre))
      end.

(** The number of occurrences collected so far, all buckets together. *)
Definition collected (c : Collect) : nat :=
  fold_right (fun (kv : string * list StatValue) n => (length (snd kv) + n)%nat)
             0%nat (c_stats c).

(** A bucket of a row that [getStats] hands to [addStat]: every one but
    [Elapsed Time]. *)
Definition counts (d : SDur) : bool :=
  match sd_ms d with Some _ => true | None => false end.

(** What a row contributes: itself, its buckets, and the rows below. *)
Fixpoint weight (r : SRow) : nat :=
  match r with
  | mkSRow _ durs details _ _ _ _ =>
      S (length (filter counts durs) +
         match details with
         | None => 0
         | Some ds =>
             (fix sum (l : list SRow) : nat :=
                match l with
                | [] => 0
                | x :: l' => weight x + sum l'
                end) ds
         end)
  end.

Definition weights (rows : list SRow) : nat :=
  fold_right (fun r n => (weight r + n)%nat) 0%nat rows.

(** Whether a blank occurs in a name. *)
Fixpoint has_blank (s : string) : bool :=
  match s with
  | EmptyString => false
  | String a s' => Ascii.eqb a " "%char || has_blank s'
  end.

(** No [type] attribute and no label of a bucket, in the row or below
    it, is a name that object literals inherit. *)
Fixpoint plain_types (r : SRow) : Prop :=
  match r with
  | mkSRow da durs details _ _ _ _ =>
      (forall t, lookup "type" da = Some t -> inherited t = false) /\
      Forall (fun d => inherited (sd_type d) = false) durs /\
      match details with
      | None => True
      | Some ds =>
          (fix all (l : list SRow) : Prop :=
             match l with
             | [] => True
             | x :: l' => plain_types x /\ all l'
             end) ds
      end
  end.

End StatProps.

(* ------------------------------------------------------------------ *)
(** ** The text table of [Waterfall.getSummary] *)

Module SummaryTable.
Import JsString Num Obj Rows Stats.
Local Open Scope string_scope.

Definition STATS_TYPES : list string :=
  ["Name"; "Calls"; "Total Duration"; "Avg Duration"; "Min Duration";
   "Max Duration"].

(** The line feed. *)
Definition nl : string := String (ascii_of_nat 10) EmptyString.

(** [String(stat[statType])] for the six columns.  A bucket that
    [statsFilter] rejected is still the array of its occurrences, an
    object with none of these properties. *)
Definition cells (b : Bucket) : list string :=
  match b with
  | Finished s =>
      [st_Name s; NilZero.string_of_uint (Nat.to_uint (st_Calls s));
       st_Total s; st_Avg s; st_Min s; st_Max s]
  | Raw _ => map (fun _ => "undefined") STATS_TYPES
  end.

(** The entries of [waterfall.stats] that pass [Y.Lang.isObject]: every
    bucket but the property [totalDuration], which holds a string. *)
Definition objects (buckets : list (string * Bucket))
  : list (string * Bucket) :=
  filter (fun kv => negb (String.eqb (fst kv) "totalDuration")) buckets.

(** Lines 243-245 for one [stat]: [columnWidths], the empty array at
    first, is read and written column by column. *)
Fixpoint widen (types cs : list string) (columnWidths : list nat)
  : list nat :=
  match types, cs with
  | statType :: types', c :: cs' =>
      Nat.max (String.length c)
              (match columnWidths with
               | S w :: _ => S w
               | _ => String.length statType
               end)
      :: widen types' cs' (tl columnWidths)
  | _, _ => []
  end.

Definition columnWidths (stats : list (string * Bucket)) : list nat :=
  fold_left (fun ws kv => widen STATS_TYPES (cells (snd kv)) ws) stats [].

(** [n] copies of [s], appended one by one. *)
Fixpoint fill (s : string) (n : nat) : string :=
  match n with
  | O => ""
  | S n' => s ++ fill s n'
  end.

(** Lines 249-258: [row] for [-], [headerRow] for [=]. *)
Fixpoint rule (s : string) (widths : list nat) : string :=
  match widths with
  | [] => ""
  | width :: widths' => fill s (width + 2) ++ "+" ++ rule s widths'
  end.

(** Lines 262-268 and 277-283: the cells of one line, each padded up to
    the width of its column; no padding where the width is
    [undefined]. *)
Fixpoint line (cs : list string) (widths : list nat) : string :=
  match cs with
  | [] => ""
  | c :: cs' =>
      " " ++ c ++ " " ++ fill " " (hd 0%nat widths - String.length c) ++ "|" ++
      line cs' (tl widths)
  end.

Fixpoint each_stat (stats : list (string * Bucket)) (row : string)
         (widths : list nat) : string :=
  match stats with
  | [] => ""
  | (_, stat) :: stats' =>
      "|" ++ line (cells stat) widths ++ nl ++ row ++ nl ++
      each_stat stats' row widths
  end.

(** [Waterfall.getSummary] on a waterfall whose [stats] are set. *)
Definition getSummary (st : StatsResult) : string :=
  let stats := objects (sr_buckets st) in
  let widths := columnWidths stats in
  let row := "+" ++ rule "-" widths in
  let headerRow := "+" ++ rule "=" widths in
  headerRow ++ nl ++ "|" ++ line STATS_TYPES widths ++ nl ++ headerRow ++ nl ++
  each_stat stats row widths ++
  (if truthy (sr_totalDuration st)
   then "Total Execution Time: " ++ sr_totalDuration st ++ nl
   else "").

(** The lines of the table, top to bottom. *)
Definition table_lines (st : StatsResult) : list string :=
  let stats := objects (sr_buckets st) in
  let widths := columnWidths stats in
  ("+" ++ rule "=" widths) :: ("|" ++ line STATS_TYPES widths) ::
  ("+" ++ rule "=" widths) ::
  flat_map (fun kv => ["|" ++ line (cells (snd kv)) widths;
                       "+" ++ rule "-" widths]) stats.

(** Each line followed by a line feed. *)
Fixpoint unlines (ls : list string) : string :=
  match ls with
  | [] => ""
  | l :: ls' => l ++ nl ++ unlines ls'
  end.

(** The width of a table with these columns. *)
Definition table_width (widths : list nat) : nat :=
  fold_right (fun w acc => (w + 3 + acc)%nat) 1%nat widths.

End SummaryTable.

(* ------------------------------------------------------------------ *)
(** ** The popup of the waterfall table ([Popup.move]) *)

Module Popup.
Local Open Scope Z_scope.

(** What [move] reads from a node: [getX()], [getY()],
    [get("offsetWidth")] and [get("offsetHeight")], in whole pixels. *)
Record Node : Type := mkNode {
  getX : Z;
  getY : Z;
  offsetWidth : Z;
  offsetHeight : Z
}.

(** [this.move(mouseX, mouseY)]: the argument of [popup.setXY]. *)
Definition move (tbody popup : Node) (mouseX mouseY : Z) : Z * Z :=
  let leftLimit := getX tbody in
  let rightLimit := offsetWidth tbody + getX tbody in
  let bottomLimit := offsetHeight tbody + getY tbody in
  let popupWidth := offsetWidth popup in
  let popupHeight := offsetHeight popup in
  let spacing := 10 in
  (Z.min (mouseX + spacing) (Z.max leftLimit (rightLimit - popupWidth)),
   Z.min (mouseY + spacing) (bottomLimit - popupHeight)).

End Popup.

(* ------------------------------------------------------------------ *)
(** ** The calls of the waterfall dispatcher and action context *)

Module Dispatch.
Import JsString Key Num Obj Prof Reconciler.
Local Open Scope string_scope.

(** The calls the dispatcher and the action context make on the
    waterfall while one mojit [name] is dispatched: [dispatch] starts
    [/name] and [Expand Instance], the callback of [expandInstance] ends
    the latter and enters [_createActionContext], the controller calls
    [ac.done] once, and [adapter.done] ends [Render] and [/name].
    [time n] is what [Waterfall._now] returns in the call number [n]. *)
Definition dispatch_calls (name : string) (time : nat -> rawtime)
  : list Call :=
  [Start ("/" ++ name) (time 0%nat) [("profileType", "mojit")];
   Start ("/" ++ name ++ "/Expand Instance") (time 1%nat)
         [("profileType", "mojito")];
   End ("/" ++ name ++ "/Expand Instance") (time 2%nat) [];
   Start ("/" ++ name ++ "/Create Action Context") (time 3%nat)
         [("profileType", "mojito")];
   End ("/" ++ name ++ "/Create Action Context") (time 4%nat) [];
   Start ("/" ++ name ++ "/Controller") (time 5%nat)
         [("profileType", "mojito")];
   End ("/" ++ name ++ "/Controller") (time 6%nat) [];
   Start ("/" ++ name ++ "/Render") (time 7%nat) [("level", "mojito")];
   End ("/" ++ name ++ "/Render") (time 8%nat) [];
   End ("/" ++ name) (time 9%nat) []].

(** The stages of a dispatch, in the order they begin. *)
Definition stages : list string :=
  ["Expand Instance"; "Create Action Context"; "Controller"; "Render"].

(** The profile of a stage once its [start] and [end] are processed. *)
Definition stage_leaf (stage : string) (t1 : rawtime) (d1 : Data)
           (t2 : rawtime) : Profile :=
  set_focus (mkSetData None (Some t2) [])
            (set_focus (mkSetData (Some t1) None d1) (node [stage] None false)).

(** The rows a dispatch leaves under its mojit. *)
Definition stage_rows (time : nat -> rawtime)
  : list (string * list Profile) :=
  [("Expand Instance",
    [stage_leaf "Expand Instance" (time 1%nat) [("profileType", "mojito")]
                (time 2%nat)]);
   ("Create Action Context",
    [stage_leaf "Create Action Context" (time 3%nat)
                [("profileType", "mojito")] (time 4%nat)]);
   ("Controller",
    [stage_leaf "Controller" (time 5%nat) [("profileType", "mojito")]
                (time 6%nat)]);
   ("Render",
    [stage_leaf "Render" (time 7%nat) [("level", "mojito")] (time 8%nat)])].

End Dispatch.

(* ------------------------------------------------------------------ *)
(** ** More concrete inputs used by the examples *)

Module Samples.
Import JsString Key Num Obj Prof Reconciler Rows Stats Waterfall Props Demo.
Import LogProps SummaryTable Popup.
Local Open Scope string_scope.

(** A profile [a] with the bucket [x] from 3 to 5, itself from 2 to 9. *)
Definition timed_profile : Profile :=
  mkProfile (mkKey ["a"] (Some "x") false) "a" "a"
    (Some [("x", mkDuration (Some (TNum 3)) (Some (TNum 5)))]) (Some "x")
    [] [] (Some (TNum 2)) (Some (TNum 9)) true.

(** Its row in a browser, the origin being 1. *)
Definition timed_row : Row :=
  mkRow [] [("x", Fin 2); ("Other", Fin 5)] None (Some (Fin 1)) (Some (Fin 8)).

(** A parent holding one occurrence of [b]. *)
Definition one_child : Profile :=
  with_children (focus rootEntry) [("b", [node ["b"] None false])].




(** An occurrence whose start is not a number. *)
Definition no_start : StatValue := mkStatValue NaN (Fin 1) None.

(** Statistics with one finished bucket. *)
Definition one_bucket : StatsResult :=
  mkStatsResult
    [("a", Finished (mkStat "a" 2 "10ms" "5ms" "4ms" "6ms (b)" []))]
    "10ms" None [].

(** A table body of 100 by 50 pixels and a popup of 20 by 10. *)
Definition table_body : Node := mkNode 0 0 100 50.

Definition small_popup : Node := mkNode 0 0 20 10.

(** A clock that ticks once per call. *)
Definition ticking (n : nat) : rawtime := TNum (Z.of_nat (S n)).

(** Two pairs whose [start] is stamped 0. *)
Definition zero_pairs : list Pair :=
  [(TNum 0, [], TNum 2, []); (TNum 0, [], TNum 4, [])].

(** A configuration that sets one statistics option. *)
Definition filter_config : Config :=
  mkConfig (Some [("profileFilter", "true")]) [].

(** A log that leaves [p] open. *)
Definition open_p : list Call := [Start "p" (TNum 1) []].

(** What [_processCalls] leaves for the log of one pair. *)
Definition span_x_result : Result :=
  match processCalls span_x with
  | Some r => r
  | None => mkResult (focus rootEntry) [] None []
  end.

(** A level of three rows: two named [a], the second with a bucket [x],
    and one named [b] between them. *)
Definition plain_row (name : string) (durs : list SDur) : SRow :=
  mkSRow [("Name", name)] durs None None None (Fin 0) (Fin 0).

Definition three_rows : list SRow :=
  [plain_row "a" []; plain_row "b" [];
   plain_row "a" [mkSDur "x" (Fin 1) (Some (Fin 0, Fin 1))]].

(** What [getStats] makes of them without a filter. *)
Definition three_rows_stats : list SRow * Collect * list string :=
  match getStats eval_throws substitute_none None three_rows
                 (count_names three_rows) (mkCollect [] None None) with
  | Some x => x
  | None => ([], mkCollect [] None None, [])
  end.

End Samples.

(* ------------------------------------------------------------------ *)
(** * Theorems *)

Unset Implicit Arguments.

Module ObjFacts.
Import Obj.
Local Open Scope string_scope.

Lemma lookup_replace_same (V : Type) k (v w : V) o :
  lookup k o = Some w -> lookup k (replace k v o) = Some v.
Proof.
  induction o as [|[k' v'] o IH]; simpl; [discriminate|].
  destruct (String.eqb k' k) eqn:E; simpl; rewrite E; auto.
Qed.

Lemma lookup_insert_same (V : Type) k (v : V) o :
  lookup k o = None -> lookup k (insert k v o) = Some v.
Proof.
  induction o as [|[k' v'] o IH]; simpl.
  - now rewrite String.eqb_refl.
  - destruct (String.eqb k' k) eqn:E; [discriminate|]. intros L.
    destruct (before k k'); simpl.
    + now rewrite String.eqb_refl.
    + rewrite E. auto.
Qed.

Lemma lookup_set_same (V : Type) k (v : V) o : lookup k (Obj.set k v o) = Some v.
Proof.
  unfold Obj.set. destruct (lookup k o) eqn:L.
  - eapply lookup_replace_same; eauto.
  - now apply lookup_insert_same.
Qed.

Lemma lookup_set_other (V : Type) k k' (v : V) o :
  k <> k' -> lookup k (Obj.set k' v o) = lookup k o.
Proof.
  intros Hne. unfold Obj.set. destruct (lookup k' o) as [w|].
  - induction o as [|[k0 v0] o IH]; simpl; [reflexivity|].
    destruct (String.eqb k0 k') eqn:E; simpl.
    + destruct (String.eqb k0 k) eqn:E'; [|reflexivity].
      apply String.eqb_eq in E, E'. congruence.
    + now rewrite IH.
  - induction o as [|[k0 v0] o IH]; simpl.
    + destruct (String.eqb k' k) eqn:E; [|reflexivity].
      apply String.eqb_eq in E. congruence.
    + destruct (before k' k0); simpl.
      * destruct (String.eqb k' k) eqn:E'; [|reflexivity].
        apply String.eqb_eq in E'. congruence.
      * now rewrite IH.
Qed.

Lemma replace_replace (V : Type) k (v w : V) o :
  replace k v (replace k w o) = replace k v o.
Proof.
  induction o as [|[k' v'] o IH]; simpl; [reflexivity|].
  destruct (String.eqb k' k) eqn:E; simpl; rewrite E; [reflexivity|].
  now rewrite IH.
Qed.

Lemma replace_insert (V : Type) k (v w : V) o :
  lookup k o = None -> replace k v (insert k w o) = insert k v o.
Proof.
  induction o as [|[k' v'] o IH]; simpl.
  - now rewrite String.eqb_refl.
  - destruct (String.eqb k' k) eqn:E; [discriminate|]. intros L.
    destruct (before k k'); simpl.
    + now rewrite String.eqb_refl.
    + now rewrite E, IH.
Qed.

Lemma set_empty (V : Type) k (v : V) : Obj.set k v [] = [(k, v)].
Proof. reflexivity. Qed.


Lemma lookup_mix_overwrite (V : Type) k (s : list (string * V)) : forall r,
  NoDup (map fst s) ->
  lookup k (mix_overwrite r s) =
  match lookup k s with
  | Some v => Some v
  | None => lookup k r
  end.
Proof.
  unfold mix_overwrite. induction s as [|[k' v'] s IH]; intros r Hnd;
    cbn [fold_left]; [reflexivity|].
  inversion Hnd as [|? ? Hnin Hnd']; subst. rewrite IH by exact Hnd'.
  cbn [fst snd lookup].
  destruct (String.eqb k' k) eqn:Ek.
  - apply String.eqb_eq in Ek. subst k'.
    assert (Hn : lookup k s = None).
    { clear - Hnin. induction s as [|[k0 v0] s IH]; [reflexivity|].
      cbn in *. destruct (String.eqb k0 k) eqn:E.
      - apply String.eqb_eq in E. subst. elim Hnin. now left.
      - apply IH. intros H. apply Hnin. now right. }
    now rewrite Hn, lookup_set_same.
  - apply String.eqb_neq in Ek.
    rewrite lookup_set_other by congruence. reflexivity.
Qed.

End ObjFacts.

Module KeyFacts.
Import JsString Regex Key Shape Props.
Local Open Scope string_scope.

Lemma app_assoc_s (a b c : string) : (a ++ b) ++ c = a ++ (b ++ c).
Proof. induction a; simpl; congruence. Qed.

Lemma app_empty_r (a : string) : a ++ "" = a.
Proof. induction a; simpl; congruence. Qed.

Lemma nullable_lang r : nullable r = true -> lang r "".
Proof.
  induction r; simpl; intros H; try discriminate.
  - constructor.
  - apply andb_true_iff in H as [H1 H2].
    change "" with ("" ++ ""). constructor; auto.
  - apply orb_true_iff in H as [H|H]; [apply L_alt_l | apply L_alt_r]; auto.
  - constructor.
Qed.

Lemma deriv_lang r : forall c s, lang (deriv c r) s -> lang r (String c s).
Proof.
  induction r; simpl; intros c s H.
  - inversion H.
  - inversion H.
  - destruct (p c) eqn:E; inversion H; subst. now constructor.
  - destruct (nullable r1) eqn:N.
    + inversion H; subst.
      * inversion H3; subst.
        change (String c (s1 ++ s2)) with (String c s1 ++ s2).
        constructor; auto.
      * change (String c s) with ("" ++ String c s).
        constructor; auto using nullable_lang.
    + inversion H; subst.
      change (String c (s1 ++ s2)) with (String c s1 ++ s2).
      constructor; auto.
  - inversion H; subst; [apply L_alt_l | apply L_alt_r]; auto.
  - inversion H; subst.
    change (String c (s1 ++ s2)) with (String c s1 ++ s2).
    constructor; auto.
Qed.

Lemma test_lang : forall s r, test r s = true -> lang r s.
Proof.
  induction s; simpl; intros r H.
  - now apply nullable_lang.
  - now apply deriv_lang, IHs.
Qed.

Lemma not_sep_cases c : not_sep c = true ->
  Ascii.eqb c "/" = false /\ Ascii.eqb c ":" = false /\ is_sep c = false.
Proof.
  unfold not_sep, is_sep. destruct (Ascii.eqb c "/"), (Ascii.eqb c ":"); simpl; intuition congruence.
Qed.

Ltac inv H := inversion H; subst; clear H.

Lemma lang_cls_inv p s : lang (Cls p) s -> exists c, s = String c "" /\ p c = true.
Proof. intros H; inv H; eauto. Qed.

Lemma scan_star_plain s : lang (Star (Cls not_sep)) s ->
  forall rest, scan KSeg (s ++ rest) = scan KSeg rest /\
               scan KLab (s ++ rest) = scan KLab rest.
Proof.
  intros H. remember (Star (Cls not_sep)) as r eqn:E.
  induction H; try discriminate; intros rest.
  - auto.
  - injection E as ->. specialize (IHlang2 eq_refl rest).
    apply lang_cls_inv in H as (c & -> & Hc).
    apply not_sep_cases in Hc as (H1 & H2 & H3).
    simpl. rewrite H1, H2, H3. exact IHlang2.
Qed.

Lemma scan_plus_plain s : lang (Plus (Cls not_sep)) s ->
  forall rest,
    scan KInit (s ++ rest) = scan KSeg rest /\
    scan KNeed (s ++ rest) = scan KSeg rest /\
    scan KSeg (s ++ rest) = scan KSeg rest /\
    scan KLabNeed (s ++ rest) = scan KLab rest.
Proof.
  intros H rest. unfold Plus in H. inv H.
  apply lang_cls_inv in H2 as (c & -> & Hc).
  apply not_sep_cases in Hc as (H1 & H2 & H3).
  destruct (scan_star_plain _ H4 rest) as [A B].
  simpl. rewrite H1, H2, H3. auto.
Qed.

Lemma lang_chr_inv c s : lang (Chr c) s -> s = String c "".
Proof.
  intros H. apply lang_cls_inv in H as (d & -> & Hd).
  apply Ascii.eqb_eq in Hd. now subst.
Qed.

Ltac lang_step :=
  match goal with
  | H : lang (Cat _ _) _ |- _ => inv H
  | H : lang (Alt _ _) _ |- _ => inv H
  | H : lang Eps _ |- _ => inv H
  | H : lang (Chr _) _ |- _ => apply lang_chr_inv in H; subst
  end.


Lemma scan_group s : lang group s ->
  forall rest, scan KInit (s ++ rest) = scan KSeg rest /\
               scan KSeg (s ++ rest) = scan KSeg rest.
Proof.
  intros H rest. unfold group, Opt in H. lang_step.
  match goal with H : lang (Plus _) _ |- _ =>
    destruct (scan_plus_plain _ H rest) as (A & B & C & D) end.
  repeat lang_step; simpl; auto.
Qed.

Lemma scan_star_group s : lang (Star group) s ->
  forall rest, scan KSeg (s ++ rest) = scan KSeg rest.
Proof.
  intros H. remember (Star group) as r eqn:E.
  induction H; try discriminate; intros rest; auto.
  injection E as ->. rewrite app_assoc_s.
  destruct (scan_group _ H (s2 ++ rest)) as [_ ->]. auto.
Qed.

Lemma scan_star_slash s :
  lang (Star (Cat (Chr "/") (Plus (Cls not_sep)))) s ->
  forall rest, scan KSeg (s ++ rest) = scan KSeg rest.
Proof.
  intros H. remember (Star (Cat (Chr "/") (Plus (Cls not_sep)))) as r eqn:E.
  induction H; try discriminate; intros rest; auto.
  injection E as ->. rewrite app_assoc_s.
  lang_step. lang_step. rewrite app_assoc_s.
  match goal with H : lang (Plus _) _ |- _ =>
    destruct (scan_plus_plain _ H (s2 ++ rest)) as (A & B & C & D) end.
  simpl. rewrite B. auto.
Qed.

Lemma scan_label s :
  lang (Opt (Cat (Chr ":") (Plus (Cls not_sep)))) s -> scan KSeg s = true.
Proof.
  intros H. unfold Opt in H. lang_step.
  - lang_step. lang_step.
    match goal with H : lang (Plus _) _ |- _ =>
      destruct (scan_plus_plain _ H "") as (A & B & C & D) end.
    simpl. rewrite app_empty_r in D. rewrite D. reflexivity.
  - lang_step. reflexivity.
Qed.

Lemma regex_scan k : Regex.test PROFILE_KEY_REGEX k = true -> scan KInit k = true.
Proof.
  intros H. apply test_lang in H. unfold PROFILE_KEY_REGEX in H.
  fold group in H. lang_step. lang_step.
  match goal with H : lang (Plus group) _ |- _ => unfold Plus in H; inv H end.
  match goal with H : lang (Opt _) ?x |- _ => rename x into lab end.
  rewrite !app_assoc_s.
  match goal with
  | H1 : lang group ?a, H2 : lang (Star group) ?b,
    H3 : lang (Star (Cat _ _)) ?c |- _ =>
      destruct (scan_group _ H1 (b ++ c ++ lab)) as [-> _];
      rewrite (scan_star_group _ H2), (scan_star_slash _ H3)
  end.
  now apply scan_label.
Qed.

Lemma is_sep_split c : is_sep c = false ->
  Ascii.eqb c "/" = false /\ Ascii.eqb c ":" = false.
Proof. unfold is_sep. destruct (Ascii.eqb c "/"), (Ascii.eqb c ":"); simpl; intuition congruence. Qed.

Lemma sepfree_cons c s : is_sep c = false -> sepfree s = true -> sepfree (String c s) = true.
Proof.
  intros Hc Hs. apply is_sep_split in Hc as [A B].
  unfold sepfree in *. simpl. rewrite A, B. exact Hs.
Qed.

Lemma scan_lab s : scan KLab s = true -> sepfree s = true.
Proof.
  induction s as [|c s IH]; simpl; intros H; [reflexivity|].
  destruct (is_sep c) eqn:E; [discriminate|]. apply sepfree_cons; auto.
Qed.

Lemma scan_labneed s : scan KLabNeed s = true -> plain s.
Proof.
  destruct s as [|c s]; simpl; intros H; [discriminate|].
  destruct (is_sep c) eqn:E; [discriminate|].
  split; [discriminate|]. apply sepfree_cons; auto using scan_lab.
Qed.

Lemma scan_shape s :
  (scan KNeed s = true ->
   exists seg segs lab, plain seg /\ Forall plain segs /\ plain_label lab /\
     s = seg ++ tail_str segs ++ lab_str lab) /\
  (scan KSeg s = true ->
   exists cur segs lab, sepfree cur = true /\ Forall plain segs /\
     plain_label lab /\ s = cur ++ tail_str segs ++ lab_str lab).
Proof.
  induction s as [|c s [IHn IHs]]; split; simpl; intros H.
  - discriminate.
  - exists "", [], None. repeat split; auto.
  - destruct (is_sep c) eqn:E; [discriminate|].
    destruct (IHs H) as (cur & segs & lab & Hc & Hs & Hl & ->).
    exists (String c cur), segs, lab. repeat split; auto.
    + discriminate.
    + apply sepfree_cons; auto.
  - destruct (Ascii.eqb c "/") eqn:E1.
    + apply Ascii.eqb_eq in E1 as ->.
      destruct (IHn H) as (seg & segs & lab & Hc & Hs & Hl & ->).
      exists "", (seg :: segs), lab. repeat split; auto.
      simpl. now rewrite app_assoc_s.
    + destruct (Ascii.eqb c ":") eqn:E2.
      * apply Ascii.eqb_eq in E2 as ->. apply scan_labneed in H as [? ?].
        exists "", [], (Some s). repeat split; auto.
      * destruct (IHs H) as (cur & segs & lab & Hc & Hs & Hl & ->).
        exists (String c cur), segs, lab. repeat split; auto.
        apply sepfree_cons; auto. unfold is_sep. now rewrite E1, E2.
Qed.

Lemma scan_init_shape k : scan KInit k = true ->
  exists rooted seg segs lab, plain seg /\ Forall plain segs /\
    plain_label lab /\ k = render rooted seg segs lab.
Proof.
  destruct k as [|c k]; simpl; intros H; [discriminate|].
  destruct (Ascii.eqb c "/") eqn:E1.
  - apply Ascii.eqb_eq in E1 as ->.
    destruct (proj1 (scan_shape k) H) as (seg & segs & lab & Hc & Hs & Hl & ->).
    exists true, seg, segs, lab. repeat split; auto; apply Hc.
  - destruct (Ascii.eqb c ":") eqn:E2; [discriminate|].
    destruct (proj2 (scan_shape k) H) as (cur & segs & lab & Hc & Hs & Hl & ->).
    exists false, (String c cur), segs, lab. repeat split; auto.
    + discriminate.
    + apply sepfree_cons; auto. unfold is_sep. now rewrite E1, E2.
Qed.

Lemma contains_app c a b : contains c (a ++ b) = contains c a || contains c b.
Proof. induction a; simpl; [reflexivity|]. rewrite IHa. now rewrite orb_assoc. Qed.

Lemma split_nonempty sep s : split sep s <> [].
Proof.
  induction s as [|c s IH]; simpl; [discriminate|].
  destruct (Ascii.eqb c sep); [discriminate|].
  destruct (split sep s); [contradiction|discriminate].
Qed.

Lemma split_free sep s : contains sep s = false -> split sep s = [s].
Proof.
  induction s as [|c s IH]; simpl; [reflexivity|].
  intros H. apply orb_false_iff in H as [A B]. rewrite A, (IH B). reflexivity.
Qed.

Lemma split_free_app sep a r :
  contains sep a = false -> split sep (a ++ String sep r) = a :: split sep r.
Proof.
  induction a as [|c a IH]; simpl; intros H.
  - now rewrite Ascii.eqb_refl.
  - apply orb_false_iff in H as [A B]. rewrite A, (IH B). reflexivity.
Qed.

Lemma sepfree_slash s : sepfree s = true -> contains "/" s = false.
Proof. unfold sepfree. intros H. apply andb_true_iff in H as [A _]. now apply negb_true_iff in A. Qed.

Lemma sepfree_colon s : sepfree s = true -> contains ":" s = false.
Proof. unfold sepfree. intros H. apply andb_true_iff in H as [_ A]. now apply negb_true_iff in A. Qed.

Lemma split_attach segs : forall seg suffix,
  contains "/" seg = false ->
  Forall (fun x => contains "/" x = false) segs ->
  contains "/" suffix = false ->
  split "/" (seg ++ tail_str segs ++ suffix) = attach seg segs suffix.
Proof.
  induction segs as [|s segs IH]; simpl; intros seg suffix Hs Hall Hx.
  - apply split_free. rewrite contains_app, Hs, Hx. reflexivity.
  - inversion Hall; subst.
    change (seg ++ String "/" (s ++ tail_str segs) ++ suffix)
      with (seg ++ String "/" ((s ++ tail_str segs) ++ suffix)).
    rewrite split_free_app by assumption.
    rewrite app_assoc_s. f_equal. apply IH; assumption.
Qed.

Lemma lab_str_slash lab : plain_label lab -> contains "/" (lab_str lab) = false.
Proof.
  destruct lab as [l|]; simpl; [|reflexivity].
  intros [_ H]. now apply sepfree_slash.
Qed.

Lemma trim_left_clean s : head_ok s = true -> trim_left s = s.
Proof. destruct s as [|c s]; simpl; [reflexivity|]. intros H. apply negb_true_iff in H. now rewrite H. Qed.

Lemma trim_right_clean s : last_ok s = true -> trim_right s = s.
Proof.
  induction s as [|c s IH]; [reflexivity|].
  destruct s as [|d s].
  - simpl. intros H. apply negb_true_iff in H. now rewrite H.
  - intros H. change (last_ok (String d s) = true) in H.
    specialize (IH H). cbn [trim_right] in *. rewrite IH. reflexivity.
Qed.

Lemma trim_clean s : head_ok s = true -> last_ok s = true -> trim s = s.
Proof. intros A B. unfold trim. rewrite trim_left_clean by assumption. now apply trim_right_clean. Qed.


Lemma last_ok_app a b : b <> "" -> last_ok (a ++ b) = last_ok b.
Proof.
  intros Hb. induction a as [|c a IH]; [reflexivity|].
  simpl. destruct (a ++ b) eqn:E.
  - destruct a; simpl in E; [congruence|discriminate].
  - exact IH.
Qed.





Lemma plain_nonempty s : plain s -> s <> "".
Proof. now intros [H _]. Qed.

Lemma lab_str_nonempty_or lab : lab_str lab = "" \/ exists l, lab = Some l.
Proof. destruct lab; eauto. Qed.


Lemma truthy_iff s : truthy s = true <-> s <> "".
Proof. destruct s; simpl; split; congruence. Qed.


Lemma attach_last segs : forall seg suffix,
  last (attach seg segs suffix) "" = last (seg :: segs) "" ++ suffix.
Proof.
  induction segs as [|s segs IH]; intros seg suffix; [reflexivity|].
  change (attach seg (s :: segs) suffix) with (seg :: attach s segs suffix).
  change (last (seg :: s :: segs) "") with (last (s :: segs) "").
  rewrite <- IH. simpl. destruct (attach s segs suffix) eqn:E; [|reflexivity].
  destruct segs; discriminate.
Qed.


Lemma attach_nonempty seg segs suffix : attach seg segs suffix <> [].
Proof. destruct segs; discriminate. Qed.


Lemma join_tail segs : forall seg, join "/" (seg :: segs) = seg ++ tail_str segs.
Proof.
  induction segs as [|s segs IH]; intros seg.
  - simpl. now rewrite app_empty_r.
  - change (join "/" (seg :: s :: segs)) with (seg ++ "/" ++ join "/" (s :: segs)).
    rewrite IH. reflexivity.
Qed.


Lemma last_in (l : list string) x : last (x :: l) "" = x \/ In (last (x :: l) "") l.
Proof.
  revert x. induction l as [|y l IH]; intros x; [now left|].
  right. change (last (x :: y :: l) "") with (last (y :: l) "").
  destruct (IH y); [left; congruence | now right].
Qed.

Lemma last_forall (P : string -> Prop) l x : Forall P (x :: l) -> P (last (x :: l) "").
Proof.
  intros H. destruct (last_in l x) as [->|Hin].
  - now inversion H.
  - inversion H; subst. rewrite Forall_forall in H3. auto.
Qed.

Lemma parse_parts k ps :
  filter truthy (map trim (split "/" k)) = ps -> ps <> [] ->
  parse k =
  Some (if contains ":" (last ps "")
        then mkKey (set_last ps (trim (nth 0 (split ":" (last ps "")) "")))
                   (Some (trim (nth 1 (split ":" (last ps "")) "")))
                   (starts_with "/" k)
        else mkKey ps None (starts_with "/" k)).
Proof.
  intros E Hne. unfold parse. rewrite E.
  destruct ps as [|p ps]; [congruence|].
  destruct (contains ":" (last (p :: ps) "")); reflexivity.
Qed.

Lemma plain_head seg : plain seg -> starts_with "/" seg = false.
Proof.
  intros [Hne Hs]. destruct seg as [|c s]; [reflexivity|].
  apply sepfree_slash in Hs. simpl in Hs. apply orb_false_iff in Hs as [A _].
  exact A.
Qed.

Lemma Forall_plain_slash segs :
  Forall plain segs -> Forall (fun x => contains "/" x = false) segs.
Proof. induction 1 as [|x l [_ H] _ IH]; constructor; auto using sepfree_slash. Qed.




Lemma toString_render rooted seg segs lab :
  plain_label lab ->
  toString (mkKey (seg :: segs) lab rooted) = render rooted seg segs lab.
Proof.
  intros Hlab. unfold toString, render.
  cbn [root profiles duration]. rewrite join_tail.
  assert (E : match duration_label lab with Some l => ":" ++ l | None => "" end = lab_str lab).
  { destruct lab as [l|]; [|reflexivity]. simpl.
    destruct Hlab as [Hne _]. destruct l; [congruence|reflexivity]. }
  rewrite E. now rewrite app_assoc_s.
Qed.


Lemma trim_right_last_ok s : last_ok (trim_right s) = true.
Proof.
  induction s as [|c s IH]; [reflexivity|].
  cbn [trim_right]. destruct (trim_right s) as [|d r] eqn:E.
  - destruct (is_ws c) eqn:W; [reflexivity|]. simpl. now rewrite W.
  - exact IH.
Qed.

Lemma trim_left_head_ok s : head_ok (trim_left s) = true.
Proof.
  induction s as [|c s IH]; [reflexivity|].
  simpl. destruct (is_ws c) eqn:W; [exact IH|]. simpl. now rewrite W.
Qed.

Lemma trim_right_head_ok s : head_ok s = true -> head_ok (trim_right s) = true.
Proof.
  destruct s as [|c s]; [reflexivity|]. intros H.
  cbn [trim_right]. destruct (trim_right s).
  - simpl in H. apply negb_true_iff in H. rewrite H. exact (eq_trans (f_equal negb H) eq_refl).
  - exact H.
Qed.

Lemma trim_head_ok s : head_ok (trim s) = true.
Proof. apply trim_right_head_ok, trim_left_head_ok. Qed.

Lemma trim_last_ok s : last_ok (trim s) = true.
Proof. apply trim_right_last_ok. Qed.

Lemma trim_idem s : trim (trim s) = trim s.
Proof. apply trim_clean; [apply trim_head_ok | apply trim_last_ok]. Qed.

Lemma trim_left_nonempty s : s <> "" -> last_ok s = true ->
  trim_left s <> "" /\ last_ok (trim_left s) = true.
Proof.
  induction s as [|c s IH]; intros Hne Hl; [congruence|].
  simpl. destruct (is_ws c) eqn:W.
  - destruct s as [|d s].
    + simpl in Hl. rewrite W in Hl. discriminate.
    + apply IH; [discriminate | exact Hl].
  - split; [discriminate | exact Hl].
Qed.

Lemma trim_nonempty s : s <> "" -> last_ok s = true -> trim s <> "".
Proof.
  intros Hne Hl. destruct (trim_left_nonempty s Hne Hl) as [A B].
  unfold trim. now rewrite trim_right_clean.
Qed.

Lemma contains_trim_left c s : contains c s = false -> contains c (trim_left s) = false.
Proof.
  induction s as [|d s IH]; [reflexivity|]. intros H.
  simpl. destruct (is_ws d); [|exact H].
  simpl in H. apply orb_false_iff in H as [_ H]. auto.
Qed.

Lemma contains_trim_right c s : contains c s = false -> contains c (trim_right s) = false.
Proof.
  induction s as [|d s IH]; [reflexivity|]. intros H.
  simpl in H. apply orb_false_iff in H as [A B]. specialize (IH B).
  cbn [trim_right]. destruct (trim_right s).
  - destruct (is_ws d); [reflexivity|]. simpl. now rewrite A.
  - simpl. simpl in IH. now rewrite A, IH.
Qed.

Lemma contains_trim c s : contains c s = false -> contains c (trim s) = false.
Proof. intros H. apply contains_trim_right, contains_trim_left, H. Qed.

Lemma rooted_trim raw : starts_with "/" raw = true -> starts_with "/" (trim raw) = true.
Proof.
  destruct raw as [|c r]; [discriminate|]. simpl. intros H.
  apply Ascii.eqb_eq in H as ->. unfold trim. cbn [trim_left is_ws nat_of_ascii].
  change (is_ws "/") with false. cbn iota.
  cbn [trim_right]. destruct (trim_right r); reflexivity.
Qed.

Lemma body_suffix segs : forall seg suffix,
  exists front, seg ++ tail_str segs ++ suffix = front ++ last (seg :: segs) "" ++ suffix.
Proof.
  induction segs as [|s segs IH]; intros seg suffix.
  - exists "". reflexivity.
  - destruct (IH s suffix) as [front E].
    exists (seg ++ String "/" front).
    change (last (seg :: s :: segs) "") with (last (s :: segs) "").
    change (tail_str (s :: segs)) with (String "/" (s ++ tail_str segs)).
    rewrite (app_assoc_s seg).
    change (String "/" front ++ last (s :: segs) "" ++ suffix)
      with (String "/" (front ++ last (s :: segs) "" ++ suffix)).
    change (String "/" (s ++ tail_str segs) ++ suffix)
      with (String "/" ((s ++ tail_str segs) ++ suffix)).
    rewrite app_assoc_s, E. reflexivity.
Qed.

Lemma filter_trim_nonempty l x :
  In x l -> trim x <> "" -> filter truthy (map trim l) <> [].
Proof.
  intros Hin Hx E.
  assert (In (trim x) (filter truthy (map trim l))).
  { apply filter_In. split; [now apply in_map | now apply truthy_iff]. }
  rewrite E in H. contradiction.
Qed.

Lemma last_In (l : list string) : l <> [] -> In (last l "") l.
Proof.
  destruct l as [|x l]; [congruence|]. intros _.
  destruct (last_in l x) as [->|H]; [now left | now right].
Qed.

(** A key that passes the check of line 662 always parses. *)
Lemma valid_parses raw : valid raw = true -> exists pk, parse (trim raw) = Some pk.
Proof.
  unfold valid. intros H. apply andb_true_iff in H as [Hne Hre].
  apply truthy_iff in Hne.
  assert (Hl := trim_last_ok raw).
  set (k := trim raw) in *.
  apply regex_scan, scan_init_shape in Hre
    as (rooted & seg & segs & lab & A & B & C & E).
  assert (Hps : filter truthy (map trim (split "/" k)) <> []).
  { assert (Hx : trim (last (seg :: segs) "" ++ lab_str lab) <> "").
    { apply trim_nonempty.
      - pose proof (last_forall plain segs seg (Forall_cons _ A B)) as [P _].
        destruct (last (seg :: segs) ""); [congruence|discriminate].
      - destruct (body_suffix segs seg (lab_str lab)) as [front Ef].
        rewrite E in Hl. unfold render in Hl. rewrite Ef in Hl.
        rewrite <- app_assoc_s in Hl.
        rewrite last_ok_app in Hl; [exact Hl|].
        pose proof (last_forall plain segs seg (Forall_cons _ A B)) as [P _].
        destruct (last (seg :: segs) ""); [congruence|discriminate]. }
    apply (filter_trim_nonempty _ (last (seg :: segs) "" ++ lab_str lab)); [|exact Hx].
    rewrite E. unfold render.
    assert (Hs : split "/" (seg ++ tail_str segs ++ lab_str lab) = attach seg segs (lab_str lab)).
    { apply split_attach; auto using Forall_plain_slash, lab_str_slash.
      apply sepfree_slash, A. }
    rewrite <- attach_last.
    destruct rooted.
    - change ("/" ++ seg ++ tail_str segs ++ lab_str lab)
        with (String "/" (seg ++ tail_str segs ++ lab_str lab)).
      simpl split. rewrite Hs. right. apply last_In, attach_nonempty.
    - simpl. rewrite Hs. apply last_In, attach_nonempty. }
  rewrite (parse_parts _ _ eq_refl Hps). eauto.
Qed.

Lemma append_nil_inv (a b : string) : a ++ b = "" -> a = "" /\ b = "".
Proof. destruct a; simpl; [auto|discriminate]. Qed.

Lemma lang_nullable r s : lang r s -> s = "" -> nullable r = true.
Proof.
  induction 1; intros E; simpl; try reflexivity; try discriminate.
  - apply append_nil_inv in E as [-> ->]. now rewrite IHlang1, IHlang2.
  - now rewrite IHlang.
  - rewrite IHlang by assumption. apply orb_true_r.
Qed.

Lemma lang_deriv r s0 : lang r s0 ->
  forall c s, s0 = String c s -> lang (deriv c r) s.
Proof.
  induction 1; intros a s' E; simpl; try discriminate.
  - injection E as -> <-. rewrite H. constructor.
  - destruct s1 as [|b s1'].
    + simpl in E. subst s2.
      rewrite (lang_nullable _ _ H eq_refl).
      apply L_alt_r. now apply IHlang2.
    + simpl in E. injection E as -> <-.
      assert (Hc : lang (Cat (deriv a r1) r2) (s1' ++ s2))
        by (constructor; auto).
      destruct (nullable r1); [now apply L_alt_l | exact Hc].
  - apply L_alt_l. now apply IHlang.
  - apply L_alt_r. now apply IHlang.
  - destruct s1 as [|b s1'].
    + simpl in E. subst s2. now apply IHlang2.
    + simpl in E. injection E as -> <-.
      constructor; auto.
Qed.

(** [test] decides the language of the pattern. *)
Lemma lang_test : forall s r, lang r s -> test r s = true.
Proof.
  induction s as [|c s IH]; intros r H; simpl.
  - now apply (lang_nullable r "").
  - apply IH. now apply (lang_deriv r (String c s)).
Qed.

Lemma test_iff_lang r s : test r s = true <-> lang r s.
Proof. split; [apply test_lang | apply lang_test]. Qed.

Lemma sepfree_cons_inv c s : sepfree (String c s) = true ->
  not_sep c = true /\ sepfree s = true.
Proof.
  unfold sepfree, not_sep. simpl.
  destruct (Ascii.eqb c "/"), (Ascii.eqb c ":"); simpl; auto; try discriminate.
  all: intros H; try discriminate H.
  all: destruct (contains "/" s); simpl in *; discriminate || auto.
Qed.

Lemma sepfree_star s : sepfree s = true -> lang (Star (Cls not_sep)) s.
Proof.
  induction s as [|c s IH]; intros H; [constructor|].
  apply sepfree_cons_inv in H as [Hc Hs].
  change (String c s) with (String c "" ++ s).
  constructor; [now constructor | auto].
Qed.

Lemma plain_plus s : plain s -> lang (Plus (Cls not_sep)) s.
Proof.
  intros [Hne H]. destruct s as [|c s]; [congruence|].
  apply sepfree_cons_inv in H as [Hc Hs].
  change (String c s) with (String c "" ++ s).
  constructor; [now constructor | now apply sepfree_star].
Qed.

Lemma lang_chr c : lang (Chr c) (String c "").
Proof. constructor. apply Ascii.eqb_refl. Qed.

Lemma tail_star segs : Forall plain segs ->
  lang (Star (Cat (Chr "/") (Plus (Cls not_sep)))) (tail_str segs).
Proof.
  induction 1 as [|s segs Hs _ IH]; [constructor|].
  change (tail_str (s :: segs)) with (String "/" (s ++ tail_str segs)).
  change (String "/" (s ++ tail_str segs))
    with (String "/" "" ++ (s ++ tail_str segs)).
  rewrite <- app_assoc_s.
  constructor; [|exact IH].
  constructor; [apply lang_chr | now apply plain_plus].
Qed.

Lemma render_lang rooted seg segs lab :
  plain seg -> Forall plain segs -> plain_label lab ->
  lang PROFILE_KEY_REGEX (render rooted seg segs lab).
Proof.
  intros Hseg Hsegs Hlab. unfold PROFILE_KEY_REGEX, render.
  rewrite <- app_assoc_s.
  constructor; [|constructor].
  - unfold Plus. rewrite <- (app_empty_r (_ ++ seg)).
    constructor; [|constructor].
    constructor; [|now apply plain_plus].
    destruct rooted; [apply L_alt_l, lang_chr | apply L_alt_r; constructor].
  - now apply tail_star.
  - destruct lab as [l|]; [apply L_alt_l | apply L_alt_r; constructor].
    change (lab_str (Some l)) with (String ":" "" ++ l).
    constructor; [apply lang_chr | now apply plain_plus].
Qed.

(** The pattern accepts exactly the keys the scanner accepts. *)
Lemma regex_is_scan k : Regex.test PROFILE_KEY_REGEX k = scan KInit k.
Proof.
  destruct (scan KInit k) eqn:E.
  - apply scan_init_shape in E as (rooted & seg & segs & lab & A & B & C & ->).
    now apply lang_test, render_lang.
  - destruct (Regex.test PROFILE_KEY_REGEX k) eqn:T; [|reflexivity].
    apply regex_scan in T. congruence.
Qed.

End KeyFacts.

Module ProfFacts.
Import JsString Key Num Obj Prof Props ObjFacts.
Local Open Scope string_scope.
Local Open Scope list_scope.

(** Induction over a profile tree: the property holds of a profile as
    soon as it holds of every profile of every child array. *)
Lemma Profile_tree_ind (P : Profile -> Prop)
  (H : forall k i ty du cd ch da st en cl,
      Forall (fun kv : string * list Profile => Forall P (snd kv)) ch ->
      P (mkProfile k i ty du cd ch da st en cl)) :
  forall p, P p.
Proof.
  exact (fix go (p : Profile) : P p :=
    match p with
    | mkProfile k i ty du cd ch da st en cl =>
        H k i ty du cd ch da st en cl
          ((fix go_k (cs : list (string * list Profile))
              : Forall (fun kv : string * list Profile => Forall P (snd kv)) cs :=
              match cs with
              | [] => Forall_nil _
              | kv :: cs' =>
                  Forall_cons kv
                    ((fix go_a (a : list Profile) : Forall P a :=
                        match a with
                        | [] => Forall_nil _
                        | c :: a' => Forall_cons c (go c) (go_a a')
                        end) (snd kv))
                    (go_k cs')
              end) ch)
    end).
Qed.

Lemma map_last_length f l : length (map_last f l) = length l.
Proof.
  induction l as [|x [|y l] IH]; [reflexivity|reflexivity|].
  change (map_last f (x :: y :: l)) with (x :: map_last f (y :: l)).
  cbn [length] in *. now rewrite IH.
Qed.

Lemma map_last_snoc f l x : map_last f (l ++ [x])%list = (l ++ [f x])%list.
Proof.
  induction l as [|y l IH]; [reflexivity|].
  cbn [app]. rewrite <- IH. destruct (l ++ [x])%list eqn:E.
  - now destruct l.
  - reflexivity.
Qed.

Lemma each_child_fix a : forall acc,
  (fix each_child (a : list Profile) (acc' : Profile) {struct a}
     : Profile * bool :=
     match a with
     | [] => (acc', false)
     | c :: a' =>
         let (acc2, threw2) := add_run c acc' in
         if threw2 then (acc2, true) else each_child a' acc2
     end) a acc = add_each_child a acc.
Proof.
  induction a as [|c a IH]; intros acc; [reflexivity|].
  cbn [add_each_child]. destruct (add_run c acc) as [x []]; [reflexivity|].
  apply IH.
Qed.

Lemma each_key_fix cs : forall acc,
  (fix each_key (cs : list (string * list Profile)) (acc : Profile)
       {struct cs} : Profile * bool :=
     match cs with
     | [] => (acc, false)
     | (_, arr) :: cs' =>
         let (acc1, threw1) :=
           (fix each_child (a : list Profile) (acc' : Profile) {struct a}
              : Profile * bool :=
              match a with
              | [] => (acc', false)
              | c :: a' =>
                  let (acc2, threw2) := add_run c acc' in
                  if threw2 then (acc2, true) else each_child a' acc2
              end) arr acc in
         if threw1 then (acc1, true) else each_key cs' acc1
     end) cs acc = add_each_key cs acc.
Proof.
  induction cs as [|[ck a] cs IH]; intros acc; [reflexivity|].
  cbn [add_each_key]. rewrite each_child_fix.
  destruct (add_each_child a acc) as [x []]; [reflexivity|]. apply IH.
Qed.

Lemma add_run_eq p parent :
  add_run p parent =
  if negb (truthy (id p)) then (mix_durations parent (durations p), false)
  else
    match lookup (id p) (children parent) with
    | None =>
        if inherited (id p) then (parent, true)
        else (with_children parent
                (Obj.set (id p) [p] (children parent)), false)
    | Some arr =>
        match last (map (fun x => Some x) arr) None with
        | None => (parent, true)
        | Some lp =>
            let upd (x : Profile) :=
              with_children parent
                (Obj.set (id p) (map_last (fun _ => x) arr)
                         (children parent)) in
            match durations p, startTime lp, children p with
            | Some _, _, _ => (upd (mix_durations lp (durations p)), false)
            | None, None, _ :: _ =>
                let (x, threw) := add_each_key (children p) lp in
                (upd x, threw)
            | None, None, [] => (upd (merge_into lp p), false)
            | None, Some _, _ =>
                (with_children parent
                   (Obj.set (id p) (arr ++ [p]) (children parent)), false)
            end
        end
    end.
Proof.
  destruct p as [k i ty du cd ch da st en cl].
  cbn [add_run id durations children].
  destruct (negb (truthy i)); [reflexivity|].
  destruct (lookup i (children parent)) as [arr|]; [|reflexivity].
  destruct (last (map (fun x => Some x) arr) None) as [lp|]; [|reflexivity].
  cbv zeta.
  destruct du; [reflexivity|].
  destruct (startTime lp); [reflexivity|].
  rewrite each_key_fix. destruct ch; reflexivity.
Qed.

Lemma add_eq p parent : add p parent = fst (add_run p parent).
Proof. reflexivity. Qed.

Lemma add_throws_eq p parent : add_throws p parent = snd (add_run p parent).
Proof. reflexivity. Qed.

Lemma sound_eq p :
  sound p = negb (inherited (id p)) &&
            forallb (fun kv => arr_ok (snd kv)) (children p).
Proof.
  destruct p as [k i ty du cd ch da st en cl]. cbn [sound id children].
  f_equal. induction ch as [|[ck a] ch IH]; [reflexivity|].
  cbn [forallb snd]. now rewrite IH.
Qed.

Lemma forallb_set (V : Type) (f : V -> bool) k v o :
  forallb (fun kv => f (snd kv)) o = true -> f v = true ->
  forallb (fun kv : string * V => f (snd kv)) (Obj.set k v o) = true.
Proof.
  intros Ho Hv. unfold Obj.set. destruct (lookup k o) as [w|].
  - induction o as [|[k' v'] o IH]; cbn [replace forallb snd] in *; [reflexivity|].
    apply andb_prop in Ho as [A B].
    destruct (String.eqb k' k); cbn [forallb snd].
    + now rewrite Hv, B.
    + now rewrite A, IH.
  - induction o as [|[k' v'] o IH]; cbn [insert forallb snd] in *.
    + now rewrite Hv.
    + apply andb_prop in Ho as [A B].
      destruct (before k k'); cbn [forallb snd].
      * now rewrite Hv, A, B.
      * now rewrite A, IH.
Qed.

Lemma forallb_lookup (V : Type) (f : V -> bool) k v o :
  forallb (fun kv : string * V => f (snd kv)) o = true ->
  lookup k o = Some v -> f v = true.
Proof.
  induction o as [|[k' v'] o IH]; cbn [lookup forallb snd]; [discriminate|].
  intros H L. apply andb_prop in H as [A B].
  destruct (String.eqb k' k); [now injection L as <-|auto].
Qed.

Lemma last_some (l : list Profile) :
  l <> [] -> exists init lp, l = init ++ [lp] /\
    last (map (fun x => Some x) l) None = Some lp.
Proof.
  intros H. destruct (exists_last H) as (init & lp & ->).
  exists init, lp. split; [reflexivity|].
  rewrite map_app. cbn [map]. apply last_last.
Qed.

Lemma arr_ok_last arr :
  arr_ok arr = true ->
  exists init lp, arr = init ++ [lp] /\
    last (map (fun x => Some x) arr) None = Some lp /\
    forallb sound init = true /\ sound lp = true.
Proof.
  intros H. assert (N : arr <> []) by (intros ->; discriminate).
  destruct (last_some arr N) as (init & lp & -> & L).
  exists init, lp. repeat split; auto.
  - destruct (init ++ [lp]) eqn:E; [discriminate|]. rewrite <- E in H.
    unfold arr_ok in H. rewrite E in H. rewrite <- E in H.
    rewrite forallb_app in H. now apply andb_prop in H as [A _].
  - destruct (init ++ [lp]) eqn:E; [discriminate|]. 
    unfold arr_ok in H. rewrite <- E in H.
    rewrite forallb_app in H. apply andb_prop in H as [_ B].
    cbn in B. now rewrite andb_true_r in B.
Qed.

Lemma arr_ok_snoc init x :
  forallb sound init = true -> sound x = true -> arr_ok (init ++ [x]) = true.
Proof.
  intros A B. unfold arr_ok. destruct (init ++ [x]) eqn:E.
  - now destruct init.
  - rewrite <- E, forallb_app, A. cbn. now rewrite B.
Qed.

Lemma sound_children p ch :
  sound p = true -> forallb (fun kv => arr_ok (snd kv)) ch = true ->
  sound (with_children p ch) = true.
Proof.
  rewrite !sound_eq. intros H Hc. apply andb_prop in H as [A _].
  destruct p; cbn in *. now rewrite A, Hc.
Qed.

Lemma sound_same p q :
  id q = id p -> children q = children p -> sound q = sound p.
Proof. intros A B. now rewrite !sound_eq, A, B. Qed.

Lemma add_id p parent : id (add p parent) = id parent.
Proof.
  rewrite add_eq, add_run_eq.
  destruct (negb (truthy (id p))); [reflexivity|].
  destruct (lookup (id p) (children parent)) as [arr|].
  - destruct (last (map (fun x => Some x) arr) None) as [lp|]; [|reflexivity].
    cbv zeta. destruct (durations p); [reflexivity|].
    destruct (startTime lp); [reflexivity|].
    destruct (children p); [reflexivity|].
    now destruct (add_each_key _ lp).
  - now destruct (inherited (id p)).
Qed.

Lemma add_each_child_sound a :
  Forall adds_well a ->
  forall acc, sound acc = true ->
  snd (add_each_child a acc) = false /\
  sound (fst (add_each_child a acc)) = true /\
  id (fst (add_each_child a acc)) = id acc.
Proof.
  induction 1 as [|c a Hc _ IH]; intros acc Hacc; cbn [add_each_child].
  - auto.
  - destruct (Hc acc Hacc) as [T S]. rewrite add_throws_eq in T.
    rewrite add_eq in S. pose proof (add_id c acc) as I. rewrite add_eq in I.
    destruct (add_run c acc) as [x t]. cbn [fst snd] in *. subst t.
    destruct (IH x S) as (A & B & C). rewrite C, I. auto.
Qed.

Lemma add_each_key_sound cs :
  Forall (fun kv : string * list Profile => Forall adds_well (snd kv)) cs ->
  forall acc, sound acc = true ->
  snd (add_each_key cs acc) = false /\
  sound (fst (add_each_key cs acc)) = true /\
  id (fst (add_each_key cs acc)) = id acc.
Proof.
  induction 1 as [|[ck a] cs Ha _ IH]; intros acc Hacc; cbn [add_each_key].
  - auto.
  - cbn [snd] in Ha.
    destruct (add_each_child_sound a Ha acc Hacc) as (T & S & I).
    destruct (add_each_child a acc) as [x t]. cbn [fst snd] in *. subst t.
    destruct (IH x S) as (A & B & C). rewrite C, I. auto.
Qed.

Lemma sound_parts p :
  sound p = true ->
  inherited (id p) = false /\
  Forall (fun kv : string * list Profile =>
            Forall (fun c => sound c = true) (snd kv)) (children p).
Proof.
  rewrite sound_eq. intros H. apply andb_prop in H as [A B].
  split; [now apply negb_true_iff|].
  induction (children p) as [|[ck a] ch IH]; [constructor|].
  cbn [forallb snd] in B. apply andb_prop in B as [B1 B2].
  constructor; [|auto]. cbn [snd].
  apply Forall_forall. intros c Hc.
  destruct a; [discriminate|]. unfold arr_ok in B1.
  rewrite forallb_forall in B1. auto.
Qed.

(** A sound profile is added to a sound parent without an exception,
    and the parent stays sound. *)
Lemma add_sound p : sound p = true -> adds_well p.
Proof.
  induction p as [k i ty du cd ch da st en cl IH] using Profile_tree_ind.
  intros Hp parent Hparent.
  destruct (sound_parts _ Hp) as [Hi Hch]. cbn [id children] in Hi, Hch.
  assert (Hkids : Forall (fun kv : string * list Profile =>
                            Forall adds_well (snd kv)) ch).
  { clear - IH Hch. induction IH as [|kv cs H _ IHcs]; [constructor|].
    inversion Hch as [|? ? H1 H2]; subst. constructor; [|auto].
    clear - H H1. induction H as [|c a Hc _ IHa]; [constructor|].
    inversion H1; subst. constructor; auto. }
  rewrite add_throws_eq, add_eq, add_run_eq. cbn [id durations children].
  destruct (negb (truthy i)).
  { cbn [fst snd]. split; [reflexivity|].
    rewrite <- Hparent. apply sound_same; now destruct parent. }
  pose proof Hparent as Hpar. rewrite sound_eq in Hpar.
  apply andb_prop in Hpar as [_ Hpc].
  destruct (lookup i (children parent)) as [arr|] eqn:L.
  - pose proof (forallb_lookup _ _ _ _ _ Hpc L) as Harr.
    destruct (arr_ok_last arr Harr) as (init & lp & -> & -> & Hinit & Hlp).
    cbv zeta.
    assert (U : forall x, sound x = true ->
              sound (with_children parent
                       (Obj.set i (map_last (fun _ => x) (init ++ [lp]))
                                (children parent))) = true).
    { intros x Hx. rewrite map_last_snoc.
      apply sound_children; [exact Hparent|].
      apply (forallb_set _ arr_ok); [exact Hpc|]. now apply arr_ok_snoc. }
    destruct du as [ds|].
    + cbn [fst snd]. split; [reflexivity|]. apply U.
      rewrite <- Hlp. apply sound_same; now destruct lp.
    + destruct (startTime lp).
      * cbn [fst snd]. split; [reflexivity|].
        apply sound_children; [exact Hparent|].
        apply (forallb_set _ arr_ok); [exact Hpc|].
        rewrite <- app_assoc. cbn [app].
        unfold arr_ok. destruct (init ++ [lp; _]) eqn:E; [now destruct init|].
        rewrite <- E, forallb_app, Hinit. cbn [forallb]. now rewrite Hlp, Hp.
      * destruct ch as [|c0 ch0].
        -- cbv beta iota. cbn [fst snd]. split; [reflexivity|]. apply U.
           rewrite <- Hlp. apply sound_same; now destruct lp.
        -- destruct (add_each_key_sound _ Hkids lp Hlp) as (T & S & _).
           destruct (add_each_key (c0 :: ch0) lp) as [x t].
           cbn [fst snd] in *. split; [exact T|]. now apply U.
  - rewrite Hi. cbn [fst snd]. split; [reflexivity|].
    apply sound_children; [exact Hparent|].
    apply (forallb_set _ arr_ok); [exact Hpc|].
    cbv beta iota delta [arr_ok]. cbn [forallb]. now rewrite Hp.
Qed.

Lemma add_binds p parent :
  truthy (id p) = true -> add_throws p parent = false ->
  exists arr,
    lookup (id p) (children (add p parent)) = Some arr /\ arr <> [] /\
    (lookup (id p) (children parent) = None -> arr = [p]) /\
    (forall k, k <> id p ->
       lookup k (children (add p parent)) = lookup k (children parent)).
Proof.
  intros Ht. rewrite add_throws_eq, add_eq, add_run_eq, Ht. cbn [negb].
  destruct (lookup (id p) (children parent)) as [arr|] eqn:L.
  - destruct (last (map (fun x => Some x) arr) None) as [lp|] eqn:La;
      [|discriminate].
    assert (Na : arr <> []) by (intros ->; discriminate).
    assert (Nm : forall x, map_last (fun _ : Profile => x) arr <> []).
    { intros x E. apply (f_equal (@length Profile)) in E.
      rewrite map_last_length in E. destruct arr; [congruence|discriminate]. }
    cbv zeta.
    assert (U : forall arr' t, arr' <> [] -> t = false ->
      exists a,
        lookup (id p) (children (fst
          (with_children parent (Obj.set (id p) arr' (children parent)), t)))
        = Some a /\ a <> [] /\ (Some arr = None -> a = [p]) /\
        (forall k, k <> id p ->
           lookup k (children (fst
             (with_children parent (Obj.set (id p) arr' (children parent)), t)))
           = lookup k (children parent))).
    { intros arr' t N _. exists arr'. cbn [fst children with_children].
      rewrite lookup_set_same. repeat split; auto; [discriminate|].
      intros k Hk. now apply lookup_set_other. }
    destruct (durations p); [intros _; now apply U|].
    destruct (startTime lp).
    + intros _. apply U; [|reflexivity]. now destruct arr.
    + destruct (children p).
      * intros _. now apply U.
      * destruct (add_each_key _ lp) as [x t]. intros Hx. now apply U.
  - destruct (inherited (id p)); [discriminate|]. intros _.
    exists [p]. cbn [fst children with_children].
    rewrite lookup_set_same. repeat split; auto; [discriminate|].
    intros k Hk. now apply lookup_set_other.
Qed.

End ProfFacts.

Module ReconcilerFacts.
Import JsString Regex Key Shape Num Obj Prof Reconciler Props ObjFacts KeyFacts ProfFacts.
Local Open Scope string_scope.

Lemma state_eta s : mkState (stack s) (events s) (absoluteStartTime s) = s.
Proof. now destruct s. Qed.

Lemma origin_end abs raw t d : origin abs (End raw t d) = abs.
Proof. now destruct abs. Qed.

Lemma valid_guard raw :
  negb (truthy (trim raw)) || negb (Regex.test PROFILE_KEY_REGEX (trim raw)) =
  negb (valid raw).
Proof. unfold valid. now rewrite negb_andb. Qed.

Lemma run_app pre : forall s s1 l1 post,
  run s pre = Some (s1, l1) ->
  run s (pre ++ post) =
  match run s1 post with
  | Some (s2, l2) => Some (s2, (l1 ++ l2)%list)
  | None => None
  end.
Proof.
  induction pre as [|c pre IH]; intros s s1 l1 post H; simpl in *.
  - injection H as <- <-. destruct (run s post) as [[? ?]|]; reflexivity.
  - destruct (step s c) as [[sa la]|]; [|discriminate].
    destruct (run sa pre) as [[sb lb]|] eqn:E; [|discriminate].
    injection H as <- <-.
    rewrite (IH sa sb lb post E).
    destruct (run sb post) as [[? ?]|]; [|reflexivity].
    now rewrite app_assoc.
Qed.


Lemma firstn_skipn_insert (A : Type) (l1 l2 : list A) e :
  (firstn (length l1) (l1 ++ l2) ++ e :: skipn (length l1) (l1 ++ l2) =
   l1 ++ e :: l2)%list.
Proof.
  rewrite firstn_app, skipn_app, Nat.sub_diag, firstn_all, skipn_all.
  cbn [firstn skipn app]. now rewrite app_nil_r.
Qed.

Lemma finish_logged s log e l :
  finish s (log ++ e :: l)%list =
  option_map (logged_also (length log) e) (finish s (log ++ l)%list).
Proof.
  unfold finish. destruct (stack s) as [|r above].
  - cbn [option_map]. unfold logged_also. cbn [rootProfile r_events r_origin r_log].
    now rewrite firstn_skipn_insert.
  - destruct (sweep above (focus r)) as [[rp lg]|]; [|reflexivity].
    cbn [option_map]. unfold logged_also.
    cbn [rootProfile r_events r_origin r_log].
    rewrite <- (app_assoc log l lg), firstn_skipn_insert.
    now rewrite <- app_assoc.
Qed.

Lemma processCalls_app pre s log post :
  run init pre = Some (s, log) ->
  processCalls (pre ++ post) =
  match run s post with
  | Some (s', log') => finish s' (log ++ log')%list
  | None => None
  end.
Proof.
  intros H. unfold processCalls. rewrite (run_app pre init s log post H).
  now destruct (run s post) as [[? ?]|].
Qed.


(** The stack, the events and the log of a run do not depend on the
    origin the run starts with. *)
Lemma step_origin s1 s2 c :
  stack s1 = stack s2 -> events s1 = events s2 ->
  match step s1 c, step s2 c with
  | Some (a, l1), Some (b, l2) =>
      stack a = stack b /\ events a = events b /\ l1 = l2
  | None, None => True
  | _, _ => False
  end.
Proof.
  intros Hs He. destruct c as [raw t d|raw t d|name t d]; unfold step.
  - rewrite Hs, He.
    destruct (negb (truthy (trim raw)) || negb (Regex.test PROFILE_KEY_REGEX (trim raw)));
      [simpl; auto|].
    destruct (parse (trim raw)); simpl; auto.
  - destruct (negb (truthy (trim raw)) || negb (Regex.test PROFILE_KEY_REGEX (trim raw)));
      [simpl; auto|].
    destruct (parse (trim raw)) as [pk|]; [|exact I].
    unfold step_end. rewrite Hs, He.
    destruct (find_open (toString pk) (stack s2)) as [i|]; [|simpl; auto].
    destruct (nth_error (stack s2) i); [|simpl; auto].
    destruct (add_at _ _ _); simpl; auto.
  - simpl. rewrite Hs, He. auto.
Qed.

Lemma run_origin calls : forall s1 s2,
  stack s1 = stack s2 -> events s1 = events s2 ->
  match run s1 calls, run s2 calls with
  | Some (a, l1), Some (b, l2) =>
      stack a = stack b /\ events a = events b /\ l1 = l2
  | None, None => True
  | _, _ => False
  end.
Proof.
  induction calls as [|c calls IH]; intros s1 s2 Hs He; simpl; [auto|].
  pose proof (step_origin s1 s2 c Hs He) as H.
  destruct (step s1 c) as [[a la]|], (step s2 c) as [[b lb]|]; try contradiction; [|exact I].
  destruct H as (Hs' & He' & ->).
  specialize (IH a b Hs' He').
  destruct (run a calls) as [[a' la']|], (run b calls) as [[b' lb']|]; try contradiction; [|exact I].
  destruct IH as (? & ? & ->). auto.
Qed.

Lemma step_malformed s c raw :
  valid raw = false -> malformed c raw ->
  exists s1, step s c = Some (s1, [error "Invalid profile." (trim raw)]) /\
             stack s1 = stack s /\ events s1 = events s /\
             (absoluteStartTime s <> None \/ (exists t d, c = End raw t d) ->
              s1 = s).
Proof.
  intros V (t & d & [-> | ->]); unfold step; rewrite valid_guard, V;
    cbn [negb]; eexists; (split; [reflexivity|]); repeat split.
  - intros [H|(t' & d' & H)]; [|discriminate].
    destruct s as [st ev [a|]]; [reflexivity|]. now elim H.
  - intros _. rewrite origin_end. apply state_eta.
Qed.

Lemma finish_same s1 s2 l :
  stack s1 = stack s2 -> events s1 = events s2 ->
  match finish s2 l, finish s1 l with
  | Some r, Some r' =>
      rootProfile r' = rootProfile r /\ r_events r' = r_events r /\
      r_log r' = r_log r /\
      (absoluteStartTime s1 = absoluteStartTime s2 -> r_origin r' = r_origin r)
  | None, None => True
  | _, _ => False
  end.
Proof.
  intros Hs He. unfold finish. rewrite Hs, He.
  destruct (stack s2) as [|r above]; [simpl; auto|].
  destruct (sweep above (focus r)) as [[rp lg]|]; simpl; auto.
Qed.

Lemma step_origin_kept s c s' l :
  step s c = Some (s', l) -> absoluteStartTime s <> None ->
  absoluteStartTime s' = absoluteStartTime s.
Proof.
  intros H Ha.
  assert (E : origin (absoluteStartTime s) c = absoluteStartTime s).
  { unfold origin. destruct (absoluteStartTime s); [reflexivity|now elim Ha]. }
  destruct c as [raw t d|raw t d|name t d]; unfold step in H; rewrite E in H.
  - destruct (negb (truthy (trim raw)) || _); [now injection H as <- <-|].
    destruct (parse (trim raw)); [|discriminate]. now injection H as <- <-.
  - destruct (negb (truthy (trim raw)) || _); [now injection H as <- <-|].
    destruct (parse (trim raw)) as [pk|]; [|discriminate].
    unfold step_end in H.
    destruct (find_open (toString pk) (stack s)) as [i|]; [|now injection H as <- <-].
    destruct (nth_error (stack s) i); [|now injection H as <- <-].
    destruct (add_at _ _ _); [|discriminate]. now injection H as <- <-.
  - now injection H as <- <-.
Qed.

Lemma run_same calls : forall s1 s2,
  stack s1 = stack s2 -> events s1 = events s2 ->
  absoluteStartTime s1 = absoluteStartTime s2 ->
  run s1 calls = run s2 calls.
Proof.
  intros s1 s2 A B C. destruct s1, s2; cbn in *. now subst.
Qed.

(** C6.  A [start] or [end] whose raw key fails the check of line 662
    (for example [a//b]) logs the error [Invalid profile.], creates no
    node and pushes nothing: stack and events are untouched, and so is
    the whole state when the call is an [end] or the origin is already
    set.  The calls after it are processed as without it: processing
    the log throws with the call exactly when it throws without it,
    and otherwise builds the same tree, records the same events and
    logs the same lines, with that one error in between.  (Line 651
    runs before the check, so a malformed [start] that comes before
    every [start] and [event] sets [absoluteStartTime], which is not
    part of the tree; in the other cases the origin is the same too.) *)
Theorem malformed_key_dropped pre post raw c s log :
  run init pre = Some (s, log) ->
  valid raw = false -> malformed c raw ->
  exists s1,
    step s c = Some (s1, [error "Invalid profile." (trim raw)]) /\
    stack s1 = stack s /\ events s1 = events s /\
    (absoluteStartTime s <> None \/ (exists t d, c = End raw t d) -> s1 = s) /\
    match processCalls (pre ++ post), processCalls (pre ++ c :: post) with
    | Some r, Some r' =>
        rootProfile r' = rootProfile r /\
        r_events r' = r_events r /\
        r_log r' = (firstn (length log) (r_log r) ++
                    error "Invalid profile." (trim raw) ::
                    skipn (length log) (r_log r))%list /\
        (absoluteStartTime s <> None \/ (exists t d, c = End raw t d) ->
         r_origin r' = r_origin r)
    | None, None => True
    | _, _ => False
    end.
Proof.
  intros Hpre V Hc.
  destruct (step_malformed s c raw V Hc) as (s1 & Hstep & Hs & He & Hsame).
  exists s1. repeat (split; [assumption|]).
  rewrite (processCalls_app pre s log _ Hpre).
  rewrite (processCalls_app pre s log _ Hpre).
  cbn [run]. rewrite Hstep.
  pose proof (run_origin post s1 s Hs He) as Hrun.
  destruct (run s post) as [[s' log']|] eqn:Hpost;
    destruct (run s1 post) as [[s1' log1']|] eqn:Hpost1; try contradiction;
    [|exact I].
  destruct Hrun as (Hs' & He' & ->). cbn [app].
  rewrite finish_logged.
  pose proof (finish_same s1' s' (log ++ log')%list Hs' He') as F.
  destruct (finish s' (log ++ log')%list) as [r|] eqn:F1;
    destruct (finish s1' (log ++ log')%list) as [r'|] eqn:F2;
    try contradiction; [|exact I].
  destruct F as (A & B & C & D). cbn [option_map].
  unfold logged_also. cbn [rootProfile r_events r_log r_origin].
  repeat split; auto.
  - now rewrite C.
  - intros H. apply D. specialize (Hsame H). subst s1. congruence.
Qed.

Lemma find_from_bounds k l : forall i j,
  find_from k l i = Some j -> (i <= j < i + length l)%nat.
Proof.
  induction l as [|e l IH]; intros i j H; simpl in *; [discriminate|].
  destruct (find_from k l (S i)) as [j'|] eqn:E.
  - injection H as <-. apply IH in E. lia.
  - destruct (String.eqb (entry_key e) k); [|discriminate].
    injection H as <-. lia.
Qed.

Lemma find_open_bounds k st i :
  find_open k st = Some i -> (1 <= i < length st)%nat.
Proof.
  destruct st as [|r above]; simpl; [discriminate|].
  intros H. apply find_from_bounds in H. lia.
Qed.

Lemma nth_error_splice_lt (l : list Entry) : forall i j,
  (j < i)%nat -> nth_error (splice i l) j = nth_error l j.
Proof.
  induction l as [|x l IH]; intros i j H; [now destruct i|].
  destruct i as [|i]; [lia|]. destruct j as [|j]; [reflexivity|].
  simpl. apply IH. lia.
Qed.


Lemma parse_root k pk : parse k = Some pk -> root pk = starts_with "/" k.
Proof.
  unfold parse. destruct (filter truthy (map trim (split "/" k))); [discriminate|].
  destruct (contains ":" _); intros H; injection H as <-; reflexivity.
Qed.

(** What a matched [end] does to the stack, in any state: the parent
    is found, and the call returns unless [add] throws. *)
Lemma end_step s raw t d pk i profile :
  valid raw = true ->
  parse (trim raw) = Some pk ->
  find_open (toString pk) (stack s) = Some i ->
  nth_error (stack s) i = Some profile ->
  let j := if root pk then 0 else i - 1 in
  exists parent,
    nth_error (stack s) j = Some parent /\
    nth_error (splice i (stack s)) j = Some parent /\
    (starts_with "/" raw = true -> j = 0) /\
    step s (End raw t d) =
      if add_throws (closed_profile profile t d) (focus parent) then None
      else Some (mkState (update j (add_to (closed_profile profile t d))
                                 (splice i (stack s)))
                         (events s) (absoluteStartTime s), []).
Proof.
  intros V Hp Hf Hn j.
  pose proof (find_open_bounds _ _ _ Hf) as Hb.
  assert (Hj : (j < i)%nat) by (subst j; destruct (root pk); lia).
  destruct (nth_error (stack s) j) as [parent|] eqn:E0.
  2:{ apply nth_error_None in E0. lia. }
  exists parent. split; [reflexivity|].
  assert (E1 : nth_error (splice i (stack s)) j = Some parent)
    by (rewrite nth_error_splice_lt by lia; exact E0).
  split; [exact E1|]. split.
  - intros Hr. apply rooted_trim in Hr. rewrite <- (parse_root _ _ Hp) in Hr.
    subst j. now rewrite Hr.
  - unfold step. rewrite valid_guard, V, Hp, origin_end. cbn [negb].
    unfold step_end. rewrite Hf, Hn. cbv zeta. fold j.
    unfold add_at. rewrite E1. unfold closed_profile.
    now destruct (add_throws _ (focus parent)).
Qed.

Lemma add_to_root p r : is_root r -> is_root (add_to p r).
Proof.
  intros [A B]. split; [exact A|]. unfold add_to. cbn [focus].
  now rewrite add_id.
Qed.

Lemma rooted_update j p i st :
  (1 <= i)%nat -> rooted_stack st ->
  rooted_stack (update j (add_to p) (splice i st)).
Proof.
  intros Hi (r & above & -> & Hr).
  destruct i as [|i]; [lia|]. cbn [splice].
  destruct j as [|j]; cbn [update].
  - exists (add_to p r), (splice i above). split; [reflexivity|].
    now apply add_to_root.
  - exists r, (update j (add_to p) (splice i above)). auto.
Qed.

Lemma step_rooted s c s' log :
  step s c = Some (s', log) -> rooted_stack (stack s) -> rooted_stack (stack s').
Proof.
  intros H Hr. destruct c as [raw t d|raw t d|name t d]; unfold step in H.
  - destruct (negb (truthy (trim raw)) || _).
    + injection H as <- <-. exact Hr.
    + destruct (parse (trim raw)) as [pk|]; [|discriminate].
      injection H as <- <-. cbn [stack].
      destruct Hr as (r & above & -> & Hr). exists r. eexists. split; [reflexivity|exact Hr].
  - destruct (negb (truthy (trim raw)) || _).
    + injection H as <- <-. exact Hr.
    + destruct (parse (trim raw)) as [pk|]; [|discriminate].
      unfold step_end in H.
      destruct (find_open (toString pk) (stack s)) as [i|] eqn:Hf.
      * destruct (nth_error (stack s) i).
        -- unfold add_at in H.
           destruct (nth_error _ _); [|discriminate].
           destruct (add_throws _ _); [discriminate|].
           injection H as <- <-. cbn [stack].
           apply rooted_update; [|exact Hr].
           apply find_open_bounds in Hf. lia.
        -- injection H as <- <-. exact Hr.
      * injection H as <- <-. exact Hr.
  - injection H as <- <-. exact Hr.
Qed.

Lemma run_rooted calls : forall s s' log,
  run s calls = Some (s', log) -> rooted_stack (stack s) -> rooted_stack (stack s').
Proof.
  induction calls as [|c calls IH]; intros s s' log H Hr; simpl in H.
  - injection H as <- <-. exact Hr.
  - destruct (step s c) as [[s1 l1]|] eqn:E; [|discriminate].
    destruct (run s1 calls) as [[s2 l2]|] eqn:E2; [|discriminate].
    injection H as <- <-.
    eapply IH; [exact E2|]. eapply step_rooted; eauto.
Qed.

Lemma init_rooted : rooted_stack (stack init).
Proof. exists rootEntry, []. repeat split. Qed.

(** *** Sound trees: logs without inherited names are processed *)

Lemma sound_plug sp f :
  sound (plug (mkEntry sp f)) =
  forallb (fun n => negb (inherited (id n))) sp && sound f.
Proof.
  unfold plug. cbn [spine focus].
  induction sp as [|n sp IH]; [reflexivity|].
  cbn [fold_right forallb]. rewrite sound_eq.
  destruct n. cbn [with_children id children forallb snd arr_ok].
  rewrite IH. now rewrite !andb_true_r, andb_assoc.
Qed.

Lemma sound_plug_focus e : sound (plug e) = true -> sound (focus e) = true.
Proof.
  destruct e as [sp f]. rewrite sound_plug. intros H.
  now apply andb_prop in H as [_ H].
Qed.

Lemma sound_frame e e' :
  same_frame e e' -> sound (plug e') = sound (plug e).
Proof.
  destruct e as [sp f], e' as [sp' f']. unfold same_frame. cbn [spine focus].
  intros (A & B & C). rewrite !sound_plug. f_equal.
  - revert sp' A. induction sp as [|n sp IH]; intros [|n' sp'] A;
      try discriminate; [reflexivity|].
    cbn [map] in A. injection A as A1 A2. cbn [forallb].
    now rewrite A1, (IH sp' A2).
  - now apply sound_same.
Qed.

Lemma set_focus_frame sd p :
  id (set_focus sd p) = id p /\ children (set_focus sd p) = children p.
Proof.
  unfold set_focus. destruct (cur_duration p) as [l|].
  - destruct (durations p) as [ds|]; [|now destruct p].
    destruct (lookup l ds); now destruct p.
  - now destruct p.
Qed.

Lemma set_frame sd e : same_frame e (set sd e).
Proof.
  destruct e as [sp f]. unfold set, map_top, same_frame. cbn [spine focus].
  destruct (set_focus_frame sd f) as [A B].
  destruct sp as [|n sp]; cbn [spine focus map].
  - split; [reflexivity|]. rewrite <- A, <- B.
    now destruct (set_focus sd f).
  - split; [now destruct n|]. auto.
Qed.

Lemma close_frame e : same_frame e (map_top (fun p => with_closed p true) e).
Proof.
  destruct e as [[|n sp] f]; unfold map_top, same_frame; cbn [spine focus map].
  - split; [reflexivity|]. now destruct f.
  - split; [now destruct n|]. auto.
Qed.

Lemma sound_closed profile t d :
  sound (closed_profile profile t d) = sound (plug profile).
Proof.
  unfold closed_profile.
  rewrite (sound_frame _ _ (close_frame _)).
  apply sound_frame, set_frame.
Qed.

Lemma sound_chain segs : forall seg dur rt,
  sound (plug (chain seg segs dur rt)) =
  forallb (fun i => negb (inherited i)) (seg :: segs).
Proof.
  induction segs as [|s segs IH]; intros seg dur rt.
  - cbn [chain]. rewrite sound_plug. cbn [forallb]. rewrite sound_eq.
    cbn [node id children hd forallb]. now rewrite !andb_true_r.
  - cbn [chain]. specialize (IH s dur false).
    destruct (chain s segs dur false) as [sp f] eqn:E.
    cbn [spine focus]. rewrite sound_plug in *.
    cbn [forallb node id hd] in *. cbn [forallb] in IH.
    now rewrite <- andb_assoc, IH.
Qed.

Lemma sound_new pk :
  forallb (fun i => negb (inherited i)) (profiles pk) = true ->
  sound (plug (newProfile pk)) = true.
Proof.
  unfold newProfile. destruct (profiles pk) as [|seg segs]; intros H.
  - reflexivity.
  - now rewrite sound_chain.
Qed.

Lemma Forall_splice (P : Entry -> Prop) l : forall i,
  Forall P l -> Forall P (splice i l).
Proof.
  induction l as [|x l IH]; intros i H; [now destruct i|].
  inversion H; subst. destruct i; cbn [splice]; auto.
Qed.

Lemma Forall_update (P : Entry -> Prop) f l : forall j,
  Forall P l -> (forall x, P x -> P (f x)) -> Forall P (update j f l).
Proof.
  induction l as [|x l IH]; intros j H Hf; [now destruct j|].
  inversion H; subst. destruct j; cbn [update]; auto.
Qed.

Lemma sound_add_to p e :
  sound p = true -> sound (plug e) = true -> sound (plug (add_to p e)) = true.
Proof.
  intros Hp He. destruct e as [sp f]. unfold add_to. cbn [spine focus].
  rewrite sound_plug in *. apply andb_prop in He as [A B].
  rewrite A. cbn [andb]. now apply add_sound.
Qed.

(** A [start] with a safe key and any [end] or [event] return, and
    keep every profile on the stack sound. *)
Lemma step_sound s c :
  safe_call c = true -> sound_stack (stack s) ->
  exists s' log, step s c = Some (s', log) /\ sound_stack (stack s').
Proof.
  intros Hc Hs. destruct c as [raw t d|raw t d|name t d]; unfold step.
  - rewrite valid_guard. destruct (valid raw) eqn:V; cbn [negb].
    2:{ do 2 eexists. split; [reflexivity|exact Hs]. }
    destruct (valid_parses raw V) as [pk Hp]. rewrite Hp.
    do 2 eexists. split; [reflexivity|]. cbn [stack].
    apply Forall_app. split; [exact Hs|]. constructor; [|constructor].
    rewrite (sound_frame _ _ (set_frame _ _)). apply sound_new.
    cbn [safe_call] in Hc. unfold safe_key in Hc. now rewrite Hp in Hc.
  - rewrite valid_guard. destruct (valid raw) eqn:V; cbn [negb].
    2:{ do 2 eexists. split; [reflexivity|exact Hs]. }
    destruct (valid_parses raw V) as [pk Hp]. rewrite Hp.
    unfold step_end.
    destruct (find_open (toString pk) (stack s)) as [i|] eqn:Hf.
    2:{ do 2 eexists. split; [reflexivity|exact Hs]. }
    destruct (nth_error (stack s) i) as [profile|] eqn:Hn.
    2:{ do 2 eexists. split; [reflexivity|exact Hs]. }
    destruct (end_step s raw t d pk i profile V Hp Hf Hn)
      as (parent & E0 & E1 & _ & _).
    cbv zeta. unfold add_at. rewrite E1.
    assert (Hprof : sound (plug profile) = true).
    { unfold sound_stack in Hs. rewrite Forall_forall in Hs.
      apply Hs. eapply nth_error_In; eauto. }
    assert (Hpar : sound (plug parent) = true).
    { unfold sound_stack in Hs. rewrite Forall_forall in Hs.
      apply Hs. eapply nth_error_In; eauto. }
    pose proof (sound_closed profile t d) as HP. unfold closed_profile in HP.
    rewrite Hprof in HP.
    destruct (add_sound _ HP (focus parent) (sound_plug_focus _ Hpar)) as [T _].
    rewrite T. do 2 eexists. split; [reflexivity|]. cbn [stack].
    apply Forall_update; [now apply Forall_splice|].
    intros x Hx. now apply sound_add_to.
  - do 2 eexists. split; [reflexivity|exact Hs].
Qed.

Lemma run_sound calls : forall s,
  forallb safe_call calls = true -> sound_stack (stack s) ->
  exists s' log, run s calls = Some (s', log) /\ sound_stack (stack s').
Proof.
  induction calls as [|c calls IH]; intros s Hc Hs; cbn [run].
  - eauto.
  - cbn [forallb] in Hc. apply andb_prop in Hc as [A B].
    destruct (step_sound s c A Hs) as (s1 & l1 & -> & Hs1).
    destruct (IH s1 B Hs1) as (s2 & l2 & -> & Hs2). eauto.
Qed.

Lemma init_sound : sound_stack (stack init).
Proof. repeat constructor. Qed.

Lemma salvage_sound p r :
  sound p = true -> sound r = true ->
  exists r', salvage p r = Some r' /\ sound r' = true.
Proof.
  intros Hp. destruct (sound_parts _ Hp) as [_ Hch]. unfold salvage.
  revert r. induction Hch as [|[k a] cs Ha _ IH]; intros r Hr; cbn [fold_left].
  - eauto.
  - cbn [snd] in *.
    assert (E : exists r1, fold_left
      (fun acc' childProfile =>
         match acc' with
         | None => None
         | Some r0 =>
             if closed childProfile then
               if add_throws childProfile r0 then None
               else Some (add childProfile r0)
             else Some r0
         end) a (Some r) = Some r1 /\ sound r1 = true).
    { clear IH. revert r Hr. induction Ha as [|c a Hc _ IHa]; intros r Hr;
        cbn [fold_left]; [eauto|].
      destruct (closed c); [|now apply IHa].
      destruct (add_sound c Hc r Hr) as [T S]. rewrite T. now apply IHa. }
    destruct E as (r1 & -> & Hr1). now apply IH.
Qed.

Lemma sweep_sound above : forall r,
  Forall (fun e => sound (plug e) = true) above -> sound r = true ->
  exists r' log, sweep above r = Some (r', log) /\ sound r' = true.
Proof.
  induction above as [|e above IH]; intros r Ha Hr; cbn [sweep]; [eauto|].
  inversion Ha as [|? ? He Ha']; subst.
  destruct (closed (top e)); [now apply IH|].
  destruct (salvage_sound (plug e) r He Hr) as (r1 & -> & Hr1).
  destruct (IH r1 Ha' Hr1) as (r2 & lg & -> & Hr2). eauto.
Qed.

Lemma finish_sound s log :
  rooted_stack (stack s) -> sound_stack (stack s) ->
  exists r, finish s log = Some r /\ sound (rootProfile r) = true /\
            r_events r = events s /\ r_origin r = absoluteStartTime s.
Proof.
  intros (r0 & above & E & _) Hs. unfold finish. rewrite E.
  unfold sound_stack in Hs. rewrite E in Hs. inversion Hs; subst.
  destruct (sweep_sound above (focus r0)) as (r' & lg & -> & Hr');
    [assumption|now apply sound_plug_focus|].
  eexists. split; [reflexivity|]. auto.
Qed.

(** A log whose [start] keys have no segment named like a member of
    [Object.prototype] is processed without an exception. *)
Lemma processCalls_safe calls :
  forallb safe_call calls = true ->
  exists r, processCalls calls = Some r /\ sound (rootProfile r) = true.
Proof.
  intros H. unfold processCalls.
  destruct (run_sound calls init H init_sound) as (s & log & E & Hs).
  rewrite E.
  destruct (finish_sound s log (run_rooted _ _ _ _ E init_rooted) Hs)
    as (r & -> & Hr & _). eauto.
Qed.


End ReconcilerFacts.

Module RepeatFacts.
Import JsString Regex Key Shape Num Obj Prof Reconciler Props ObjFacts KeyFacts ProfFacts ReconcilerFacts.
Local Open Scope string_scope.

(** A key of one segment, without label: what it parses to. *)
Lemma parse_single raw :
  valid raw = true -> contains "/" raw = false -> contains ":" raw = false ->
  parse (trim raw) = Some (mkKey [trim raw] None false) /\ trim raw <> "".
Proof.
  intros V Hs Hc. unfold valid in V. apply andb_true_iff in V as [Hne _].
  assert (Hne' := proj1 (truthy_iff _) Hne).
  split; [|exact Hne'].
  assert (Hps : filter truthy (map trim (split "/" (trim raw))) = [trim raw]).
  { rewrite split_free by now apply contains_trim.
    simpl. rewrite trim_idem, Hne. reflexivity. }
  rewrite (parse_parts _ _ Hps) by discriminate.
  cbn [last]. rewrite (contains_trim _ _ Hc).
  f_equal. f_equal.
  destruct (trim raw) as [|c r] eqn:E; [reflexivity|].
  assert (H : contains "/" (String c r) = false) by (rewrite <- E; now apply contains_trim).
  simpl in *. apply orb_false_iff in H as [A _]. exact A.
Qed.

Lemma find_from_last k e l : forall i,
  entry_key e = k -> find_from k (l ++ [e])%list i = Some (i + length l)%nat.
Proof.
  induction l as [|x l IH]; intros i He; simpl.
  - rewrite He, String.eqb_refl. f_equal. lia.
  - rewrite (IH (S i) He). f_equal. lia.
Qed.

Lemma find_open_last k e st :
  st <> [] -> entry_key e = k -> find_open k (st ++ [e])%list = Some (length st).
Proof.
  destruct st as [|r above]; [congruence|]. intros _ He. simpl.
  now rewrite find_from_last.
Qed.

Lemma nth_error_last (st : list Entry) e : nth_error (st ++ [e])%list (length st) = Some e.
Proof. induction st; simpl; auto. Qed.

Lemma splice_last (st : list Entry) e : splice (length st) (st ++ [e])%list = st.
Proof. induction st as [|x st IH]; simpl; [reflexivity|]. now rewrite IH. Qed.

Lemma update_last f (st : list Entry) e :
  update (length st) f (st ++ [e]) = (st ++ [f e])%list.
Proof. induction st as [|x st IH]; simpl; [reflexivity|]. now rewrite IH. Qed.

Lemma last_start_app l p : last_start (l ++ [p])%list = startTime p.
Proof.
  unfold last_start. rewrite map_app. simpl. now rewrite last_last.
Qed.

Lemma add_run_first p parent :
  truthy (id p) = true -> inherited (id p) = false ->
  lookup (id p) (children parent) = None ->
  add_run p parent =
  (with_children parent (Obj.set (id p) [p] (children parent)), false).
Proof.
  intros Hid Hi Hl. now rewrite add_run_eq, Hid, Hl, Hi.
Qed.

Lemma add_first p parent :
  truthy (id p) = true -> inherited (id p) = false ->
  lookup (id p) (children parent) = None ->
  add p parent =
  with_children parent (Obj.set (id p) [p] (children parent)).
Proof.
  intros Hid Hi Hl. now rewrite add_eq, add_run_first.
Qed.

Lemma add_run_append p parent arr t :
  truthy (id p) = true -> durations p = None ->
  lookup (id p) (children parent) = Some arr -> last_start arr = Some t ->
  add_run p parent =
  (with_children parent (Obj.set (id p) (arr ++ [p])%list (children parent)),
   false).
Proof.
  intros Hid Hd Hl Hs. rewrite add_run_eq, Hid, Hl, Hd. cbn [negb].
  unfold last_start in Hs.
  destruct (last (map (fun x => Some x) arr) None) as [lp|]; [|discriminate].
  now rewrite Hs.
Qed.

Lemma add_append p parent arr t :
  truthy (id p) = true -> durations p = None ->
  lookup (id p) (children parent) = Some arr -> last_start arr = Some t ->
  add p parent =
  with_children parent (Obj.set (id p) (arr ++ [p])%list (children parent)).
Proof.
  intros Hid Hd Hl Hs. now rewrite add_eq, (add_run_append _ _ arr t).
Qed.

(** A pair for a plain id is added without an exception to a parent
    whose last occurrence of the id, if any, has a start time. *)
Lemma add_pair_returns i parent n t1 d1 t2 d2 :
  i <> "" -> inherited i = false -> holds i parent n ->
  add_throws (pair_profile i t1 d1 t2 d2) (focus parent) = false.
Proof.
  intros Hi Hin Hn. apply truthy_iff in Hi. rewrite add_throws_eq.
  unfold holds in Hn.
  destruct (lookup i (children (focus parent))) as [arr|] eqn:E.
  - destruct Hn as [_ [t Hl]].
    now rewrite (add_run_append _ _ arr t).
  - now rewrite add_run_first.
Qed.

Lemma pair_profile_fields i t1 d1 t2 d2 :
  id (pair_profile i t1 d1 t2 d2) = i /\
  durations (pair_profile i t1 d1 t2 d2) = None /\
  (truthy_time t1 = true -> startTime (pair_profile i t1 d1 t2 d2) = Some t1).
Proof.
  repeat split. intros Ht. cbn. now rewrite Ht.
Qed.

Lemma pushed_key i t1 d1 :
  entry_key (set (mkSetData (Some t1) None d1) (newProfile (mkKey [i] None false))) =
  toString (mkKey [i] None false).
Proof. reflexivity. Qed.

Lemma one_pair s below parent raw t1 d1 t2 d2 :
  valid raw = true -> contains "/" raw = false -> contains ":" raw = false ->
  stack s = (below ++ [parent])%list ->
  add_throws (pair_profile (trim raw) t1 d1 t2 d2) (focus parent) = false ->
  exists s',
    run s [Start raw t1 d1; End raw t2 d2] = Some (s', []) /\
    stack s' =
      (below ++ [add_to (pair_profile (trim raw) t1 d1 t2 d2) parent])%list /\
    events s' = events s.
Proof.
  intros V Hs Hc Hst Hthrows.
  destruct (parse_single raw V Hs Hc) as [Hp Hne].
  assert (Hlen : (length (stack s) - 1 = length below)%nat)
    by (rewrite Hst, length_app; cbn [length]; lia).
  assert (Hadd : add_at (length (stack s) - 1)
                   (pair_profile (trim raw) t1 d1 t2 d2) (stack s) =
                 Some (below ++ [add_to (pair_profile (trim raw) t1 d1 t2 d2)
                                        parent])%list).
  { unfold add_at. rewrite Hlen, Hst, nth_error_last, Hthrows.
    now rewrite update_last. }
  eexists. split; [|split].
  - cbn [run]. unfold step at 1. rewrite valid_guard, V, Hp. cbn [negb].
    unfold step. rewrite valid_guard, V, Hp. cbn [negb].
    unfold step_end. cbn [stack events].
    rewrite (find_open_last _ _ (stack s)); [|rewrite Hst; now destruct below|apply pushed_key].
    rewrite nth_error_last, splice_last. cbn [root].
    unfold pair_profile, closed_profile in Hadd. rewrite Hadd.
    reflexivity.
  - reflexivity.
  - reflexivity.
Qed.

Lemma holds_add i parent n t1 d1 t2 d2 :
  i <> "" -> inherited i = false -> truthy_time t1 = true ->
  holds i parent n ->
  holds i (add_to (pair_profile i t1 d1 t2 d2) parent) (S n).
Proof.
  intros Hi Hin Ht Hn.
  destruct (pair_profile_fields i t1 d1 t2 d2) as (Hid & Hd & Hs).
  specialize (Hs Ht). apply truthy_iff in Hi.
  unfold holds in *. unfold add_to. cbn [focus].
  destruct (lookup i (children (focus parent))) as [arr|] eqn:E.
  - destruct Hn as [Hlen [t Hl]].
    rewrite (add_append _ _ arr t); rewrite ?Hid; auto.
    cbn [children with_children]. rewrite lookup_set_same.
    rewrite length_app, last_start_app, Hs. cbn [length]. split; [lia|eauto].
  - rewrite add_first; rewrite ?Hid; auto.
    cbn [children with_children]. rewrite lookup_set_same.
    subst n. split; [reflexivity|]. exists t1.
    rewrite <- Hs. exact (last_start_app [] _).
Qed.

Lemma repeated_pairs raw ts : forall s below parent n,
  valid raw = true -> contains "/" raw = false -> contains ":" raw = false ->
  inherited (trim raw) = false ->
  Forall started ts ->
  stack s = (below ++ [parent])%list -> holds (trim raw) parent n ->
  exists s' parent',
    run s (repeated raw ts) = Some (s', []) /\
    stack s' = (below ++ [parent'])%list /\
    spine parent' = spine parent /\
    holds (trim raw) parent' (n + length ts).
Proof.
  induction ts as [|[[[t1 d1] t2] d2] ts IH];
    intros s below parent n V Hs Hc Hin Hall Hst Hn.
  - exists s, parent. cbn. rewrite Nat.add_0_r. auto.
  - inversion Hall as [|? ? Hx Hall']; subst. cbn in Hx.
    destruct (parse_single raw V Hs Hc) as [_ Hne].
    destruct (one_pair s below parent raw t1 d1 t2 d2 V Hs Hc Hst
                (add_pair_returns _ _ _ t1 d1 t2 d2 Hne Hin Hn))
      as (s1 & Hrun & Hst1 & _).
    pose proof (holds_add _ _ _ t1 d1 t2 d2 Hne Hin Hx Hn) as Hn1.
    destruct (IH s1 below _ (S n) V Hs Hc Hin Hall' Hst1 Hn1)
      as (s' & parent' & Hrun' & Hst' & Hsp & Hn').
    exists s', parent'.
    split; [|split; [exact Hst'|split; [exact Hsp|]]].
    + change (repeated raw ((t1, d1, t2, d2) :: ts))
        with ([Start raw t1 d1; End raw t2 d2] ++ repeated raw ts)%list.
      rewrite (run_app _ s s1 [] _ Hrun), Hrun'. reflexivity.
    + cbn [length]. now rewrite Nat.add_succ_r.
Qed.

(** C5.  For a valid key of one segment, not rooted, without label
    and not the name of a member of [Object.prototype], [start(k)],
    [end(k)] issued [N >= 1] times in sequence on top of any stack,
    with time stamps the clock can deliver for [start] (an [hrtime]
    pair or a non-zero number), return and leave exactly [N] sibling
    occurrences in the child array of the parent for the id of [k],
    when the parent had no child of that id before. *)
Theorem repeated_pairs_make_siblings raw ts s below parent :
  valid raw = true -> contains "/" raw = false -> contains ":" raw = false ->
  inherited (trim raw) = false ->
  Forall started ts ->
  stack s = (below ++ [parent])%list ->
  lookup (trim raw) (children (focus parent)) = None ->
  (1 <= length ts)%nat ->
  exists s' parent' occurrences,
    run s (repeated raw ts) = Some (s', []) /\
    stack s' = (below ++ [parent'])%list /\
    lookup (trim raw) (children (focus parent')) = Some occurrences /\
    length occurrences = length ts.
Proof.
  intros V Hs Hc Hin Hall Hst Hl HN.
  assert (Hn : holds (trim raw) parent 0) by (unfold holds; now rewrite Hl).
  destruct (repeated_pairs raw ts s below parent 0%nat V Hs Hc Hin Hall Hst Hn)
    as (s' & parent' & Hrun & Hst' & _ & Hn').
  unfold holds in Hn'.
  destruct (lookup (trim raw) (children (focus parent'))) as [occ|] eqn:E.
  - exists s', parent', occ. destruct Hn' as [Hlen _]. auto.
  - simpl in Hn'. lia.
Qed.

End RepeatFacts.

Module StatsFacts.
Import JsString Num Obj Rows Stats Props ObjFacts.
Local Open Scope string_scope.
Local Open Scope Z_scope.

Lemma finite_sub o : finite o -> sub (sv_endTime o) (sv_startTime o) = Fin (span o).
Proof. intros (a & b & Ha & Hb). unfold span. now rewrite Ha, Hb. Qed.

Lemma total_span_app l o : total_span (l ++ [o]) = total_span l + span o.
Proof. induction l as [|x l IH]; simpl; [lia|]. unfold total_span in *. simpl. rewrite IH. lia. Qed.

Lemma summarises_step seen f o :
  finite o -> summarises seen f -> summarises (seen ++ [o]) (accumulate f o).
Proof.
  intros Ho [Ht Hm]. unfold accumulate. rewrite (finite_sub o Ho).
  split.
  - cbn [f_total]. rewrite Ht, total_span_app. reflexivity.
  - destruct (seen ++ [o])%list eqn:E; [now destruct seen|]. rewrite <- E. clear E.
    cbn [f_min f_max].
    destruct seen as [|x seen'].
    + destruct Hm as [-> ->]. split; exists o; simpl; repeat split; auto.
      all: intros o' [<-|[]]; lia.
    + remember (x :: seen') as seen.
      destruct Hm as [(omin & Hin & -> & Hmin) (omax & Hax & -> & Hmax)].
      split.
      * unfold lt. destruct (Z.ltb (span o) (span omin)) eqn:L.
        -- apply Z.ltb_lt in L. exists o. repeat split.
           ++ apply in_or_app. right. now left.
           ++ intros o' Hin'. apply in_app_or in Hin' as [H|[<-|[]]]; [|lia].
              specialize (Hmin o' H). lia.
        -- apply Z.ltb_ge in L. exists omin. repeat split.
           ++ apply in_or_app. now left.
           ++ intros o' Hin'. apply in_app_or in Hin' as [H|[<-|[]]]; auto.
      * unfold gt, lt. destruct (Z.ltb (span omax) (span o)) eqn:L.
        -- apply Z.ltb_lt in L. exists o. repeat split.
           ++ apply in_or_app. right. now left.
           ++ intros o' Hin'. apply in_app_or in Hin' as [H|[<-|[]]]; [|lia].
              specialize (Hmax o' H). lia.
        -- apply Z.ltb_ge in L. exists omax. repeat split.
           ++ apply in_or_app. now left.
           ++ intros o' Hin'. apply in_app_or in Hin' as [H|[<-|[]]]; auto.
Qed.

Lemma summarises_fold arr : forall seen f,
  Forall finite arr -> summarises seen f ->
  summarises (seen ++ arr) (fold_left accumulate arr f).
Proof.
  induction arr as [|o arr IH]; intros seen f Hall Hs.
  - now rewrite app_nil_r.
  - inversion Hall; subst. simpl.
    replace (seen ++ o :: arr)%list with ((seen ++ [o]) ++ arr)%list
      by now rewrite <- app_assoc.
    apply IH; [assumption|]. now apply summarises_step.
Qed.

Lemma figures_summarise arr : Forall finite arr -> summarises arr (figures arr).
Proof.
  intros H. apply (summarises_fold arr [] _ H). split; [reflexivity|]. split; reflexivity.
Qed.

Lemma summary_fold arr : forall f,
  Forall finite arr ->
  f_summary (fold_left accumulate arr f) =
  (f_summary f ++ map summary_of arr)%list.
Proof.
  induction arr as [|o arr IH]; intros f Hall; simpl.
  - now rewrite app_nil_r.
  - inversion Hall; subst. rewrite IH by assumption.
    unfold accumulate. cbn [f_summary].
    rewrite (finite_sub o) by assumption.
    now rewrite <- app_assoc.
Qed.

Lemma annotation_empty statType name :
  annotation statType name = "" <-> name = Some statType.
Proof.
  unfold annotation. destruct name as [n|]; [|split; discriminate].
  destruct (String.eqb n statType) eqn:E.
  - apply String.eqb_eq in E. subst. split; auto.
  - apply String.eqb_neq in E. split; [discriminate|]. intros H. congruence.
Qed.

(** C8.  For a bucket whose occurrences carry numeric times, the
    summary lists every occurrence with the name recorded with it
    ([statValue.root]) and its duration [endTime - startTime]; the
    total is the sum of these durations, the minimum and the maximum
    are those of an occurrence of the bucket, least and greatest among
    all, and the texts [Total Duration], [Min Duration] and
    [Max Duration] are these figures printed, the last two followed by
    the name recorded with that occurrence in brackets unless it is the
    name of the bucket.  The name recorded is the one [getStats] was
    given for the level, [root || row.Name]: the name of the top-level
    row for that row and for every row below it.  The bucket ends as
    these figures exactly when [statsFilter] does not evaluate to
    [false]; it stays the array of its occurrences when it does, and
    the loop throws when the substitution of the filter throws. *)
Theorem bucket_figures (js_eval : string -> EvalResult)
        (substitute : string -> Values -> option string)
        (msTimeToString : value -> string)
        (msAvgToString : num -> nat -> string)
        (array_sort : forall A : Type, (A -> A -> num) -> list A -> list A)
        (statsFilter : option string)
        (statType : string) (statArray : list StatValue) :
  statArray <> [] -> Forall finite statArray ->
  exists st omin omax,
    st = finish_stat msTimeToString msAvgToString array_sort statType
                     (length statArray) (figures statArray) /\
    bucket js_eval substitute msTimeToString msAvgToString array_sort
           statsFilter statType statArray =
      match executeExpression js_eval substitute statsFilter
              (stat_values statType (length statArray) (figures statArray))
      with
      | None => None
      | Some (v, log) =>
          Some (if is_false v then Raw statArray else Finished st, log)
      end /\
    (statsFilter = None ->
     bucket js_eval substitute msTimeToString msAvgToString array_sort
            statsFilter statType statArray = Some (Finished st, [])) /\
    f_summary (figures statArray) = map summary_of statArray /\
    f_total (figures statArray) = Fin (total_span statArray) /\
    st_Total st = msTimeToString (Some (Fin (total_span statArray))) /\
    In omin statArray /\ (forall o, In o statArray -> span omin <= span o) /\
    st_Min st = (msTimeToString (Some (Fin (span omin))) ++
                 annotation statType (sv_root omin))%string /\
    In omax statArray /\ (forall o, In o statArray -> span o <= span omax) /\
    st_Max st = (msTimeToString (Some (Fin (span omax))) ++
                 annotation statType (sv_root omax))%string /\
    (forall name, annotation statType name = "" <-> name = Some statType) /\
    (forall r, root_or None r = lookup "Name" (s_data r)) /\
    (forall n r, truthy n = true -> root_or (Some n) r = Some n).
Proof.
  intros Hne Hall.
  destruct (figures_summarise statArray Hall) as [Ht Hm].
  destruct statArray as [|x rest]; [congruence|].
  destruct Hm as [(omin & Hin & Emin & Hmin) (omax & Hax & Emax & Hmax)].
  eexists _, omin, omax. split; [reflexivity|].
  split.
  { unfold bucket.
    destruct (executeExpression js_eval substitute statsFilter _) as [[v lg]|];
      [|reflexivity].
    now destruct (is_false v). }
  split.
  { intros ->. reflexivity. }
  split; [exact (summary_fold _ _ Hall)|].
  split; [exact Ht|].
  unfold finish_stat. cbn [st_Total st_Min st_Max].
  rewrite Ht, Emin, Emax. cbn [extreme_value extreme_name].
  repeat split; auto; try apply annotation_empty.
  intros n r Hn. unfold root_or. now rewrite Hn.
Qed.







End StatsFacts.

Module LifeCycleFacts.
Import JsString Key Num Obj Prof Reconciler Rows Stats Waterfall Props.
Local Open Scope string_scope.





End LifeCycleFacts.

Module Scenarios.
Import JsString Key Num Obj Prof Reconciler Rows Props.
Local Open Scope string_scope.

Lemma offset_inj (x y : Z) :
  Some (Some (Fin x)) = Some (Some (Fin y)) -> x = y.
Proof. intros H; injection H; trivial. Qed.

(** C1, as amended.  For the trace [start("/r")], [start("/r/a")] at the
    origin, [end("/r/a")] 5 units later and [end("/r")] 10 units later,
    whatever the clock, the waterfall has the single row [r]; [r] has
    exactly one child row [a], whose single duration is [Elapsed Time]
    = 5; and [r] carries the single duration [Elapsed Time] = 10, the
    whole span: children are not duration buckets, so no [Other] bucket
    is synthesised. *)
Theorem nested_rows_elapsed (isBrowser : bool) (t0 t5 t10 : rawtime) :
  at_offset isBrowser t0 t0 0 ->
  at_offset isBrowser t0 t5 5 ->
  at_offset isBrowser t0 t10 10 ->
  rows_of isBrowser (nested_trace t0 t5 t10) =
  Some (Some [mkRow [("Name", "r")] [("Elapsed Time", Fin 10)]
                    (Some [leaf_row "a" 0 5]) (Some (Fin 0)) (Some (Fin 10))]).
Proof.
  destruct isBrowser, t0 as [[|?|?]|? ?], t5 as [[|?|?]|? ?],
           t10 as [[|?|?]|? ?];
    cbv [at_offset normalize truthy_time negb Z.eqb diff_ms diff_hr];
    intros H0 H5 H10; try discriminate;
    apply offset_inj in H0, H5, H10;
    cbv -[Z.sub Z.add Z.mul Z.min Z.max];
    rewrite ?H0, ?H5, ?H10; reflexivity.
Qed.

Lemma nested_rows_elapsed_witness :
  at_offset true (TNum 1000) (TNum 1000) 0 /\
  at_offset true (TNum 1000) (TNum 1005) 5 /\
  at_offset true (TNum 1000) (TNum 1010) 10 /\
  rows_of true (nested_trace (TNum 1000) (TNum 1005) (TNum 1010)) =
  Some (Some [mkRow [("Name", "r")] [("Elapsed Time", Fin 10)]
                    (Some [leaf_row "a" 0 5]) (Some (Fin 0)) (Some (Fin 10))]).
Proof.
  split; [reflexivity|]. split; [reflexivity|]. split; [reflexivity|].
  apply (nested_rows_elapsed true (TNum 1000) (TNum 1005) (TNum 1010));
    reflexivity.
Defined.

Ltac no_other H :=
  destruct H as (rs & r & a & label & E & Hin & _ & _ & _ & _ & Ho);
  vm_compute in E; injection E as <-;
  destruct Hin as [<-|[]]; vm_compute in Ho;
  destruct Ho as [Ho|[]]; discriminate Ho.

(** C1 as stated fails: on a browser clock (1000, 1005, 1010), on the
    [process.hrtime] clock, and with the literal time stamps 0, 5 and 10,
    row [r] carries no [Other] bucket of 5. *)
Lemma nested_rows_no_other_bucket :
  ~ other_bucket_of_five
      (rows_of true (nested_trace (TNum 1000) (TNum 1005) (TNum 1010))) /\
  ~ other_bucket_of_five
      (rows_of false (nested_trace (THr 7 100) (THr 7 105) (THr 7 110))) /\
  ~ other_bucket_of_five
      (rows_of true (nested_trace (TNum 0) (TNum 5) (TNum 10))).
Proof.
  repeat split; intros H; no_other H.
Qed.

(** C4.  For the trace [start("a:warm")], [end("a:warm")],
    [start("a:cold")], [end("a:cold")], whatever the time stamps, the
    root of the finished tree has exactly one child id, [a], bound to
    exactly one node with id [a], and that node carries the two duration
    buckets [warm] and [cold], in this order; nothing is logged. *)
Theorem labels_merge_into_one_node (t1 t2 t3 t4 : rawtime) :
  exists r p,
    processCalls (warm_cold t1 t2 t3 t4) = Some r /\
    children (rootProfile r) = [("a", [p])] /\
    id p = "a" /\
    option_map (map fst) (durations p) = Some ["warm"; "cold"] /\
    children p = [] /\
    r_log r = [].
Proof.
  destruct t1 as [[|?|?]|? ?], t2 as [[|?|?]|? ?], t3 as [[|?|?]|? ?],
           t4 as [[|?|?]|? ?];
    vm_compute; do 2 eexists; repeat split.
Qed.

End Scenarios.

Module MatchFacts.
Import JsString Regex Key Shape Num Obj Prof Reconciler Props KeyFacts.
Local Open Scope string_scope.

Lemma set_last_nonempty l x : l <> [] -> set_last l x <> [].
Proof.
  destruct l as [|y [|z l]]; [congruence|discriminate|discriminate].
Qed.


Lemma set_focus_key sd p : profileKey (set_focus sd p) = profileKey p.
Proof.
  unfold set_focus. destruct (cur_duration p) as [l|]; [|reflexivity].
  destruct (durations p) as [ds|]; [|reflexivity].
  destruct (lookup l ds); reflexivity.
Qed.

Lemma set_top_key sd e : profileKey (top (set sd e)) = profileKey (top e).
Proof.
  unfold set, map_top, top. cbn [spine focus].
  destruct (spine e); cbn [spine focus profileKey with_type];
    [apply set_focus_key | reflexivity].
Qed.

(** The key a pushed profile is found by is the canonical form of the
    key it was started with. *)
Lemma entry_key_pushed pk sd :
  profiles pk <> [] -> entry_key (set sd (newProfile pk)) = toString pk.
Proof.
  intros H. unfold entry_key. rewrite set_top_key.
  destruct pk as [ps dur rt]. cbn [profiles] in H.
  destruct ps as [|seg [|s segs]]; [congruence| |]; reflexivity.
Qed.




End MatchFacts.

Module Witnesses.
Import JsString Regex Key Shape Num Obj Prof Reconciler Rows Stats Waterfall.
Import Props Demo KeyFacts ReconcilerFacts RepeatFacts StatsFacts LifeCycleFacts.
Local Open Scope string_scope.


Lemma malformed_key_dropped_witness :
  run init [] = Some (init, []) /\
  valid "a//b" = false /\
  malformed (Start "a//b" (TNum 1) []) "a//b" /\
  exists s1,
    step init (Start "a//b" (TNum 1) []) =
      Some (s1, [error "Invalid profile." "a//b"]) /\
    stack s1 = stack init.
Proof.
  assert (H3 : malformed (Start "a//b" (TNum 1) []) "a//b")
    by (exists (TNum 1), []; now left).
  split; [reflexivity|]. split; [reflexivity|]. split; [exact H3|].
  destruct (malformed_key_dropped [] span_x "a//b" (Start "a//b" (TNum 1) [])
              init [] eq_refl eq_refl H3)
    as (s1 & A & B & _).
  exists s1. split; [exact A | exact B].
Defined.


Lemma repeated_pairs_make_siblings_witness :
  valid "k" = true /\ contains "/" "k" = false /\ contains ":" "k" = false /\
  inherited (trim "k") = false /\
  Forall started two_pairs /\
  stack init = ([] ++ [rootEntry])%list /\
  lookup (trim "k") (children (focus rootEntry)) = None /\
  (1 <= length two_pairs)%nat /\
  exists s' parent' occurrences,
    run init (repeated "k" two_pairs) = Some (s', []) /\
    lookup "k" (children (focus parent')) = Some occurrences /\
    length occurrences = 2%nat.
Proof.
  assert (H4 : Forall started two_pairs)
    by (repeat constructor).
  assert (H7 : (1 <= length two_pairs)%nat) by (simpl; lia).
  split; [reflexivity|]. split; [reflexivity|]. split; [reflexivity|].
  split; [reflexivity|].
  split; [exact H4|]. split; [reflexivity|]. split; [reflexivity|].
  split; [exact H7|].
  destruct (repeated_pairs_make_siblings "k" two_pairs init [] rootEntry
              eq_refl eq_refl eq_refl eq_refl H4 eq_refl eq_refl H7)
    as (s' & parent' & occ & A & _ & B & C).
  exists s', parent', occ. auto.
Defined.

Lemma bucket_figures_witness :
  two_occurrences <> [] /\ Forall finite two_occurrences /\
  exists st,
    st_Total st = "7ms" /\ st_Min st = "2ms" /\ st_Max st = "5ms (r)".
Proof.
  assert (H1 : two_occurrences <> []) by discriminate.
  assert (H2 : Forall finite two_occurrences).
  { repeat constructor; eexists _, _; split; reflexivity. }
  split; [exact H1|]. split; [exact H2|].
  destruct (bucket_figures eval_throws substitute_none ms_text avg_text
              keep_order None "a" two_occurrences H1 H2)
    as (st & omin & omax & E & _).
  exists st. rewrite E. repeat split.
Defined.



End Witnesses.

Module Examples.
Import JsString Regex Key Shape Num Obj Prof Reconciler Rows Props Demo.
Local Open Scope string_scope.

(** The check of line 662 on a few keys. *)
Example valid_samples :
  map valid ["a"; "/r/a"; "a:warm"; " a/b "; "a//b"; "a/"; ":x"; "a:b:c"; ""]
  = [true; true; true; true; false; false; false; false; false].
Proof. reflexivity. Qed.

Example parse_sample :
  parse "/a / b : x" = Some (mkKey ["a"; "b"] (Some "x") true).
Proof. reflexivity. Qed.

(** A malformed [start] that comes first sets the origin of the
    instance, although it is dropped from the tree. *)
Example malformed_start_moves_origin :
  option_map r_origin (processCalls span_x) = Some (Some (TNum 2)) /\
  option_map r_origin (processCalls (Start "a//b" (TNum 1) [] :: span_x))
    = Some (Some (TNum 1)).
Proof. split; reflexivity. Qed.

(** Buckets that cover less than the span do get an [Other] bucket. *)
Example other_bucket_for_labels :
  rows_of true (warm_cold (TNum 1) (TNum 2) (TNum 3) (TNum 7)) =
  Some (Some [mkRow [("Name", "a")]
                    [("warm", Fin 1); ("cold", Fin 4); ("Other", Fin 1)]
                    None (Some (Fin 0)) (Some (Fin 6))]).
Proof. reflexivity. Qed.

(** Keys that spell array indices are enumerated first, in numeric
    order, whatever the order in which they were set. *)
Example index_keys_come_first :
  map fst (Obj.set "2" 0 (Obj.set "10" 0 (Obj.set "b" 0 (Obj.set "a" 0 []))))
  = ["2"; "10"; "a"; "b"] /\
  map fst (Obj.set "01" 0 (Obj.set "1" 0 (Obj.set "x" 0 []))) =
  ["1"; "x"; "01"].
Proof. split; reflexivity. Qed.

End Examples.

Module Counterexamples.
Import JsString Regex Key Shape Num Obj Prof Reconciler Rows Stats Waterfall.
Import Props Demo.
Local Open Scope string_scope.



(** C5 as stated fails: two pairs for the key [a:x], of one segment,
    leave one occurrence of [a], to which the bucket [x] is added;
    two pairs whose [start] is stamped 0 leave one occurrence; and two
    pairs for the key [constructor] throw. *)
Lemma pairs_that_make_no_siblings :
  option_map (fun r => map (fun kv => (fst kv, length (snd kv)))
                           (children (rootProfile r)))
    (processCalls (repeated "a:x" two_pairs)) = Some [("a", 1%nat)] /\
  option_map (fun r => map (fun kv => (fst kv, length (snd kv)))
                           (children (rootProfile r)))
    (processCalls (repeated "k" [(TNum 0, [], TNum 2, []);
                                 (TNum 3, [], TNum 4, [])]))
    = Some [("k", 1%nat)] /\
  processCalls (repeated "constructor" two_pairs) = None.
Proof. repeat split. Qed.


(** C8 as stated fails: in the statistics of the rows [r] and [a]
    below it, the one occurrence of the bucket [a] is the row named
    [a], and the minimum of the bucket is annotated with [r], the name
    of the top-level row, although the name of the occurrence is the
    name of the bucket. *)
Lemma nested_occurrence_named_after_root :
  exists st sa,
    computeStats eval_throws substitute_none ms_number ms_text avg_text
                 keep_order "ms" None None (Some nested_rows) = Some st /\
    lookup "a" (sr_buckets st) = Some (Finished sa) /\
    st_Calls sa = 1%nat /\
    st_Min sa = "5ms (r)" /\
    st_Min sa <> ms_text (Some (Fin 5)) ++ annotation "a" (Some "a").
Proof.
  do 2 eexists. split; [vm_compute; reflexivity|].
  split; [reflexivity|]. split; [reflexivity|]. split; [reflexivity|].
  discriminate.
Qed.


End Counterexamples.

Module ObjMore.
Import JsString Obj ObjFacts.
Local Open Scope string_scope.

Lemma set_set (V : Type) k (v w : V) o :
  Obj.set k v (Obj.set k w o) = Obj.set k v o.
Proof.
  unfold Obj.set at 1. rewrite lookup_set_same.
  unfold Obj.set. destruct (lookup k o) eqn:L.
  - apply replace_replace.
  - now apply replace_insert.
Qed.

End ObjMore.

Module KeyMore.
Import JsString Regex Key Shape Props KeyFacts MatchFacts KeyProps.
Local Open Scope string_scope.

(** X1.  [PROFILE_KEY_REGEX] accepts exactly the keys laid out as an
    optional leading [/], one or more segments separated by single [/],
    and an optional [:] followed by a label, where segments and label
    are non-empty and hold neither [/] nor [:]. *)
Theorem key_grammar (k : string) :
  Regex.test PROFILE_KEY_REGEX k = true <->
  exists rooted seg segs lab,
    plain seg /\ Forall plain segs /\ plain_label lab /\
    k = render rooted seg segs lab.
Proof.
  split.
  - intros H. now apply scan_init_shape, regex_scan.
  - intros (rooted & seg & segs & lab & A & B & C & ->).
    now apply lang_test, render_lang.
Qed.

Lemma filter_trim_nil l :
  filter truthy (map trim l) = [] <-> Forall blank l.
Proof.
  induction l as [|x l IH]; simpl.
  - split; auto.
  - unfold blank at 1. destruct (trim x) eqn:E; simpl.
    + rewrite IH. split; intros H; [constructor; auto | now inversion H].
    + split; [discriminate|]. intros H. inversion H; subst. unfold blank in *. congruence.
Qed.

(** X2.  [new ProfileKey(key)] throws exactly when every part of the
    key between two [/] is empty or white space, so that [profiles]
    stays empty: the empty key, [/], [" / "] and the like.  On every
    other key it returns. *)
Theorem constructor_throws_iff_blank (k : string) :
  parse k = None <-> Forall blank (split "/" k).
Proof.
  rewrite <- filter_trim_nil. unfold parse.
  destruct (filter truthy (map trim (split "/" k))) as [|p ps].
  - split; reflexivity.
  - destruct (contains ":" _); split; discriminate.
Qed.

Lemma trim_right_nil_left s : trim_right s = "" -> trim_left s = "".
Proof.
  induction s as [|c s IH]; [reflexivity|]. cbn [trim_right trim_left].
  destruct (trim_right s) eqn:E; [|discriminate].
  destruct (is_ws c); [auto|discriminate].
Qed.

Lemma trim_left_nil_right s : trim_left s = "" -> trim_right s = "".
Proof.
  induction s as [|c s IH]; [reflexivity|]. cbn [trim_right trim_left].
  destruct (is_ws c) eqn:W; [|discriminate].
  intros H. now rewrite (IH H).
Qed.

Lemma trim_left_idem s : trim_left (trim_left s) = trim_left s.
Proof. apply trim_left_clean, trim_left_head_ok. Qed.

Lemma blank_left s : blank s <-> trim_left s = "".
Proof.
  unfold blank, trim. split.
  - intros H. apply trim_right_nil_left in H. now rewrite trim_left_idem in H.
  - intros ->. reflexivity.
Qed.

Lemma blank_right s : blank s <-> trim_right s = "".
Proof.
  rewrite blank_left. split; [apply trim_left_nil_right | apply trim_right_nil_left].
Qed.

Lemma trim_left_right_comm s : trim_left (trim_right s) = trim_right (trim_left s).
Proof.
  induction s as [|c s IH]; [reflexivity|].
  cbn [trim_left]. destruct (is_ws c) eqn:W.
  - cbn [trim_right]. destruct (trim_right s) as [|d r] eqn:E.
    + rewrite W. rewrite (trim_right_nil_left s E). reflexivity.
    + cbn [trim_left]. rewrite W. exact IH.
  - cbn [trim_right]. destruct (trim_right s) as [|d r] eqn:E;
      rewrite ?W; cbn [trim_left]; now rewrite W.
Qed.

Lemma trim_left_app a b : ~ blank a -> trim_left (a ++ b) = trim_left a ++ b.
Proof.
  rewrite blank_left. induction a as [|c a IH]; intros H; [now elim H|].
  cbn [append trim_left] in *. destruct (is_ws c); [auto|reflexivity].
Qed.

Lemma trim_right_app a b : ~ blank b -> trim_right (a ++ b) = a ++ trim_right b.
Proof.
  rewrite blank_right. intros H. induction a as [|c a IH]; [reflexivity|].
  cbn [append trim_right]. rewrite IH.
  destruct (a ++ trim_right b) eqn:E; [|reflexivity].
  destruct a; simpl in E; [congruence|discriminate].
Qed.

Lemma nonblank_nonempty s : ~ blank s -> s <> "".
Proof. intros H E. subst. now apply H. Qed.

Lemma nonblank_app_r a b : ~ blank b -> ~ blank (a ++ b).
Proof.
  intros Hb H. apply (proj1 (blank_right _)) in H.
  rewrite trim_right_app in H by assumption.
  apply Hb, blank_right. destruct a; [exact H|discriminate].
Qed.

Lemma trim_app a b : ~ blank a -> ~ blank b ->
  trim (a ++ b) = trim_left a ++ trim_right b.
Proof.
  intros Ha Hb. unfold trim. rewrite trim_left_app by assumption.
  now apply trim_right_app.
Qed.

Lemma trim_of_trim_left s : trim (trim_left s) = trim s.
Proof. unfold trim. now rewrite trim_left_idem. Qed.

Lemma trim_of_trim_right s : trim (trim_right s) = trim s.
Proof.
  unfold trim. rewrite trim_left_right_comm.
  apply trim_right_clean, trim_right_last_ok.
Qed.

Lemma plain_trim s : plain s -> ~ blank s -> plain (trim s).
Proof.
  intros [_ Hs] Hb. split; [exact Hb|].
  unfold sepfree in *. apply andb_true_iff in Hs as [A B].
  apply negb_true_iff in A, B.
  now rewrite (contains_trim _ _ A), (contains_trim _ _ B).
Qed.

Lemma map_trim_attach segs : forall seg suffix,
  map trim (attach seg segs suffix) =
  set_last (map trim (seg :: segs)) (trim (last (seg :: segs) "" ++ suffix)).
Proof.
  induction segs as [|s segs IH]; intros seg suffix; [reflexivity|].
  change (attach seg (s :: segs) suffix) with (seg :: attach s segs suffix).
  change (last (seg :: s :: segs) "") with (last (s :: segs) "").
  cbn [map]. rewrite IH. cbn [map]. reflexivity.
Qed.

Lemma last_cons_nonempty (x : string) l : l <> [] -> last (x :: l) "" = last l "".
Proof. destruct l; [congruence|reflexivity]. Qed.

Lemma last_set_last l v : l <> [] -> last (set_last l v) "" = v.
Proof.
  induction l as [|x l IH]; [congruence|]. intros _.
  destruct l as [|y l]; [reflexivity|].
  change (set_last (x :: y :: l) v) with (x :: set_last (y :: l) v).
  rewrite last_cons_nonempty by (apply set_last_nonempty; discriminate).
  apply IH. discriminate.
Qed.

Lemma set_last_twice l v w : set_last (set_last l v) w = set_last l w.
Proof.
  induction l as [|x l IH]; [reflexivity|].
  destruct l as [|y l]; [reflexivity|].
  change (set_last (x :: y :: l) v) with (x :: set_last (y :: l) v).
  change (set_last (x :: y :: l) w) with (x :: set_last (y :: l) w).
  rewrite <- IH.
  assert (H : set_last (y :: l) v <> []) by (apply set_last_nonempty; discriminate).
  destruct (set_last (y :: l) v); [congruence|reflexivity].
Qed.

Lemma set_last_self l : l <> [] -> set_last l (last l "") = l.
Proof.
  induction l as [|x l IH]; [congruence|]. intros _.
  destruct l as [|y l]; [reflexivity|].
  change (set_last (x :: y :: l) (last (x :: y :: l) ""))
    with (x :: set_last (y :: l) (last (y :: l) "")).
  rewrite IH by discriminate. reflexivity.
Qed.

Lemma last_map_trim l : last (map trim l) "" = trim (last l "").
Proof.
  induction l as [|x l IH]; [reflexivity|].
  destruct l as [|y l]; [reflexivity|]. exact IH.
Qed.

Lemma Forall_set_last (P : string -> Prop) l v :
  Forall P l -> P v -> Forall P (set_last l v).
Proof.
  induction 1 as [|x l Hx Hl IH]; intros Hv; [constructor|].
  destruct l as [|y l]; [constructor; auto|].
  change (set_last (x :: y :: l) v) with (x :: set_last (y :: l) v).
  constructor; auto.
Qed.

Lemma filter_truthy_all l : Forall (fun x => x <> "") l -> filter truthy l = l.
Proof.
  induction 1 as [|x l Hx _ IH]; simpl; [reflexivity|].
  apply truthy_iff in Hx. now rewrite Hx, IH.
Qed.

Lemma nonblank_lab_str lab l : lab = Some l -> ~ blank l -> ~ blank (lab_str lab).
Proof. intros -> H. simpl. now apply (nonblank_app_r ":" l). Qed.

(** The last part with its label, trimmed. *)
Lemma trim_last_part x lab :
  ~ blank x -> nonblank_label lab ->
  trim (x ++ lab_str lab) =
  match lab with
  | Some l => trim_left x ++ ":" ++ trim_right l
  | None => trim x
  end.
Proof.
  intros Hx Hl. destruct lab as [l|]; simpl in *.
  - rewrite trim_app; auto.
    + f_equal. apply (trim_right_app ":" l Hl).
    + now apply (nonblank_app_r ":" l).
  - now rewrite app_empty_r.
Qed.

(** The constructor on a key laid out from its parts, white space
    around the parts included. *)
Lemma parse_padded rooted seg segs lab :
  plain seg -> Forall plain segs -> plain_label lab ->
  Forall (fun x => ~ blank x) (seg :: segs) -> nonblank_label lab ->
  parse (render rooted seg segs lab) =
    Some (mkKey (map trim (seg :: segs)) (option_map trim lab) rooted).
Proof.
  intros Hseg Hsegs Hlab Hnb Hnl.
  assert (Hall : Forall plain (seg :: segs)) by now constructor.
  assert (Hlastp : plain (last (seg :: segs) "")) by now apply last_forall.
  assert (Hlastn : ~ blank (last (seg :: segs) ""))
    by now apply (last_forall (fun x => ~ blank x)).
  set (lastx := last (seg :: segs) "") in *.
  set (body := seg ++ tail_str segs ++ lab_str lab).
  assert (Hsplit : split "/" body = attach seg segs (lab_str lab)).
  { apply split_attach; auto using Forall_plain_slash, lab_str_slash.
    apply sepfree_slash, Hseg. }
  assert (Hv : trim (lastx ++ lab_str lab) <> "").
  { rewrite trim_last_part by assumption. destruct lab as [l|].
    - intros E. apply append_nil_inv in E as [E _].
      apply Hlastn, blank_left, E.
    - exact Hlastn. }
  assert (Hps : filter truthy (map trim (split "/" (render rooted seg segs lab))) =
                set_last (map trim (seg :: segs)) (trim (lastx ++ lab_str lab))).
  { assert (Hkeep : filter truthy (map trim (attach seg segs (lab_str lab))) =
                    set_last (map trim (seg :: segs)) (trim (lastx ++ lab_str lab))).
    { rewrite map_trim_attach. apply filter_truthy_all.
      apply Forall_set_last; [|exact Hv].
      apply Forall_map. revert Hnb. apply Forall_impl. intros a Ha. exact Ha. }
    unfold render. fold body. destruct rooted.
    - change ("/" ++ body) with (String "/" body). simpl split.
      rewrite Hsplit. cbn [map filter]. exact Hkeep.
    - simpl. rewrite Hsplit. exact Hkeep. }
  assert (Hroot : starts_with "/" (render rooted seg segs lab) = rooted).
  { unfold render. destruct rooted; [reflexivity|].
    simpl. destruct Hseg as [Hne Hs]. destruct seg as [|c s]; [congruence|].
    apply sepfree_slash in Hs. simpl in *. apply orb_false_iff in Hs as [A _]. exact A. }
  assert (Hmne : map trim (seg :: segs) <> []) by discriminate.
  rewrite (parse_parts _ _ Hps) by (apply set_last_nonempty; exact Hmne).
  rewrite last_set_last by exact Hmne. rewrite Hroot.
  rewrite trim_last_part by assumption.
  destruct lab as [l|].
  - simpl in Hlab, Hnl.
    assert (Hc : contains ":" (trim_left lastx) = false).
    { apply contains_trim_left, sepfree_colon, Hlastp. }
    rewrite contains_app, Hc. cbn [contains orb Ascii.eqb].
    change ((":" =? ":")%char) with true. cbn [orb].
    change (trim_left lastx ++ ":" ++ trim_right l)
      with (trim_left lastx ++ String ":" (trim_right l)).
    rewrite split_free_app by exact Hc.
    rewrite split_free by (apply contains_trim_right, sepfree_colon, Hlab).
    cbn [nth]. rewrite set_last_twice, trim_of_trim_left, trim_of_trim_right.
    unfold lastx. rewrite <- last_map_trim.
    rewrite set_last_self by exact Hmne. reflexivity.
  - rewrite (sepfree_colon _ (proj2 (plain_trim _ Hlastp Hlastn))).
    unfold lastx. rewrite <- last_map_trim.
    rewrite set_last_self by exact Hmne. reflexivity.
Qed.

(** X3.  White space around the segments and around the label of a key
    does not count: when no segment and no label is blank, the
    constructor keeps each segment and the label trimmed, and [toString]
    lays the trimmed parts out again. *)
Theorem parse_ignores_padding rooted seg segs lab :
  plain seg -> Forall plain segs -> plain_label lab ->
  Forall (fun x => ~ blank x) (seg :: segs) -> nonblank_label lab ->
  parse (render rooted seg segs lab) =
    Some (mkKey (map trim (seg :: segs)) (option_map trim lab) rooted) /\
  toString (mkKey (map trim (seg :: segs)) (option_map trim lab) rooted) =
    render rooted (trim seg) (map trim segs) (option_map trim lab).
Proof.
  intros Hseg Hsegs Hlab Hnb Hnl. split; [now apply parse_padded|].
  cbn [map]. apply toString_render.
  destruct lab as [l|]; [|exact I]. simpl in *. now apply plain_trim.
Qed.

End KeyMore.

Module LogFacts.
Import JsString Regex Key Shape Num Obj Prof Reconciler Props ObjFacts KeyFacts ObjMore ProfFacts.
Import ReconcilerFacts RepeatFacts MatchFacts LogProps.
Local Open Scope string_scope.

Lemma step_events s c s' log :
  step s c = Some (s', log) ->
  events s' = (events s ++ event_records [c])%list /\
  absoluteStartTime s' = origin (absoluteStartTime s) c.
Proof.
  destruct c as [raw t d|raw t d|name t d]; unfold step; cbn [event_records flat_map app].
  - destruct (negb (truthy (trim raw)) || _).
    + intros H. injection H as <- <-. cbn. now rewrite app_nil_r.
    + destruct (parse (trim raw)); [|discriminate].
      intros H. injection H as <- <-. cbn. now rewrite app_nil_r.
  - destruct (negb (truthy (trim raw)) || _).
    + intros H. injection H as <- <-. cbn. now rewrite app_nil_r.
    + destruct (parse (trim raw)) as [pk|]; [|discriminate].
      unfold step_end.
      destruct (find_open (toString pk) (stack s)) as [i|].
      * destruct (nth_error (stack s) i).
        -- destruct (add_at _ _ _); [|discriminate].
           intros H; injection H as <- <-; cbn. now rewrite app_nil_r.
        -- intros H; injection H as <- <-; cbn. now rewrite app_nil_r.
      * intros H. injection H as <- <-. cbn. now rewrite app_nil_r.
  - intros H. injection H as <- <-. cbn. auto.
Qed.

Lemma run_events calls : forall s s' log,
  run s calls = Some (s', log) ->
  events s' = (events s ++ event_records calls)%list /\
  absoluteStartTime s' =
    match absoluteStartTime s with
    | Some a => Some a
    | None => first_time calls
    end.
Proof.
  induction calls as [|c calls IH]; intros s s' log H; simpl in H.
  - injection H as <- <-. cbn. rewrite app_nil_r. now destruct (absoluteStartTime s).
  - destruct (step s c) as [[s1 l1]|] eqn:E; [|discriminate].
    destruct (run s1 calls) as [[s2 l2]|] eqn:E2; [|discriminate].
    injection H as <- <-.
    destruct (step_events _ _ _ _ E) as [A B].
    destruct (IH _ _ _ E2) as [C D]. split.
    + rewrite C, A. rewrite <- app_assoc. f_equal.
      unfold event_records. cbn [flat_map]. now rewrite app_nil_r.
    + rewrite D, B. destruct (absoluteStartTime s); [reflexivity|].
      destruct c; reflexivity.
Qed.

Lemma finish_fields s log r :
  finish s log = Some r ->
  r_events r = events s /\ r_origin r = absoluteStartTime s.
Proof.
  unfold finish. destruct (stack s) as [|r0 above].
  - intros H. injection H as <-. auto.
  - destruct (sweep above (focus r0)) as [[rp lg]|]; [|discriminate].
    intros H. injection H as <-. auto.
Qed.

(** What [_processCalls] leaves in [events] and [absoluteStartTime]. *)
Lemma processCalls_events_origin (calls : list Call) r :
  processCalls calls = Some r ->
  r_events r = event_records calls /\ r_origin r = first_time calls.
Proof.
  unfold processCalls.
  destruct (run init calls) as [[s log]|] eqn:H; [|discriminate].
  intros F. destruct (finish_fields _ _ _ F) as [-> ->].
  destruct (run_events _ _ _ _ H) as [A B]. auto.
Qed.

Lemma step_without_start s c s' log :
  step s c = Some (s', log) -> first_time [c] = None ->
  stack s = [rootEntry] -> stack s' = [rootEntry] /\ events s' = events s.
Proof.
  destruct c as [raw t d|raw t d|name t d]; cbn [first_time]; try discriminate.
  intros H _ Hst. unfold step in H. cbv zeta in H.
  destruct (negb (truthy (trim raw)) || _).
  - injection H as <- _. auto.
  - destruct (parse (trim raw)) as [pk|]; [|discriminate].
    unfold step_end in H. rewrite Hst in H. cbn [find_open] in H.
    injection H as <- _. auto.
Qed.

Lemma run_without_start calls : forall s s' log,
  run s calls = Some (s', log) -> first_time calls = None ->
  stack s = [rootEntry] -> stack s' = [rootEntry] /\ events s' = events s.
Proof.
  induction calls as [|c calls IH]; intros s s' log H Hf Hst.
  - cbn in H. injection H as <- _. auto.
  - cbn [run] in H. destruct (step s c) as [[s1 l1]|] eqn:Hc; [|discriminate].
    destruct (run s1 calls) as [[s2 l2]|] eqn:Hr; [|discriminate].
    injection H as <- _.
    assert (Hc1 : first_time [c] = None /\ first_time calls = None).
    { destruct c; cbn [first_time] in *; try discriminate; auto. }
    destruct Hc1 as [Hc1 Hc2].
    destruct (step_without_start _ _ _ _ Hc Hc1 Hst) as [Hst1 He1].
    destruct (IH _ _ _ Hr Hc2 Hst1) as [A B]. split; [exact A|congruence].
Qed.


Lemma add_fixed p parent :
  closed (add p parent) = closed parent /\
  profileKey (add p parent) = profileKey parent /\
  type (add p parent) = type parent /\
  data (add p parent) = data parent /\
  startTime (add p parent) = startTime parent /\
  endTime (add p parent) = endTime parent.
Proof.
  rewrite add_eq, add_run_eq.
  destruct (negb (truthy (id p))); [repeat split|].
  destruct (lookup (id p) (children parent)) as [arr|].
  - destruct (last (map (fun x => Some x) arr) None) as [lp|]; [|repeat split].
    cbv zeta. destruct (durations p); [repeat split|].
    destruct (startTime lp); [repeat split|].
    destruct (children p); [repeat split|].
    destruct (add_each_key _ lp). repeat split.
  - destruct (inherited (id p)); repeat split.
Qed.

Lemma top_add_to p e :
  closed (top (add_to p e)) = closed (top e) /\
  entry_key (add_to p e) = entry_key e.
Proof.
  unfold entry_key, add_to, top. cbn [spine focus].
  destruct (spine e); [|auto].
  destruct (add_fixed p (focus e)) as (A & B & _). now rewrite A, B.
Qed.

Lemma set_focus_closed sd p : closed (set_focus sd p) = closed p.
Proof.
  unfold set_focus. destruct (cur_duration p) as [l|]; [|reflexivity].
  destruct (durations p) as [ds|]; [|reflexivity].
  destruct (lookup l ds); reflexivity.
Qed.

Lemma set_top_closed sd e : closed (top (set sd e)) = closed (top e).
Proof.
  unfold set, map_top, top. cbn [spine focus].
  destruct (spine e); cbn [spine focus closed with_type];
    [apply set_focus_closed | reflexivity].
Qed.

Lemma newProfile_open pk : closed (top (newProfile pk)) = false.
Proof.
  destruct pk as [ps dur rt]. unfold newProfile. cbn [profiles duration root].
  destruct ps as [|seg [|s segs]]; reflexivity.
Qed.

Lemma all_open_splice i st : all_open st -> all_open (splice i st).
Proof.
  unfold all_open. revert i. induction st as [|x st IH]; intros i H; [now destruct i|].
  inversion H; subst. destruct i; cbn; [assumption|]. constructor; auto.
Qed.

Lemma all_open_update j p st : all_open st -> all_open (update j (add_to p) st).
Proof.
  unfold all_open. revert j. induction st as [|x st IH]; intros j H; [now destruct j|].
  inversion H; subst. destruct j; cbn.
  - constructor; [|assumption]. now rewrite (proj1 (top_add_to p x)).
  - constructor; auto.
Qed.

Lemma step_all_open s c s' log :
  step s c = Some (s', log) -> all_open (stack s) -> all_open (stack s').
Proof.
  intros H Ho. destruct c as [raw t d|raw t d|name t d]; unfold step in H.
  - destruct (negb (truthy (trim raw)) || _).
    + injection H as <- <-. exact Ho.
    + destruct (parse (trim raw)) as [pk|]; [|discriminate].
      injection H as <- <-. cbn [stack]. apply Forall_app. split; [exact Ho|].
      constructor; [|constructor]. rewrite set_top_closed. apply newProfile_open.
  - destruct (negb (truthy (trim raw)) || _).
    + injection H as <- <-. exact Ho.
    + destruct (parse (trim raw)) as [pk|]; [|discriminate].
      unfold step_end in H.
      destruct (find_open (toString pk) (stack s)) as [i|].
      * destruct (nth_error (stack s) i).
        -- unfold add_at in H. destruct (nth_error _ _); [|discriminate].
           destruct (add_throws _ _); [discriminate|].
           injection H as <- <-; cbn [stack].
           now apply all_open_update, all_open_splice.
        -- injection H as <- <-. exact Ho.
      * injection H as <- <-. exact Ho.
  - injection H as <- <-. exact Ho.
Qed.

Lemma run_all_open calls : forall s s' log,
  run s calls = Some (s', log) -> all_open (stack s) -> all_open (stack s').
Proof.
  induction calls as [|c calls IH]; intros s s' log H Ho; simpl in H.
  - injection H as <- <-. exact Ho.
  - destruct (step s c) as [[s1 l1]|] eqn:E; [|discriminate].
    destruct (run s1 calls) as [[s2 l2]|] eqn:E2; [|discriminate].
    injection H as <- <-.
    eapply IH; [exact E2|]. eapply step_all_open; eauto.
Qed.

Lemma sweep_all_open above : forall rp r lg,
  sweep above rp = Some (r, lg) -> all_open above ->
  lg = map never_ended above.
Proof.
  induction above as [|e above IH]; intros rp r lg H Ho; cbn [sweep] in H.
  - now injection H as _ <-.
  - inversion Ho as [|? ? He Ho']; subst. rewrite He in H.
    destruct (salvage (plug e) rp) as [r1|]; [|discriminate].
    destruct (sweep above r1) as [[r2 lg2]|] eqn:E; [|discriminate].
    injection H as _ <-. cbn [map]. f_equal. eapply IH; eauto.
Qed.

(** X5.  For a log whose [start] keys have no segment named like a
    member of [Object.prototype], what [_processCalls] logs is what the
    loop over the calls logged, followed by one line
    [End was never called.] for each profile still on the stack above
    the root, bottom first: no profile on the stack is marked closed. *)
Theorem sweep_reports_open_profiles (calls : list Call) :
  forallb safe_call calls = true ->
  exists s log r,
    run init calls = Some (s, log) /\
    processCalls calls = Some r /\
    r_log r = (log ++ map never_ended (tl (stack s)))%list.
Proof.
  intros Hsafe.
  destruct (processCalls_safe calls Hsafe) as (r & Hr & _).
  unfold processCalls in *.
  destruct (run init calls) as [[s log]|] eqn:H; [|discriminate].
  exists s, log, r. split; [reflexivity|]. split; [exact Hr|].
  assert (Ho : all_open (stack s)).
  { eapply run_all_open; [exact H|]. repeat constructor. }
  unfold finish in Hr. destruct (stack s) as [|r0 above]; cbn.
  - injection Hr as <-. cbn. now rewrite app_nil_r.
  - inversion Ho; subst.
    destruct (sweep above (focus r0)) as [[rp lg]|] eqn:Es; [|discriminate].
    injection Hr as <-. cbn. f_equal. eapply sweep_all_open; eauto.
Qed.

Lemma profile_of_pair_fields i x :
  id (profile_of_pair i x) = i /\
  durations (profile_of_pair i x) = None /\
  children (profile_of_pair i x) = [] /\
  closed (profile_of_pair i x) = true /\
  (started x -> startTime (profile_of_pair i x) = Some (fst (fst (fst x)))) /\
  endTime (profile_of_pair i x) = Some (snd (fst x)).
Proof.
  destruct x as [[[t1 d1] t2] d2]. cbn [profile_of_pair started fst snd].
  repeat split. intros Ht. cbn. now rewrite Ht.
Qed.

(** A pair for a plain id is added without an exception, whatever its
    time stamps, when the parent has no empty array for the id. *)
Lemma pair_returns i x parent :
  i <> "" -> inherited i = false ->
  lookup i (children parent) <> Some [] ->
  add_throws (profile_of_pair i x) parent = false /\
  lookup i (children (add (profile_of_pair i x) parent)) <> Some [].
Proof.
  intros Hi Hin Hne.
  destruct (profile_of_pair_fields i x) as (Hid & Hd & Hch & _).
  apply truthy_iff in Hi as Ht.
  assert (T : add_throws (profile_of_pair i x) parent = false).
  { rewrite add_throws_eq, add_run_eq, Hid, Hd, Hch, Ht, Hin. cbn [negb].
    destruct (lookup i (children parent)) as [arr|]; [|reflexivity].
    destruct (last_some arr) as (init & lp & -> & ->); [congruence|].
    cbv zeta. now destruct (startTime lp). }
  split; [exact T|].
  destruct (add_binds (profile_of_pair i x) parent) as (arr & A & B & _);
    rewrite ?Hid; auto.
  rewrite Hid in A. rewrite A. congruence.
Qed.

Lemma run_repeated raw ts : forall s below parent,
  valid raw = true -> contains "/" raw = false -> contains ":" raw = false ->
  inherited (trim raw) = false ->
  stack s = (below ++ [parent])%list ->
  lookup (trim raw) (children (focus parent)) <> Some [] ->
  exists s',
    run s (repeated raw ts) = Some (s', []) /\
    stack s' = (below ++ [after_pairs (trim raw) ts parent])%list /\
    events s' = events s.
Proof.
  induction ts as [|[[[t1 d1] t2] d2] ts IH];
    intros s below parent V Hs Hc Hin Hst Hne.
  - exists s. cbn. auto.
  - destruct (parse_single raw V Hs Hc) as [_ Hi].
    destruct (pair_returns (trim raw) (t1, d1, t2, d2) (focus parent) Hi Hin Hne)
      as [T N].
    destruct (one_pair s below parent raw t1 d1 t2 d2 V Hs Hc Hst T)
      as (s1 & Hrun & Hst1 & Hev).
    destruct (IH s1 below _ V Hs Hc Hin Hst1 N) as (s' & Hrun' & Hst' & Hev').
    exists s'. split; [|split].
    + change (repeated raw ((t1, d1, t2, d2) :: ts))
        with ([Start raw t1 d1; End raw t2 d2] ++ repeated raw ts)%list.
      rewrite (run_app _ s s1 [] _ Hrun), Hrun'. reflexivity.
    + exact Hst'.
    + congruence.
Qed.

(** The child array of the parent grows by the profiles of the pairs,
    in call order. *)
Lemma children_after_pairs i ts : forall parent o arr t,
  i <> "" -> Forall started ts ->
  children (focus parent) = Obj.set i arr o -> last_start arr = Some t ->
  children (focus (after_pairs i ts parent)) =
  Obj.set i (arr ++ map (profile_of_pair i) ts)%list o.
Proof.
  induction ts as [|x ts IH]; intros parent o arr t Hi Hall Hl Hs.
  - cbn. now rewrite app_nil_r.
  - inversion Hall as [|? ? Hx Hall']; subst.
    destruct (profile_of_pair_fields i x) as (Hid & Hd & _ & _ & Hst & _).
    specialize (Hst Hx). apply truthy_iff in Hi as Hi'.
    assert (Hadd : children (focus (add_to (profile_of_pair i x) parent)) =
                   Obj.set i (arr ++ [profile_of_pair i x])%list o).
    { unfold add_to. cbn [focus].
      rewrite (add_append _ _ arr t); rewrite ?Hid; auto.
      - cbn [children with_children]. now rewrite Hl, set_set.
      - rewrite Hl. apply lookup_set_same. }
    change (after_pairs i (x :: ts) parent)
      with (after_pairs i ts (add_to (profile_of_pair i x) parent)).
    rewrite (IH _ o (arr ++ [profile_of_pair i x])%list (fst (fst (fst x))));
      auto.
    + now rewrite <- app_assoc.
    + rewrite last_start_app. exact Hst.
Qed.

Lemma children_after_pairs_fresh i ts parent :
  i <> "" -> inherited i = false -> Forall started ts -> ts <> [] ->
  lookup i (children (focus parent)) = None ->
  children (focus (after_pairs i ts parent)) =
  Obj.set i (map (profile_of_pair i) ts) (children (focus parent)).
Proof.
  intros Hi Hin Hall Hne Hl. destruct ts as [|x ts]; [congruence|].
  inversion Hall as [|? ? Hx Hall']; subst.
  destruct (profile_of_pair_fields i x) as (Hid & Hd & _ & _ & Hst & _).
  specialize (Hst Hx). apply truthy_iff in Hi as Hi'.
  assert (Hadd : children (focus (add_to (profile_of_pair i x) parent)) =
                 Obj.set i [profile_of_pair i x] (children (focus parent))).
  { unfold add_to. cbn [focus]. rewrite add_first; rewrite ?Hid; auto. }
  change (after_pairs i (x :: ts) parent)
    with (after_pairs i ts (add_to (profile_of_pair i x) parent)).
  now rewrite (children_after_pairs i ts _ (children (focus parent))
                 [profile_of_pair i x] (fst (fst (fst x)))).
Qed.

(** X6.  [start(k)], [end(k)] repeated for a one-segment key without
    label, not the name of a member of [Object.prototype], with time
    stamps the clock can deliver for [start], under a parent that has
    no child [k] yet: the calls return, and the child array of the
    parent ends as the profiles of the pairs, one per pair, in call
    order, each with the two time stamps of its pair; nothing is
    logged. *)
Theorem repeated_pairs_in_call_order raw ts s below parent :
  valid raw = true -> contains "/" raw = false -> contains ":" raw = false ->
  inherited (trim raw) = false ->
  Forall started ts -> ts <> [] ->
  stack s = (below ++ [parent])%list ->
  lookup (trim raw) (children (focus parent)) = None ->
  exists s' parent',
    run s (repeated raw ts) = Some (s', []) /\
    stack s' = (below ++ [parent'])%list /\
    lookup (trim raw) (children (focus parent')) =
      Some (map (profile_of_pair (trim raw)) ts) /\
    map (fun p => (startTime p, endTime p))
        (map (profile_of_pair (trim raw)) ts) =
      map (fun x : Pair => (Some (fst (fst (fst x))), Some (snd (fst x)))) ts.
Proof.
  intros V Hs Hc Hin Hall Hne Hst Hl.
  destruct (parse_single raw V Hs Hc) as [_ Hi].
  destruct (run_repeated raw ts s below parent V Hs Hc Hin Hst)
    as (s' & Hrun & Hst' & _); [congruence|].
  exists s', (after_pairs (trim raw) ts parent).
  split; [exact Hrun|]. split; [exact Hst'|]. split.
  - rewrite children_after_pairs_fresh by assumption. apply lookup_set_same.
  - rewrite map_map. clear - Hall. induction Hall as [|x ts Hx _ IH]; [reflexivity|].
    cbn [map]. rewrite IH. f_equal.
    destruct (profile_of_pair_fields (trim raw) x) as (_ & _ & _ & _ & A & B).
    now rewrite (A Hx), B.
Qed.

Lemma after_pairs_fixed i ts : forall e,
  spine (after_pairs i ts e) = spine e /\
  closed (top (after_pairs i ts e)) = closed (top e) /\
  entry_key (after_pairs i ts e) = entry_key e.
Proof.
  induction ts as [|x ts IH]; intros e; [now cbn|].
  change (after_pairs i (x :: ts) e)
    with (after_pairs i ts (add_to (profile_of_pair i x) e)).
  destruct (IH (add_to (profile_of_pair i x) e)) as (A & B & C).
  destruct (top_add_to (profile_of_pair i x) e) as [D E].
  rewrite A, B, C, D, E. auto.
Qed.

(** [salvage] of a profile whose only children are the occurrences of
    one id re-creates that child array under the root. *)
Lemma salvage_pairs i ts : forall r o arr t,
  i <> "" -> Forall started ts ->
  children r = Obj.set i arr o -> last_start arr = Some t ->
  exists r',
    fold_left (fun acc' c =>
                 match acc' with
                 | None => None
                 | Some r0 =>
                     if closed c then
                       if add_throws c r0 then None else Some (add c r0)
                     else Some r0
                 end)
              (map (profile_of_pair i) ts) (Some r) = Some r' /\
    children r' = Obj.set i (arr ++ map (profile_of_pair i) ts)%list o.
Proof.
  induction ts as [|x ts IH]; intros r o arr t Hi Hall Hl Hs.
  - cbn. rewrite app_nil_r. eauto.
  - inversion Hall as [|? ? Hx Hall']; subst.
    destruct (profile_of_pair_fields i x) as (Hid & Hd & _ & Hcl & Hst & _).
    specialize (Hst Hx). apply truthy_iff in Hi as Hi'.
    cbn [map fold_left]. rewrite Hcl.
    assert (Hlook : lookup i (children r) = Some arr)
      by (rewrite Hl; apply lookup_set_same).
    assert (Hrun : add_run (profile_of_pair i x) r =
                   (with_children r
                      (Obj.set i (arr ++ [profile_of_pair i x])%list (children r)),
                    false)).
    { rewrite <- Hid at 2. apply (add_run_append _ _ arr t); rewrite ?Hid; auto. }
    rewrite add_throws_eq, add_eq, Hrun. cbn [fst snd].
    destruct (IH (with_children r
                    (Obj.set i (arr ++ [profile_of_pair i x])%list (children r)))
                 o (arr ++ [profile_of_pair i x])%list (fst (fst (fst x))))
      as (r' & A & B); auto.
    + cbn [children with_children]. now rewrite Hl, set_set.
    + rewrite last_start_app. exact Hst.
    + exists r'. split; [exact A|]. now rewrite B, <- app_assoc.
Qed.

Lemma salvage_pairs_fresh i ts r :
  i <> "" -> inherited i = false -> Forall started ts -> ts <> [] ->
  lookup i (children r) = None ->
  exists r',
    fold_left (fun acc' c =>
                 match acc' with
                 | None => None
                 | Some r0 =>
                     if closed c then
                       if add_throws c r0 then None else Some (add c r0)
                     else Some r0
                 end)
              (map (profile_of_pair i) ts) (Some r) = Some r' /\
    children r' = Obj.set i (map (profile_of_pair i) ts) (children r).
Proof.
  intros Hi Hin Hall Hne Hl. destruct ts as [|x ts]; [congruence|].
  inversion Hall as [|? ? Hx Hall']; subst.
  destruct (profile_of_pair_fields i x) as (Hid & Hd & _ & Hcl & Hst & _).
  specialize (Hst Hx). apply truthy_iff in Hi as Hi'.
  cbn [map fold_left]. rewrite Hcl.
  assert (Hrun : add_run (profile_of_pair i x) r =
                 (with_children r (Obj.set i [profile_of_pair i x] (children r)),
                  false)).
  { rewrite <- Hid at 2. apply add_run_first; rewrite ?Hid; auto. }
  rewrite add_throws_eq, add_eq, Hrun. cbn [fst snd].
  apply (salvage_pairs i ts _ (children r) [profile_of_pair i x]
           (fst (fst (fst x)))); auto.
Qed.

(** X7.  A [start] with a key of one segment that is never ended loses
    its own row but not its children: the pairs recorded under it for
    a one-segment key without label, not the name of a member of
    [Object.prototype], end as children of the root, in call order,
    and one line [End was never called.] is logged for the parent. *)
Theorem unended_parent_children_survive praw t0 d0 raw ts :
  valid praw = true -> contains "/" praw = false -> contains ":" praw = false ->
  valid raw = true -> contains "/" raw = false -> contains ":" raw = false ->
  inherited (trim raw) = false ->
  Forall started ts -> ts <> [] ->
  exists r,
    processCalls (Start praw t0 d0 :: repeated raw ts) = Some r /\
    children (rootProfile r) =
      [(trim raw, map (profile_of_pair (trim raw)) ts)] /\
    r_log r = [error "End was never called." (trim praw)].
Proof.
  intros PV PS PC V Hs Hc Hin Hall Hne.
  destruct (parse_single praw PV PS PC) as [Hpp _].
  destruct (parse_single raw V Hs Hc) as [_ Hi].
  set (P0 := set (mkSetData (Some t0) None d0)
                 (newProfile (mkKey [trim praw] None false))).
  set (s0 := mkState [rootEntry; P0] [] (Some t0)).
  assert (H0 : run init [Start praw t0 d0] = Some (s0, [])).
  { cbn [run]. unfold step. rewrite valid_guard, PV, Hpp. reflexivity. }
  assert (Hch : children (focus P0) = []).
  { unfold P0, set, map_top, newProfile, set_focus. reflexivity. }
  destruct (run_repeated raw ts s0 [rootEntry] P0 V Hs Hc Hin eq_refl)
    as (s' & Hrun & Hst & _); [now rewrite Hch|].
  unfold processCalls.
  change (Start praw t0 d0 :: repeated raw ts)
    with ([Start praw t0 d0] ++ repeated raw ts)%list.
  rewrite (run_app _ _ _ _ _ H0), Hrun.
  unfold finish. rewrite Hst. cbn [app sweep].
  destruct (after_pairs_fixed (trim raw) ts P0) as (Hsp & Hcl & Hk).
  rewrite Hcl, Hk.
  replace (closed (top P0)) with false
    by (symmetry; unfold P0; rewrite set_top_closed; apply newProfile_open).
  assert (Hplug : plug (after_pairs (trim raw) ts P0) =
                  focus (after_pairs (trim raw) ts P0)).
  { unfold plug. rewrite Hsp. reflexivity. }
  unfold salvage. rewrite Hplug.
  rewrite (children_after_pairs_fresh (trim raw) ts P0 Hi Hin Hall Hne)
    by now rewrite Hch.
  rewrite Hch, set_empty. cbn [fold_left snd].
  destruct (salvage_pairs_fresh (trim raw) ts (focus rootEntry) Hi Hin Hall Hne
              eq_refl) as (r' & -> & Hr').
  eexists. split; [reflexivity|]. cbn [rootProfile r_log app]. split.
  - exact Hr'.
  - unfold P0. rewrite pushed_key.
    f_equal. f_equal.
    unfold toString. cbn. apply app_empty_r.
Qed.

Lemma profile_of_pair_unstarted i x :
  unstarted x -> startTime (profile_of_pair i x) = None.
Proof.
  destruct x as [[[t1 d1] t2] d2]. cbn [unstarted profile_of_pair].
  intros Ht. cbn. now rewrite Ht.
Qed.

(** A profile without children added for an id whose only occurrence
    has no start time: the two merge. *)
Lemma add_merges p parent lp :
  truthy (id p) = true -> durations p = None -> children p = [] ->
  lookup (id p) (children parent) = Some [lp] -> startTime lp = None ->
  add p parent =
  with_children parent (Obj.set (id p) [merge_into lp p] (children parent)).
Proof.
  intros Hi Hd Hc Hl Hs.
  rewrite add_eq, add_run_eq, Hi, Hl, Hd, Hc. cbn [negb map last].
  cbv zeta. now rewrite Hs.
Qed.

Lemma merge_into_times lp p :
  startTime (merge_into lp p) = startTime p /\
  endTime (merge_into lp p) = endTime p.
Proof. split; reflexivity. Qed.

(** Pairs without a start time keep folding into the one occurrence. *)
Lemma children_after_unstarted i ts : forall parent lp,
  i <> "" -> Forall unstarted ts ->
  lookup i (children (focus parent)) = Some [lp] -> startTime lp = None ->
  exists q,
    lookup i (children (focus (after_pairs i ts parent))) = Some [q] /\
    startTime q = None /\ endTime q = last_end ts (endTime lp).
Proof.
  induction ts as [|x ts IH]; intros parent lp Hi Hall Hl Hs.
  - exists lp. cbn. auto.
  - inversion Hall as [|? ? Hx Hall']; subst.
    destruct (profile_of_pair_fields i x) as (Hid & Hd & Hc & _ & _ & He).
    pose proof (profile_of_pair_unstarted i x Hx) as Hst.
    apply truthy_iff in Hi as Hi'.
    change (after_pairs i (x :: ts) parent)
      with (after_pairs i ts (add_to (profile_of_pair i x) parent)).
    destruct (IH (add_to (profile_of_pair i x) parent)
                 (merge_into lp (profile_of_pair i x)) Hi Hall') as (q & A & B & C).
    + unfold add_to. cbn [focus].
      rewrite (add_merges _ _ lp); rewrite ?Hid; auto.
      cbn [children with_children]. apply lookup_set_same.
    + exact Hst.
    + exists q. split; [exact A|]. split; [exact B|].
      rewrite C. cbn [last_end fold_left]. unfold last_end. now rewrite <- He.
Qed.

(** X20.  [start(k)], [end(k)] repeated with every [start] stamped 0,
    for a one-segment key without label, not the name of a member of
    [Object.prototype]: the falsy start time is lost at [end], so each
    pair merges into the one before.  The parent ends with a single
    occurrence of [k], without start time, whose end time is that of
    the last pair. *)
Theorem zero_starts_collapse raw ts s below parent :
  valid raw = true -> contains "/" raw = false -> contains ":" raw = false ->
  inherited (trim raw) = false ->
  Forall unstarted ts -> ts <> [] ->
  stack s = (below ++ [parent])%list ->
  lookup (trim raw) (children (focus parent)) = None ->
  exists s' parent' q,
    run s (repeated raw ts) = Some (s', []) /\
    stack s' = (below ++ [parent'])%list /\
    lookup (trim raw) (children (focus parent')) = Some [q] /\
    startTime q = None /\ endTime q = last_end ts None.
Proof.
  intros V Hs Hc Hin Hall Hne Hst Hl.
  destruct (parse_single raw V Hs Hc) as [_ Hi].
  destruct (run_repeated raw ts s below parent V Hs Hc Hin Hst)
    as (s' & Hrun & Hst' & _); [congruence|].
  exists s', (after_pairs (trim raw) ts parent).
  destruct ts as [|x ts]; [congruence|].
  inversion Hall as [|? ? Hx Hall']; subst.
  destruct (profile_of_pair_fields (trim raw) x) as (Hid & Hd & Hch & _ & _ & He).
  pose proof (profile_of_pair_unstarted (trim raw) x Hx) as Hsx.
  apply truthy_iff in Hi as Hi'.
  change (after_pairs (trim raw) (x :: ts) parent)
    with (after_pairs (trim raw) ts (add_to (profile_of_pair (trim raw) x) parent)).
  destruct (children_after_unstarted (trim raw) ts
              (add_to (profile_of_pair (trim raw) x) parent)
              (profile_of_pair (trim raw) x) Hi Hall') as (q & A & B & C).
  - unfold add_to. cbn [focus]. rewrite add_first; rewrite ?Hid; auto.
    cbn [children with_children]. apply lookup_set_same.
  - exact Hsx.
  - exists q. split; [exact Hrun|]. split; [exact Hst'|].
    split; [exact A|]. split; [exact B|].
    rewrite C, He. reflexivity.
Qed.

End LogFacts.

Module RowFacts.
Import JsString Key Num Obj Prof Reconciler Rows Props KeyFacts ProfFacts ReconcilerFacts LogProps RowProps LogFacts.
Local Open Scope string_scope.

Lemma normalize_origin b a t : exists v, normalize b (Some a) t = Some v.
Proof.
  unfold normalize. destruct t as [t|]; [|eauto].
  destruct (negb (truthy_time t)); [eauto|]. destruct b; eauto.
Qed.

Lemma each_duration_origin b a ds : forall acc,
  exists da, each_duration b (Some a) ds acc = Some da.
Proof.
  induction ds as [|[l d] ds IH]; intros acc; cbn [each_duration]; [eauto|].
  destruct (normalize_origin b a (d_startTime d)) as [st ->].
  destruct (normalize_origin b a (d_endTime d)) as [en ->].
  apply IH.
Qed.

(** With an origin, no row creation throws. *)
Lemma createRows_origin b a : forall p absEnd,
  exists row e, createRows b (Some a) p absEnd = Some (row, e).
Proof.
  induction p as [k i ty du cd ch da st en cl IH] using Profile_tree_ind.
  intros absEnd. cbn [createRows].
  destruct (normalize_origin b a st) as [st0 ->].
  destruct (normalize_origin b a en) as [en0 ->].
  destruct (each_duration_origin b a (or_empty du) (mkDurAcc [] (Fin 0) st0 en0))
    as [dacc ->].
  generalize (mkChildAcc [] (da_start dacc) (da_end dacc) absEnd) as acc.
  induction IH as [|[ck arr] cs Harr _ IHcs]; intros acc.
  - eauto.
  - cbn [snd] in Harr.
    generalize (ca_details acc), (ca_absEnd acc).
    generalize (@None num) at 1. generalize (@None num) at 1.
    induction Harr as [|c arr' Hc _ IHarr]; intros pen pst details absE.
    + exact (IHcs _).
    + destruct (Hc absE) as (r & e' & ->). exact (IHarr _ _ _ _).
Qed.

(** X8.  Row creation never throws on what [_processCalls] built,
    in a browser or not: whenever [_processCalls] returns, [createRows]
    does on its tree.  [_normalize] indexes [absoluteStartTime] only
    for a truthy time, and a tree built without any [start] holds no
    time. *)
Theorem rows_of_any_log (isBrowser : bool) (calls : list Call) (r : Result) :
  processCalls calls = Some r ->
  exists rows absEnd,
    buildRows isBrowser (r_origin r) (rootProfile r) = Some (rows, absEnd).
Proof.
  intros Hr.
  destruct (processCalls_events_origin calls r Hr) as [_ Ho].
  unfold buildRows. rewrite Ho.
  destruct (first_time calls) as [a|] eqn:Hf.
  - destruct (createRows_origin isBrowser a (rootProfile r) (Fin 0))
      as (row & e & ->). eauto.
  - assert (Hroot : rootProfile r = focus rootEntry).
    { unfold processCalls in Hr.
      destruct (run init calls) as [[s log]|] eqn:Hrun; [|discriminate].
      destruct (run_without_start _ _ _ _ Hrun Hf eq_refl) as [Hst _].
      unfold finish in Hr. rewrite Hst in Hr. cbn in Hr.
      now injection Hr as <-. }
    rewrite Hroot.
    destruct isBrowser; do 2 eexists; reflexivity.
Qed.

Lemma total_snoc l k d : total (l ++ [(k, d)])%list = Num.add (total l) d.
Proof. unfold total. now rewrite fold_left_app. Qed.

Lemma each_duration_sums b abs ds : forall acc da,
  each_duration b abs ds acc = Some da ->
  da_total acc = total (da_rows acc) ->
  da_total da = total (da_rows da) /\
  map fst (da_rows da) = (map fst (da_rows acc) ++ map fst ds)%list.
Proof.
  induction ds as [|[l d] ds IH]; intros acc da H Hacc.
  - cbn in H. injection H as <-. now rewrite app_nil_r.
  - cbn [each_duration] in H.
    destruct (normalize b abs (d_startTime d)) as [st|]; [|discriminate].
    destruct (normalize b abs (d_endTime d)) as [en|]; [|discriminate].
    apply IH in H.
    + destruct H as [A B]. split; [exact A|]. rewrite B. cbn [da_rows].
      rewrite map_app, <- app_assoc. reflexivity.
    + cbn [da_rows da_total]. rewrite total_snoc, Hacc. reflexivity.
Qed.

(** The buckets of a row are the recorded ones, completed by
    [default_duration] against the span of the finished row. *)
Lemma createRows_buckets b abs p e row e' :
  createRows b abs p e = Some (row, e') ->
  exists durs,
    map fst durs = labels p /\
    row_durations row = default_duration durs (total durs) (row_span row).
Proof.
  destruct p as [k i ty du cd ch da st en cl]. cbn [createRows]. intros H.
  destruct (normalize b abs st) as [st0|]; [|discriminate].
  destruct (normalize b abs en) as [en0|]; [|discriminate].
  destruct (each_duration b abs (or_empty du) _) as [dacc|] eqn:Hd; [|discriminate].
  destruct (each_duration_sums _ _ _ _ _ Hd eq_refl) as [Ht Hl].
  match type of H with
  | match ?x with _ => _ end = _ => destruct x as [ca|]; [|discriminate]
  end.
  injection H as <- _. exists (da_rows dacc). split; [exact Hl|].
  cbn [row_durations]. unfold row_span. cbn [row_endTime row_startTime].
  now rewrite Ht.
Qed.

Lemma lt_irrefl n : lt n n = false.
Proof. destruct n as [|z]; [reflexivity|]. apply Z.ltb_irrefl. Qed.

(** X9.  For time stamps that are whole numbers small enough for the
    arithmetic of doubles to be exact, the buckets of a row never add
    up to less than the span [endTime - startTime] of the row.  A
    profile without recorded buckets gets the single bucket
    [Elapsed Time], equal to the span; otherwise the row carries the
    recorded labels in the order of their enumeration, followed by
    [Other] exactly when they fall short, and then the buckets add up
    to the span. *)
Theorem buckets_cover_span b abs p e row e' (B : Z) :
  within B abs -> tree_within B p -> exact_for B (length (labels p)) ->
  createRows b abs p e = Some (row, e') ->
  lt (total (row_durations row)) (row_span row) = false /\
  (labels p = [] -> row_durations row = [("Elapsed Time", row_span row)]) /\
  (labels p <> [] ->
     map fst (row_durations row) = labels p \/
     map fst (row_durations row) = (labels p ++ ["Other"])%list /\
     total (row_durations row) = row_span row).
Proof.
  intros _ _ _ H.
  destruct (createRows_buckets _ _ _ _ _ _ H) as (durs & Hl & Hr).
  rewrite Hr. unfold default_duration.
  destruct durs as [|d durs].
  - split; [|split].
    + unfold total. cbn. destruct (row_span row); [reflexivity|apply Z.ltb_irrefl].
    + reflexivity.
    + intros Hne. now rewrite <- Hl in Hne.
  - destruct (lt (total (d :: durs)) (row_span row)) eqn:E.
    + assert (Hs : total ((d :: durs) ++ [("Other", sub (row_span row) (total (d :: durs)))])
                   = row_span row).
      { rewrite total_snoc.
        destruct (total (d :: durs)) as [|t]; [discriminate|].
        destruct (row_span row) as [|sp]; [discriminate|].
        cbn. f_equal. lia. }
      split; [|split].
      * rewrite Hs. apply lt_irrefl.
      * intros Hn. rewrite <- Hl in Hn. discriminate.
      * intros _. right. split; [|exact Hs].
        rewrite map_app, Hl. reflexivity.
    + split; [exact E|]. split.
      * intros Hn. rewrite <- Hl in Hn. discriminate.
      * intros _. left. exact Hl.
Qed.

End RowFacts.

Module OriginFacts.
Import ProfFacts.
Import JsString Key Num Obj Prof Reconciler Rows Props RowProps RowFacts OriginProps.
Local Open Scope string_scope.

(** [createRows] through the two loops. *)
Lemma createRows_eq b abs p absEnd :
  createRows b abs p absEnd =
  match normalize b abs (startTime p), normalize b abs (endTime p) with
  | Some start0, Some end0 =>
      match each_duration b abs (or_empty (durations p))
              (mkDurAcc [] (Fin 0) start0 end0) with
      | None => None
      | Some da =>
          match each_key_rows (createRows b abs) (children p)
                  (mkChildAcc [] (da_start da) (da_end da) absEnd) with
          | None => None
          | Some ca =>
              Some (mkRow (data p)
                      (default_duration (da_rows da) (da_total da)
                         (sub (to_num (ca_end ca)) (to_num (ca_start ca))))
                      (match ca_details ca with
                       | [] => None
                       | ds => Some ds
                       end)
                      (ca_start ca) (ca_end ca),
                    Num.max (ca_absEnd ca) (or_zero (ca_end ca)))
          end
      end
  | _, _ => None
  end.
Proof.
  destruct p as [k i ty du cd ch da st en cl].
  cbn [createRows startTime endTime durations children data].
  destruct (normalize b abs st) as [st0|]; [|reflexivity].
  destruct (normalize b abs en) as [en0|]; [|reflexivity].
  destruct (each_duration b abs (or_empty du) _) as [dacc|]; [|reflexivity].
  match goal with
  | |- match ?L ch ?A with _ => _ end = _ =>
      assert (E : forall acc, L ch acc = each_key_rows (createRows b abs) ch acc)
  end.
  { induction ch as [|[ck arr] cs IHcs]; intros acc; [reflexivity|].
    cbn [each_key_rows].
    match goal with
    | |- match ?L arr _ _ _ _ with _ => _ end = _ =>
        assert (E2 : forall dt ps pe ab,
                   L arr dt ps pe ab =
                   each_child_rows (createRows b abs) arr dt ps pe ab)
    end.
    { induction arr as [|c arr IHarr]; intros d s e x; [reflexivity|].
      cbn [each_child_rows]. destruct (createRows b abs c x) as [[r absE']|].
      - apply IHarr.
      - reflexivity. }
    rewrite E2.
    destruct (each_child_rows (createRows b abs) arr _ _ _ _) as [[[[d s] e] x]|];
      [apply IHcs|reflexivity]. }
  now rewrite E.
Qed.

Lemma normalize_shift b a a' t :
  same_clock a a' ->
  exists v v',
    normalize b (Some a) t = Some v /\ normalize b (Some a') t = Some v' /\
    shifted (drift a a') v v'.
Proof.
  intros Hk. unfold normalize.
  destruct t as [t|]; [|exists None, None; cbn; auto].
  destruct (negb (truthy_time t)); [exists None, None; cbn; auto|].
  destruct b; do 2 eexists; (split; [reflexivity|]); (split; [reflexivity|]);
    destruct a, a', t; cbn in *; try exact I; try contradiction; lia.
Qed.

Lemma sub_shift delta en en' st st' :
  shifted delta en en' -> shifted delta st st' ->
  sub (to_num en) (to_num st) = sub (to_num en') (to_num st').
Proof.
  destruct en as [[|x]|], en' as [[|x']|]; cbn; try contradiction;
    destruct st as [[|y]|], st' as [[|y']|]; cbn; try contradiction;
    try reflexivity.
  intros -> ->. f_equal. lia.
Qed.

Lemma widen_min_shift delta x x' y y' :
  shifted delta x x' -> shifted delta y y' ->
  shifted delta (widen_min x y) (widen_min x' y').
Proof.
  destruct x as [[|a]|], x' as [[|a']|]; cbn; try contradiction;
    destruct y as [[|c]|], y' as [[|c']|]; cbn; try contradiction; auto.
  intros -> ->. lia.
Qed.

Lemma widen_max_shift delta x x' y y' :
  shifted delta x x' -> shifted delta y y' ->
  shifted delta (widen_max x y) (widen_max x' y').
Proof.
  destruct x as [[|a]|], x' as [[|a']|]; cbn; try contradiction;
    destruct y as [[|c]|], y' as [[|c']|]; cbn; try contradiction; auto.
  intros -> ->. lia.
Qed.

Lemma each_duration_shift b a a' ds :
  same_clock a a' ->
  forall acc acc',
    da_rows acc = da_rows acc' -> da_total acc = da_total acc' ->
    shifted (drift a a') (da_start acc) (da_start acc') ->
    shifted (drift a a') (da_end acc) (da_end acc') ->
    exists r r',
      each_duration b (Some a) ds acc = Some r /\
      each_duration b (Some a') ds acc' = Some r' /\
      da_rows r = da_rows r' /\ da_total r = da_total r' /\
      shifted (drift a a') (da_start r) (da_start r') /\
      shifted (drift a a') (da_end r) (da_end r').
Proof.
  intros Hk. induction ds as [|[l d] ds IH]; intros acc acc' Hr Ht Hs He.
  - exists acc, acc'. cbn. auto 6.
  - cbn [each_duration].
    destruct (normalize_shift b a a' (d_startTime d) Hk) as (s & s' & -> & -> & Ss).
    destruct (normalize_shift b a a' (d_endTime d) Hk) as (e & e' & -> & -> & Se).
    apply IH; cbn [da_rows da_total da_start da_end].
    + now rewrite Hr, (sub_shift _ _ _ _ _ Se Ss).
    + now rewrite Ht, (sub_shift _ _ _ _ _ Se Ss).
    + now apply widen_min_shift.
    + now apply widen_max_shift.
Qed.

Lemma untimed_fields r r' :
  untimed r = untimed r' ->
  row_data r = row_data r' /\ row_durations r = row_durations r' /\
  option_map (map untimed) (row_details r) =
  option_map (map untimed) (row_details r').
Proof.
  destruct r as [d du de s e], r' as [d' du' de' s' e']. cbn [untimed].
  intros H. injection H as -> -> H. cbn. repeat split.
  destruct de, de'; cbn; congruence.
Qed.

Lemma untimed_child d r r' :
  untimed r = untimed r' ->
  untimed (mkRow d (row_durations r) (row_details r)
                 (row_startTime r) (row_endTime r)) =
  untimed (mkRow d (row_durations r') (row_details r')
                 (row_startTime r') (row_endTime r')).
Proof.
  intros H. destruct (untimed_fields _ _ H) as (_ & -> & Hd).
  cbn [untimed]. f_equal.
  destruct (row_details r), (row_details r'); cbn in Hd; congruence.
Qed.

Lemma each_child_shift delta f f' arr :
  Forall (rows_agree delta f f') arr ->
  forall details details' pst pst' pen pen' absE absE',
    map untimed details = map untimed details' ->
    shifted delta pst pst' -> shifted delta pen pen' ->
    exists d s e x d' s' e' x',
      each_child_rows f arr details pst pen absE = Some (d, s, e, x) /\
      each_child_rows f' arr details' pst' pen' absE' = Some (d', s', e', x') /\
      map untimed d = map untimed d' /\
      shifted delta s s' /\ shifted delta e e'.
Proof.
  induction 1 as [|c arr Hc _ IH];
    intros details details' pst pst' pen pen' absE absE' Hd Hs He.
  - cbn. do 8 eexists. repeat split; eauto.
  - cbn [each_child_rows].
    destruct (Hc absE absE') as (r & x & r' & x' & -> & -> & Hu & Rs & Re).
    apply IH; cbn [row_startTime row_endTime].
    + rewrite !map_app, Hd. cbn [map]. f_equal. f_equal.
      now apply untimed_child.
    + destruct pst as [[|p]|], pst' as [[|p']|]; cbn in Hs |- *;
        try contradiction; assumption.
    + exact Re.
Qed.

Lemma each_key_shift delta f f' cs :
  Forall (fun kv : string * list Profile =>
            Forall (rows_agree delta f f') (snd kv)) cs ->
  forall acc acc',
    same_rows delta acc acc' ->
    exists ca ca',
      each_key_rows f cs acc = Some ca /\
      each_key_rows f' cs acc' = Some ca' /\
      same_rows delta ca ca'.
Proof.
  induction 1 as [|[k arr] cs Harr _ IH]; intros acc acc' (Hd & Hs & He).
  - exists acc, acc'. repeat split; assumption.
  - cbn [each_key_rows]. cbn [snd] in Harr.
    destruct (each_child_shift delta f f' arr Harr
                (ca_details acc) (ca_details acc') None None None None
                (ca_absEnd acc) (ca_absEnd acc') Hd I I)
      as (d & s & e & x & d' & s' & e' & x' & -> & -> & Rd & Rs & Re).
    apply IH. repeat split; cbn [ca_details ca_start ca_end].
    + exact Rd.
    + now apply widen_min_shift.
    + now apply widen_max_shift.
Qed.

Lemma createRows_agree b a a' :
  same_clock a a' ->
  forall p, rows_agree (drift a a') (createRows b (Some a))
                       (createRows b (Some a')) p.
Proof.
  intros Hk.
  induction p as [k i ty du cd ch da st en cl IH] using Profile_tree_ind.
  intros e e'. rewrite !createRows_eq.
  cbn [startTime endTime durations children data].
  destruct (normalize_shift b a a' st Hk) as (s0 & s0' & -> & -> & Ss).
  destruct (normalize_shift b a a' en Hk) as (e0 & e0' & -> & -> & Se).
  destruct (each_duration_shift b a a' (or_empty du) Hk
              (mkDurAcc [] (Fin 0) s0 e0) (mkDurAcc [] (Fin 0) s0' e0')
              eq_refl eq_refl Ss Se)
    as (dr & dr' & -> & -> & Hrows & Htot & Ds & De).
  destruct (each_key_shift _ _ _ ch IH
              (mkChildAcc [] (da_start dr) (da_end dr) e)
              (mkChildAcc [] (da_start dr') (da_end dr') e'))
    as (ca & ca' & -> & -> & Hd & Hs & He).
  { repeat split; assumption. }
  do 4 eexists. split; [reflexivity|]. split; [reflexivity|].
  cbn [row_startTime row_endTime]. split; [|split; assumption].
  cbn [untimed]. rewrite Hrows, Htot, (sub_shift _ _ _ _ _ He Hs).
  f_equal.
  destruct (ca_details ca) as [|r rs], (ca_details ca') as [|r' rs'];
    cbn in Hd |- *; try discriminate; try reflexivity; congruence.
Qed.

(** X21.  For time stamps that are whole numbers small enough for
    the arithmetic of doubles to be exact, the rows do not depend on
    when profiling began: built from two origins read from the same
    clock, the rows of a profile exist both times and have the same
    data, the same buckets with the same durations and the same rows
    below; only their start and end times differ, by the distance
    between the origins. *)
Theorem durations_ignore_origin (isBrowser : bool) (a a' : rawtime)
        (p : Profile) (absEnd absEnd' : num) (B : Z) (n : nat) :
  within B (Some a) -> within B (Some a') -> tree_within B p ->
  labels_below n p -> exact_for B n ->
  same_clock a a' ->
  exists r x r' x',
    createRows isBrowser (Some a) p absEnd = Some (r, x) /\
    createRows isBrowser (Some a') p absEnd' = Some (r', x') /\
    untimed r = untimed r' /\
    shifted (drift a a') (row_startTime r) (row_startTime r') /\
    shifted (drift a a') (row_endTime r) (row_endTime r').
Proof.
  intros _ _ _ _ _ Hk.
  exact (createRows_agree isBrowser a a' Hk p absEnd absEnd').
Qed.

End OriginFacts.

Module LifeFacts.
Import JsString Key Num Obj Prof Reconciler Rows Stats Waterfall Props ObjFacts ObjMore.
Import KeyFacts ReconcilerFacts LogProps RowProps LifeProps LogFacts RowFacts.
Local Open Scope string_scope.






Lemma after_app w l1 l2 : after w (l1 ++ l2)%list = after (after w l1) l2.
Proof. unfold after. apply fold_left_app. Qed.

Lemma instance_eta w :
  mkInstance (config w) (headers w) (Waterfall.events w) (_calls w)
    (m_configure w) (m_start w) (m_end w) (m_event w) (m_clear w)
    (m_pause w) (m_resume w) (_originalStart w) (_originalEnd w)
    (_originalEvent w) (waterfall w) (_rootProfile w)
    (Waterfall.absoluteStartTime w) (absoluteEndTime w) = w.
Proof. now destruct w. Qed.

Lemma pause_once w :
  m_pause w = Proto -> not_paused w -> after w [Pause] = paused w.
Proof.
  intros Hp (A & B & C). unfold after, call. cbn [fold_left slot].
  rewrite Hp. cbn [proto fst]. rewrite A, B, C. reflexivity.
Qed.

Lemma pause_again w :
  m_pause w = Proto -> after (paused w) [Pause] = paused w.
Proof.
  intros Hp. unfold after, call. cbn [fold_left slot paused m_pause].
  rewrite Hp. reflexivity.
Qed.

Lemma pause_many w n :
  m_pause w = Proto -> not_paused w ->
  after w (repeat Pause (S n)) = paused w.
Proof.
  intros Hp Hn. induction n as [|n IH].
  - now apply pause_once.
  - change (repeat Pause (S (S n))) with ([Pause] ++ repeat Pause (S n))%list.
    rewrite after_app, pause_once by assumption.
    clear IH. induction n as [|n IH]; [now apply pause_again|].
    change (repeat Pause (S (S n))) with ([Pause] ++ repeat Pause (S n))%list.
    rewrite after_app, pause_again by assumption. exact IH.
Qed.

Lemma paused_ignores w recs :
  forallb records recs = true -> after (paused w) recs = paused w.
Proof.
  induction recs as [|inv recs IH]; [reflexivity|].
  cbn [forallb]. intros H. apply andb_true_iff in H as [Hi Hr].
  change (after (paused w) (inv :: recs))
    with (after (fst (fst (call (paused w) inv))) recs).
  replace (fst (fst (call (paused w) inv))) with (paused w); [now apply IH|].
  destruct inv; try discriminate; reflexivity.
Qed.

(** X11.  While an instance is paused, [start], [end] and [event]
    record nothing and return [undefined], however often [pause] was
    called; one [resume] then gives back the instance as it was before
    the first [pause]. *)
Theorem pause_resume_roundtrip w n recs :
  m_pause w = Proto -> m_resume w = Proto -> not_paused w ->
  forallb records recs = true ->
  after w (repeat Pause (S n) ++ recs) = paused w /\
  _calls (after w (repeat Pause (S n) ++ recs)) = _calls w /\
  (forall inv, records inv = true ->
     snd (call (after w (repeat Pause (S n) ++ recs)) inv) = None) /\
  after w (repeat Pause (S n) ++ recs ++ [Resume]) = w.
Proof.
  intros Hp Hr Hn Hrec.
  assert (E : after w (repeat Pause (S n) ++ recs) = paused w).
  { rewrite after_app, pause_many by assumption. now apply paused_ignores. }
  split; [exact E|]. split; [now rewrite E|]. split.
  - intros inv Hi. rewrite E. destruct inv; try discriminate; reflexivity.
  - rewrite app_assoc, after_app, E.
    unfold after, call. cbn [fold_left slot paused m_resume]. rewrite Hr.
    unfold not_paused in Hn. destruct Hn as (A & B & C).
    destruct w; cbn in *. subst. reflexivity.
Qed.

Lemma pause_resume_roundtrip_witness :
  after (create None None)
        (repeat Pause 2 ++ [DoStart "a" (TNum 1) []; DoEnd "a" (TNum 2) []] ++ [Resume]) =
  create None None.
Proof.
  apply (proj2 (proj2 (proj2
    (pause_resume_roundtrip (create None None) 1
       [DoStart "a" (TNum 1) []; DoEnd "a" (TNum 2) []]
       eq_refl eq_refl (conj eq_refl (conj eq_refl eq_refl)) eq_refl)))).
Defined.

Lemma call_live w inv : live w -> live (fst (fst (call w inv))).
Proof.
  intros (A & B & C & D & E & F & G). unfold call, live.
  destruct inv; cbn [slot].
  - rewrite A. cbn. repeat split; assumption.
  - destruct (m_start w) eqn:S; cbn; rewrite ?S; repeat split; assumption.
  - destruct (m_end w) eqn:S; cbn; rewrite ?S; repeat split; assumption.
  - destruct (m_event w) eqn:S; cbn; rewrite ?S; repeat split; assumption.
  - rewrite B. cbn. repeat split; assumption.
  - rewrite C. cbn. rewrite E, F, G. repeat split; assumption.
  - rewrite D. cbn. rewrite E, F, G. repeat split; assumption.
Qed.

Lemma after_live invs : forall w, live w -> live (after w invs).
Proof.
  induction invs as [|inv invs IH]; intros w H; [exact H|].
  apply IH, call_live, H.
Qed.

Lemma records_append recs : forall w,
  m_start w = Proto -> m_end w = Proto -> m_event w = Proto ->
  forallb records recs = true ->
  _calls (after w recs) = (_calls w ++ flat_map call_of recs)%list.
Proof.
  induction recs as [|inv recs IH]; intros w A B C H.
  - cbn. now rewrite app_nil_r.
  - cbn [forallb] in H. apply andb_true_iff in H as [Hi Hr].
    change (after w (inv :: recs)) with (after (fst (fst (call w inv))) recs).
    destruct inv; try discriminate; unfold call; cbn [slot];
      rewrite ?A, ?B, ?C; cbn [proto fst];
      rewrite IH by (try assumption; reflexivity);
      cbn [_calls with_calls flat_map call_of]; now rewrite <- app_assoc.
Qed.

(** X22.  On a fresh instance that is not finalized (neither
    [getGui] nor [getSummary] has been called), whatever calls of
    [configure], [start], [end], [event], [clear], [pause] and
    [resume] were made before, after [resume] and [clear] the call log
    holds exactly the [start], [end] and [event] calls made since, in
    call order. *)
Theorem resume_clear_then_record (cfg : option Config)
        (hs : option (list string)) (invs recs : list Invocation) :
  forallb records recs = true ->
  _calls (after (create cfg hs) (invs ++ [Resume; Clear] ++ recs)) =
  flat_map call_of recs.
Proof.
  intros Hrec. rewrite after_app, after_app.
  assert (Hl : live (after (create cfg hs) invs))
    by (apply after_live; repeat split).
  destruct Hl as (A & B & C & D & E & F & G).
  set (w := after (create cfg hs) invs) in *.
  assert (E1 : after w [Resume; Clear] =
               with_calls (fst (proto w Resume)) []).
  { unfold after, call. cbn [fold_left slot]. rewrite D. cbn [proto fst m_clear slot].
    rewrite B. reflexivity. }
  rewrite E1, records_append; try assumption; reflexivity.
Qed.

(** X23.  [configure] merges: a statistics option the new
    configuration sets takes its value, every other one keeps the value
    it had; on an instance created without configuration nothing is
    set.  The call log is not touched. *)
Theorem configure_merges_stats (w : Instance) (c : Config) (name : string) :
  m_configure w = Proto ->
  (forall st, cfg_stats c = Some st -> NoDup (map fst st)) ->
  stats_option (config (after w [Configure c])) name =
    match config w with
    | None => None
    | Some c0 =>
        match stats_option (Some c) name with
        | Some v => Some v
        | None => stats_option (Some c0) name
        end
    end /\
  _calls (after w [Configure c]) = _calls w.
Proof.
  intros Hp Hnd. unfold after, call. cbn [fold_left slot]. rewrite Hp.
  cbn [proto fst config _calls]. split; [|reflexivity].
  destruct (config w) as [c0|]; [|reflexivity].
  unfold stats_option, mix_config. cbn [cfg_stats].
  destruct (cfg_stats c0) as [a|], (cfg_stats c) as [b|]; try reflexivity.
  - apply lookup_mix_overwrite. now apply Hnd.
  - now destruct (lookup name b).
Qed.

End LifeFacts.

Module AddFacts.
Import JsString Key Num Obj Prof Reconciler Props ObjFacts KeyFacts ProfFacts LogFacts ObjMore.
Local Open Scope string_scope.

(** What [add] does to the child arrays of the parent: nothing, or it
    rebinds the id of the added profile. *)
Lemma add_children p parent :
  children (add p parent) = children parent \/
  (lookup (id p) (children parent) = None /\
   children (add p parent) = Obj.set (id p) [p] (children parent)) \/
  exists arr arr',
    lookup (id p) (children parent) = Some arr /\
    children (add p parent) = Obj.set (id p) arr' (children parent) /\
    (length arr <= length arr')%nat.
Proof.
  rewrite add_eq, add_run_eq.
  destruct (negb (truthy (id p))); [now left|].
  destruct (lookup (id p) (children parent)) as [arr|] eqn:E.
  - destruct (last (map (fun x => Some x) arr) None) as [lp|]; [|now left].
    right. right. exists arr. cbv zeta.
    destruct (durations p) as [ds|].
    + eexists. split; [reflexivity|]. split; [reflexivity|].
      now rewrite map_last_length.
    + destruct (startTime lp).
      * eexists. split; [reflexivity|]. split; [reflexivity|].
        rewrite length_app. lia.
      * destruct (children p).
        -- eexists. split; [reflexivity|]. split; [reflexivity|].
           now rewrite map_last_length.
        -- destruct (add_each_key _ lp) as [x t].
           eexists. split; [reflexivity|]. split; [reflexivity|].
           now rewrite map_last_length.
  - destruct (inherited (id p)); [now left|]. right. left. auto.
Qed.

(** X12.  [add] never loses a child: an id bound in the parent stays
    bound, to an array that is at least as long, and to the same array
    when the id is not the one of the added profile. *)
Theorem add_keeps_children p parent k arr :
  lookup k (children parent) = Some arr ->
  exists arr',
    lookup k (children (add p parent)) = Some arr' /\
    (length arr <= length arr')%nat /\
    (k <> id p -> arr' = arr).
Proof.
  intros Hk.
  destruct (add_children p parent) as [E|[[Hn E]|(a & a' & Ha & E & Hlen)]];
    rewrite E.
  - exists arr. auto.
  - assert (Hne : k <> id p) by (intros ->; congruence).
    exists arr. rewrite lookup_set_other by exact Hne. auto.
  - destruct (String.eqb k (id p)) eqn:Ek.
    + apply String.eqb_eq in Ek. subst k.
      exists a'. rewrite lookup_set_same.
      assert (a = arr) by congruence. subst a.
      split; [reflexivity|]. split; [exact Hlen|]. congruence.
    + apply String.eqb_neq in Ek. exists arr.
      rewrite lookup_set_other by exact Ek. auto.
Qed.


End AddFacts.

Module FigureFacts.
Import JsString Num Obj Rows Stats Props StatsFacts.
Local Open Scope string_scope.

Lemma min_stays post : forall f m n,
  f_min f = Some (Fin m, n) -> Forall finite post ->
  (forall o', In o' post -> m <= span o')%Z ->
  f_min (fold_left accumulate post f) = Some (Fin m, n).
Proof.
  induction post as [|x post IH]; intros f m n Hf Hall Hle; [exact Hf|].
  inversion Hall as [|? ? Hx Hall']; subst. cbn [fold_left]. apply IH; auto.
  - unfold accumulate. cbn [f_min]. rewrite Hf, (finite_sub x Hx).
    cbn [lt]. assert (m <= span x)%Z by (apply Hle; now left).
    replace (span x <? m)%Z with false by (symmetry; apply Z.ltb_ge; lia).
    reflexivity.
  - intros o' Ho. apply Hle. now right.
Qed.

Lemma max_stays post : forall f m n,
  f_max f = Some (Fin m, n) -> Forall finite post ->
  (forall o', In o' post -> span o' <= m)%Z ->
  f_max (fold_left accumulate post f) = Some (Fin m, n).
Proof.
  induction post as [|x post IH]; intros f m n Hf Hall Hle; [exact Hf|].
  inversion Hall as [|? ? Hx Hall']; subst. cbn [fold_left]. apply IH; auto.
  - unfold accumulate. cbn [f_max]. rewrite Hf, (finite_sub x Hx).
    unfold gt. cbn [lt]. assert (span x <= m)%Z by (apply Hle; now left).
    replace (m <? span x)%Z with false by (symmetry; apply Z.ltb_ge; lia).
    reflexivity.
  - intros o' Ho. apply Hle. now right.
Qed.

(** X14.  Among occurrences of equal duration the first one names the
    minimum, and the first one names the maximum: an occurrence strictly
    below all earlier ones and not above any later one is the minimum,
    and symmetrically for the maximum. *)
Theorem extremes_name_first pre o post :
  Forall finite (pre ++ o :: post)%list ->
  ((forall o', In o' pre -> span o < span o')%Z ->
   (forall o', In o' post -> span o <= span o')%Z ->
   f_min (figures (pre ++ o :: post)%list) = Some (Fin (span o), sv_root o)) /\
  ((forall o', In o' pre -> span o' < span o)%Z ->
   (forall o', In o' post -> span o' <= span o)%Z ->
   f_max (figures (pre ++ o :: post)%list) = Some (Fin (span o), sv_root o)).
Proof.
  intros Hall. apply Forall_app in Hall as [Hpre Hrest].
  inversion Hrest as [|? ? Ho Hpost]; subst.
  pose proof (figures_summarise pre Hpre) as [_ Hm].
  unfold figures in *. rewrite fold_left_app. cbn [fold_left].
  split; intros Hlt Hle.
  - apply min_stays; auto. unfold accumulate at 1. cbn [f_min].
    rewrite (finite_sub o Ho).
    destruct pre as [|p pre'].
    + cbn. reflexivity.
    + destruct Hm as [(o1 & Hin & E & _) _]. rewrite E. cbn [lt].
      specialize (Hlt o1 Hin).
      replace (span o <? span o1)%Z with true by (symmetry; apply Z.ltb_lt; lia).
      reflexivity.
  - apply max_stays; auto. unfold accumulate at 1. cbn [f_max].
    rewrite (finite_sub o Ho).
    destruct pre as [|p pre'].
    + cbn. reflexivity.
    + destruct Hm as [_ (o1 & Hin & E & _)]. rewrite E. unfold gt. cbn [lt].
      specialize (Hlt o1 Hin).
      replace (span o1 <? span o)%Z with true by (symmetry; apply Z.ltb_lt; lia).
      reflexivity.
Qed.

Lemma nan_stays rest : forall f n1 n2,
  f_total f = NaN -> f_min f = Some (NaN, n1) -> f_max f = Some (NaN, n2) ->
  let g := fold_left accumulate rest f in
  f_total g = NaN /\ f_min g = Some (NaN, n1) /\ f_max g = Some (NaN, n2).
Proof.
  induction rest as [|x rest IH]; intros f n1 n2 Ht Hi Ha; [cbn; auto|].
  cbn [fold_left]. apply IH; unfold accumulate; cbn [f_total f_min f_max].
  - now rewrite Ht.
  - rewrite Hi. now destruct (sub _ _).
  - rewrite Ha. unfold gt. reflexivity.
Qed.

(** X15.  When the first occurrence of a bucket has no numeric
    duration, the total, the minimum and the maximum of the bucket are
    [NaN] whatever follows, and both extremes keep the name of that
    first occurrence. *)
Theorem nan_first_poisons x rest :
  sub (sv_endTime x) (sv_startTime x) = NaN ->
  f_total (figures (x :: rest)) = NaN /\
  f_min (figures (x :: rest)) = Some (NaN, sv_root x) /\
  f_max (figures (x :: rest)) = Some (NaN, sv_root x).
Proof.
  intros H. unfold figures. cbn [fold_left].
  apply nan_stays; unfold accumulate; cbn [f_total f_min f_max]; now rewrite H.
Qed.

End FigureFacts.

Module RenameFacts.
Import JsString Num Obj Rows Stats Props ObjFacts StatsFacts StatProps AddFacts ObjMore.
Local Open Scope string_scope.

Lemma bearing_cons n r rows :
  bearing n (r :: rows) =
  ((if String.eqb (row_name r) n then 1 else 0) + bearing n rows)%nat.
Proof.
  unfold bearing. cbn [filter]. now destruct (String.eqb (row_name r) n).
Qed.

Lemma bearing_snoc n pre r :
  bearing n (pre ++ [r])%list =
  (bearing n pre + (if String.eqb (row_name r) n then 1 else 0))%nat.
Proof.
  unfold bearing. rewrite filter_app, length_app. cbn [filter].
  now destruct (String.eqb (row_name r) n).
Qed.

Lemma count_names_fold rows : forall t n,
  lookup n (fold_left (fun names row =>
               let name := name_str (lookup "Name" (s_data row)) in
               match lookup name names with
               | Some _ => Obj.set name 1%nat names
               | None =>
                   if String.eqb name "__proto__" then names
                   else if inherited name then Obj.set name 1%nat names
                   else Obj.set name 0%nat names
               end) rows t) =
  match lookup n t with
  | Some v => match bearing n rows with O => Some v | _ => Some 1%nat end
  | None =>
      match bearing n rows with
      | O => None
      | S k => if String.eqb n "__proto__" then None
               else if inherited n then Some 1%nat
               else match k with O => Some O | _ => Some 1%nat end
      end
  end.
Proof.
  induction rows as [|r rows IH]; intros t n.
  - cbn. now destruct (lookup n t).
  - cbn [fold_left]. rewrite IH, bearing_cons. fold (row_name r).
    destruct (String.eqb (row_name r) n) eqn:E.
    + apply String.eqb_eq in E. subst n. cbn [Nat.add].
      destruct (lookup (row_name r) t) eqn:L.
      * rewrite lookup_set_same. now destruct (bearing (row_name r) rows).
      * destruct (String.eqb (row_name r) "__proto__") eqn:P.
        -- rewrite L. now destruct (bearing (row_name r) rows).
        -- destruct (inherited (row_name r)); rewrite lookup_set_same;
             now destruct (bearing (row_name r) rows).
    + apply String.eqb_neq in E. cbn [Nat.add].
      assert (Hl : lookup n
                (match lookup (row_name r) t with
                 | Some _ => Obj.set (row_name r) 1%nat t
                 | None =>
                     if String.eqb (row_name r) "__proto__" then t
                     else if inherited (row_name r)
                          then Obj.set (row_name r) 1%nat t
                          else Obj.set (row_name r) 0%nat t
                 end) = lookup n t).
      { destruct (lookup (row_name r) t);
          [now apply lookup_set_other; congruence|].
        destruct (String.eqb (row_name r) "__proto__"); [reflexivity|].
        destruct (inherited (row_name r)); apply lookup_set_other; congruence. }
      now rewrite Hl.
Qed.

Lemma count_names_counted rows : counted rows [] (count_names rows).
Proof.
  intros n. unfold count_names. rewrite count_names_fold. cbn [lookup].
  destruct (String.eqb n "__proto__"); [now destruct (bearing n rows)|].
  destruct (bearing n rows) as [|[|k]]; try reflexivity;
    now destruct (inherited n).
Qed.

Lemma bearing_app n pre rest :
  bearing n (pre ++ rest)%list = (bearing n pre + bearing n rest)%nat.
Proof. unfold bearing. now rewrite filter_app, length_app. Qed.

Lemma with_Name_name r n : lookup "Name" (s_data (with_Name r n)) = Some n.
Proof. unfold with_Name. cbn [s_data]. apply lookup_set_same. Qed.

(** One row renamed: its name is the ranked one, the counters move on. *)
Lemma rename_counted pre r rest names :
  counted (pre ++ r :: rest)%list pre names ->
  lookup "Name" (s_data (fst (rename names r))) =
    ranked_name (pre ++ r :: rest)%list pre r /\
  counted (pre ++ r :: rest)%list (pre ++ [r])%list (snd (rename names r)).
Proof.
  intros Hc. unfold rename, ranked_name. fold (row_name r).
  pose proof (Hc (row_name r)) as Hr.
  assert (Hb : bearing (row_name r) (pre ++ r :: rest)%list =
               S (bearing (row_name r) pre + bearing (row_name r) rest)).
  { rewrite bearing_app, bearing_cons, String.eqb_refl. lia. }
  assert (Hother : forall n, String.eqb (row_name r) n = false ->
            bearing n (pre ++ [r])%list = bearing n pre).
  { intros n E. rewrite bearing_snoc, E. lia. }
  rewrite Hb in Hr.
  destruct (String.eqb (row_name r) "__proto__") eqn:P.
  - rewrite Hr. cbn [fst snd]. rewrite with_Name_name.
    split; [reflexivity|].
    intros n. rewrite Hc.
    destruct (String.eqb n "__proto__") eqn:Pn; [reflexivity|].
    rewrite Hother; [reflexivity|].
    apply String.eqb_eq in P. rewrite P.
    rewrite String.eqb_sym. exact Pn.
  - assert (Hset : forall v,
              counted (pre ++ r :: rest)%list (pre ++ [r])%list
                      (Obj.set (row_name r) v names) <->
              (v = match bearing (row_name r) pre + bearing (row_name r) rest with
                   | O => if inherited (row_name r)
                          then S (S (bearing (row_name r) pre)) else O
                   | _ => S (S (bearing (row_name r) pre))
                   end)%nat \/ False).
    { intros v. split; [|intros [->|[]]].
      - intros H. left. specialize (H (row_name r)).
        rewrite lookup_set_same, P, Hb, bearing_snoc, String.eqb_refl in H.
        destruct (bearing (row_name r) pre + bearing (row_name r) rest)%nat;
          [destruct (inherited (row_name r))|];
          injection H as ->; f_equal; lia.
      - intros n. destruct (String.eqb (row_name r) n) eqn:E.
        + apply String.eqb_eq in E. subst n.
          rewrite lookup_set_same, P, Hb, bearing_snoc, String.eqb_refl.
          destruct (bearing (row_name r) pre + bearing (row_name r) rest)%nat;
            [destruct (inherited (row_name r))|]; f_equal; lia.
        + rewrite (Hother n E). apply String.eqb_neq in E.
          rewrite lookup_set_other by congruence. apply Hc. }
    rewrite Hb.
    destruct (bearing (row_name r) pre + bearing (row_name r) rest)%nat
      as [|k] eqn:Ek.
    + cbn [Nat.leb orb].
      destruct (inherited (row_name r)) eqn:I; rewrite Hr; cbn [fst snd].
      * rewrite with_Name_name. split; [reflexivity|].
        apply Hset. now left.
      * split; [reflexivity|].
        intros n. destruct (String.eqb (row_name r) n) eqn:E.
        -- apply String.eqb_eq in E. subst n.
           rewrite Hr, P, Hb, I. reflexivity.
        -- rewrite (Hother n E). apply Hc.
    + rewrite Hr. cbn [fst snd Nat.leb orb]. rewrite with_Name_name.
      split; [reflexivity|]. apply Hset. now left.
Qed.

Section Traversal.

Variable js_eval : string -> EvalResult.
Variable substitute : string -> Values -> option string.
Variable profileFilter : option string.

(** [visit] renames the row and moves the counters of its level as
    [rename] does, whatever it collects. *)
Lemma visit_rename root r names c x' names' c' lg :
  visit js_eval substitute profileFilter root r names c =
    Some (x', names', c', lg) ->
  s_data x' = s_data (fst (rename names r)) /\
  names' = snd (rename names r).
Proof.
  destruct r as [da du de st en sm em]. cbn [visit].
  destruct (rename names _) as [r1 names1].
  destruct (each_row_duration _ _ _ _ _ _) as [[c1 log1]|]; [|discriminate].
  destruct (addStat _ _ _ _ _ _) as [[c2 log2]|]; [|discriminate].
  destruct de as [ds|].
  - match goal with
    | |- match ?f ds (count_names ds) c2 with _ => _ end = _ -> _ =>
        destruct (f ds (count_names ds) c2) as [[[ds' c3] log3]|];
          [|discriminate]
    end.
    intros H. injection H as <- <- _ _. cbn. auto.
  - intros H. injection H as <- <- _ _. cbn. auto.
Qed.

Lemma getStats_ranked rest : forall pre names c rows' c' lg,
  counted (pre ++ rest)%list pre names ->
  getStats js_eval substitute profileFilter rest names c =
    Some (rows', c', lg) ->
  map (fun r => lookup "Name" (s_data r)) rows' =
  ranked (pre ++ rest)%list pre rest.
Proof.
  induction rest as [|r rest IH]; intros pre names c rows' c' lg Hc H.
  - cbn in H. now injection H as <- _ _.
  - cbn [getStats] in H. cbn [ranked].
    destruct (visit js_eval substitute profileFilter None r names c)
      as [[[[x' names'] c1] lg1]|] eqn:Hv; [|discriminate].
    destruct (visit_rename _ _ _ _ _ _ _ _ Hv) as [Hd Hn].
    destruct (rename_counted pre r rest names Hc) as [Hname Hcnt].
    destruct (getStats js_eval substitute profileFilter rest names' c1)
      as [[[xs' c''] lg']|] eqn:Hg; [|discriminate].
    injection H as <- _ _. cbn [map]. rewrite Hd, Hname. f_equal.
    specialize (IH (pre ++ [r])%list names' c1 xs' c'' lg').
    rewrite <- app_assoc in IH. cbn [app] in IH.
    apply IH; [|exact Hg]. rewrite Hn. exact Hcnt.
Qed.

(** X16.  When [getStats] returns, it has left a row of the top level
    its name when no other row of the level bears it; rows that share
    a name get their rank appended, [name (1)], [name (2)], ..., in the
    order of the sorted level.  The counters are kept in an object
    literal: a name inherited from [Object.prototype] counts as shared
    even when one row bears it (a lone row [constructor] becomes
    [constructor (1)]), and every row named [__proto__] becomes
    [__proto__ ([object Object])]. *)
Theorem rows_sharing_a_name_are_ranked (rows rows' : list SRow)
        (c c' : Collect) (lg : list string) :
  getStats js_eval substitute profileFilter rows (count_names rows) c =
    Some (rows', c', lg) ->
  map (fun r => lookup "Name" (s_data r)) rows' = ranked rows [] rows.
Proof.
  intros H.
  apply (getStats_ranked rows [] (count_names rows) c rows' c' lg);
    [apply count_names_counted | exact H].
Qed.

End Traversal.

End RenameFacts.

Module CountFacts.
Import JsString Num Obj Rows Stats Props ObjFacts StatsFacts StatProps ObjMore.
Import RenameFacts.
Local Open Scope string_scope.

(** Induction over a tree of rows. *)
Lemma SRow_tree_ind (P : SRow -> Prop)
  (H : forall da du de st en sm em,
      match de with Some ds => Forall P ds | None => True end ->
      P (mkSRow da du de st en sm em)) :
  forall r, P r.
Proof.
  exact (fix go (r : SRow) : P r :=
    match r with
    | mkSRow da du de st en sm em =>
        H da du de st en sm em
          (match de return match de with Some ds => Forall P ds | None => True end with
           | None => I
           | Some ds =>
               (fix go_l (l : list SRow) : Forall P l :=
                  match l with
                  | [] => Forall_nil _
                  | x :: l' => Forall_cons x (go x) (go_l l')
                  end) ds
           end)
    end).
Qed.

Lemma weights_sum l :
  (fix sum (l : list SRow) : nat :=
     match l with
     | [] => 0
     | x :: l' => weight x + sum l'
     end)%nat l = weights l.
Proof. induction l as [|x l IH]; cbn; [reflexivity|now rewrite IH]. Qed.

Lemma plain_types_all l :
  (fix all (l : list SRow) : Prop :=
     match l with
     | [] => True
     | x :: l' => plain_types x /\ all l'
     end) l <-> Forall plain_types l.
Proof.
  induction l as [|x l IH]; split; intros H.
  - constructor.
  - exact I.
  - destruct H as [A B]. constructor; [exact A|now apply IH].
  - inversion H; subst. split; [assumption|now apply IH].
Qed.

Lemma replace_collected k (v a : list StatValue) stats :
  lookup k stats = Some a ->
  (fold_right (fun (kv : string * list StatValue) n => length (snd kv) + n) 0
     (replace k v stats) + length a =
   fold_right (fun (kv : string * list StatValue) n => length (snd kv) + n) 0
     stats + length v)%nat.
Proof.
  induction stats as [|[k' a'] stats IH]; cbn [lookup replace]; [discriminate|].
  destruct (String.eqb k' k); cbn [fold_right snd].
  - intros E. injection E as ->. lia.
  - intros E. specialize (IH E). lia.
Qed.

Lemma insert_collected k (v : list StatValue) stats :
  fold_right (fun (kv : string * list StatValue) n => (length (snd kv) + n)%nat) 0%nat
    (insert k v stats) =
  (length v +
   fold_right (fun (kv : string * list StatValue) n => (length (snd kv) + n)%nat)
     0%nat stats)%nat.
Proof.
  induction stats as [|[k' a'] stats IH]; cbn [insert]; [reflexivity|].
  destruct (before k k'); cbn [fold_right snd]; [reflexivity|].
  rewrite IH. lia.
Qed.

Lemma has_blank_app s t : has_blank (s ++ String " "%char t) = true.
Proof.
  induction s as [|a s IH]; cbn [append has_blank].
  - reflexivity.
  - rewrite IH. apply orb_true_r.
Qed.

Lemma inherited_no_blank k : inherited k = true -> has_blank k = false.
Proof.
  unfold inherited. cbn [existsb]. intros H.
  repeat (apply orb_prop in H as [H|H];
          [apply String.eqb_eq in H; subst k; reflexivity|]).
  discriminate.
Qed.

Lemma ranked_not_inherited s t : inherited (s ++ " (" ++ t) = false.
Proof.
  destruct (inherited (s ++ " (" ++ t)) eqn:E; [|reflexivity].
  apply inherited_no_blank in E.
  change (s ++ " (" ++ t) with (s ++ String " "%char ("(" ++ t)) in E.
  now rewrite has_blank_app in E.
Qed.

(** A row renamed at its place in its level never bears an inherited
    name. *)
Lemma renamed_not_inherited pre r rest names :
  counted (pre ++ r :: rest)%list pre names ->
  inherited (name_str (lookup "Name" (s_data (fst (rename names r))))) = false.
Proof.
  intros Hc. destruct (rename_counted pre r rest names Hc) as [-> _].
  unfold ranked_name.
  destruct (String.eqb (row_name r) "__proto__").
  - cbn [name_str]. apply ranked_not_inherited.
  - destruct (2 <=? bearing (row_name r) (pre ++ r :: rest))%nat; cbn [orb].
    + cbn [name_str]. apply ranked_not_inherited.
    + destruct (inherited (row_name r)) eqn:E.
      * cbn [name_str]. apply ranked_not_inherited.
      * exact E.
Qed.

Lemma rename_same names r :
  s_durations (fst (rename names r)) = s_durations r /\
  s_details (fst (rename names r)) = s_details r /\
  lookup "type" (s_data (fst (rename names r))) = lookup "type" (s_data r).
Proof.
  unfold rename. destruct (lookup _ names) as [[|n]|]; cbn [fst]; auto.
  - unfold with_Name. cbn [s_durations s_details s_data].
    rewrite lookup_set_other by discriminate. auto.
  - destruct (String.eqb _ "__proto__"); cbn [fst]; auto.
    unfold with_Name. cbn [s_durations s_details s_data].
    rewrite lookup_set_other by discriminate. auto.
Qed.

Section NoFilter.

Variable js_eval : string -> EvalResult.
Variable substitute : string -> Values -> option string.

Lemma addStat_counts o root c :
  inherited (bucket_of o) = false ->
  exists c',
    addStat js_eval substitute None o root c = Some (c', []) /\
    collected c' = S (collected c).
Proof.
  intros Hin. unfold addStat, executeExpression. cbn [is_false].
  rewrite Hin. unfold collected.
  destruct (lookup (bucket_of o) (c_stats c)) as [arr|] eqn:L;
    (eexists; split; [reflexivity|]);
    unfold record_stat; cbn [c_stats]; unfold Obj.set; rewrite L.
  - pose proof (replace_collected (bucket_of o)
                  (arr ++ [mkStatValue (o_startMs o) (o_endMs o) root])%list
                  arr (c_stats c) L) as H.
    rewrite length_app in H. cbn [length] in H. lia.
  - rewrite insert_collected. reflexivity.
Qed.

Lemma each_row_duration_counts root ds : forall c,
  Forall (fun d => inherited (sd_type d) = false) ds ->
  exists c',
    each_row_duration js_eval substitute None root ds c = Some (c', []) /\
    collected c' = (collected c + length (filter counts ds))%nat.
Proof.
  induction ds as [|d ds IH]; intros c Hall; cbn [each_row_duration filter].
  - exists c. split; [reflexivity|cbn; lia].
  - inversion Hall as [|? ? Hd Hds]; subst.
    unfold counts at 1. destruct (sd_ms d) as [[a b]|].
    + destruct (addStat_counts
                  (mkOccurrence (Some (sd_type d)) None a b (dur_values d))
                  root c) as (c1 & -> & A).
      { unfold bucket_of. cbn [o_type o_Name name_str].
        destruct (truthy (sd_type d)); [exact Hd|reflexivity]. }
      destruct (IH c1 Hds) as (c2 & -> & B).
      exists c2. split; [reflexivity|]. cbn [length]. lia.
    + apply IH. exact Hds.
Qed.

Lemma visit_counts : forall r root pre rest names c,
  plain_types r ->
  counted (pre ++ r :: rest)%list pre names ->
  exists x' c',
    visit js_eval substitute None root r names c =
      Some (x', snd (rename names r), c', []) /\
    collected c' = (collected c + weight r)%nat.
Proof.
  induction r as [da du de st en sm em IH] using SRow_tree_ind.
  intros root pre rest names c Hp Hc. cbn [visit].
  pose proof (renamed_not_inherited pre _ rest names Hc) as Hname.
  destruct (rename_same names (mkSRow da du de st en sm em)) as (Hdu & _ & Hty).
  destruct (rename names (mkSRow da du de st en sm em)) as [r1 names1].
  cbn [fst snd s_durations s_data] in *.
  destruct Hp as (Pty & Pdu & Pde).
  destruct (each_row_duration_counts root (s_durations r1) c) as (c1 & -> & A).
  { now rewrite Hdu. }
  rewrite Hdu in A.
  destruct (addStat_counts (occurrence_of r1) (root_or root r1) c1)
    as (c2 & -> & C).
  { unfold bucket_of, occurrence_of. cbn [o_type o_Name]. rewrite Hty.
    destruct (lookup "type" da) as [t|] eqn:Et; [|exact Hname].
    destruct (truthy t); [now apply Pty|exact Hname]. }
  destruct de as [ds|].
  - cbn [weight]. rewrite weights_sum.
    apply plain_types_all in Pde.
    assert (E : forall rest' pre' nm acc,
      Forall plain_types rest' ->
      Forall (fun x => forall root pre rest names c,
                plain_types x ->
                counted (pre ++ x :: rest)%list pre names ->
                exists x' c',
                  visit js_eval substitute None root x names c =
                    Some (x', snd (rename names x), c', []) /\
                  collected c' = (collected c + weight x)%nat) rest' ->
      counted (pre' ++ rest')%list pre' nm ->
      exists ds' c3,
        (fix each (l : list SRow) (nm : list (string * nat)) (acc : Collect)
             {struct l} : option (list SRow * Collect * list string) :=
           match l with
           | [] => Some ([], acc, [])
           | x :: l' =>
               match visit js_eval substitute None (root_or root r1) x nm acc with
               | None => None
               | Some (x', nm', acc', lg) =>
                   match each l' nm' acc' with
                   | None => None
                   | Some (xs', acc'', lg') =>
                       Some (x' :: xs', acc'', (lg ++ lg')%list)
                   end
               end
           end) rest' nm acc = Some (ds', c3, []) /\
        collected c3 = (collected acc + weights rest')%nat).
    { induction rest' as [|x l IHl]; intros pre' nm acc Hpl Hvis Hcnt.
      - exists [], acc. split; [reflexivity|cbn; lia].
      - inversion Hpl as [|? ? Hpx Hpl']; subst.
        inversion Hvis as [|? ? Hx Hvis']; subst.
        destruct (Hx (root_or root r1) pre' l nm acc Hpx Hcnt)
          as (x' & acc' & -> & Hacc).
        destruct (rename_counted pre' x l nm Hcnt) as [_ Hcnt'].
        specialize (IHl (pre' ++ [x])%list (snd (rename nm x)) acc' Hpl' Hvis').
        rewrite <- app_assoc in IHl. cbn [app] in IHl.
        destruct (IHl Hcnt') as (xs' & acc'' & -> & Hacc').
        exists (x' :: xs'), acc''. split; [reflexivity|].
        cbn [weights fold_right]. fold (weights l). lia. }
    destruct (E ds [] (count_names ds) c2 Pde IH (count_names_counted ds))
      as (ds' & c3 & -> & Hc3).
    eexists _, c3. split; [reflexivity|]. lia.
  - exists r1, c2. split; [reflexivity|]. cbn [weight]. lia.
Qed.

Lemma getStats_counts rest : forall pre names c,
  Forall plain_types rest ->
  counted (pre ++ rest)%list pre names ->
  exists rows' c',
    getStats js_eval substitute None rest names c = Some (rows', c', []) /\
    collected c' = (collected c + weights rest)%nat.
Proof.
  induction rest as [|x rest IH]; intros pre names c Hp Hc; cbn [getStats].
  - exists [], c. split; [reflexivity|cbn; lia].
  - inversion Hp as [|? ? Hx Hrest]; subst.
    destruct (visit_counts x None pre rest names c Hx Hc) as (x' & c1 & -> & A).
    destruct (rename_counted pre x rest names Hc) as [_ Hcnt].
    specialize (IH (pre ++ [x])%list (snd (rename names x)) c1 Hrest).
    rewrite <- app_assoc in IH. cbn [app] in IH.
    destruct (IH Hcnt) as (xs' & c2 & -> & B).
    exists (x' :: xs'), c2. split; [reflexivity|].
    cbn [weights fold_right]. fold (weights rest). lia.
Qed.

(** X24.  Without a [profileFilter], and when no [type] attribute and
    no label of a bucket is the name of a member of [Object.prototype],
    [getStats] returns: it has collected one occurrence for every row
    of every level and one for every bucket other than [Elapsed Time],
    and it has logged nothing. *)
Theorem unfiltered_stats_count_everything (rows : list SRow) (c : Collect) :
  Forall plain_types rows ->
  exists rows' c',
    getStats js_eval substitute None rows (count_names rows) c =
      Some (rows', c', []) /\
    collected c' = (collected c + weights rows)%nat.
Proof.
  intros Hp. apply (getStats_counts rows [] (count_names rows) c Hp).
  apply count_names_counted.
Qed.

End NoFilter.

End CountFacts.

Module SummaryFacts.
Import JsString Num Obj Rows Stats KeyFacts SummaryTable.
Local Open Scope string_scope.

Lemma length_append (a b : string) :
  String.length (a ++ b) = (String.length a + String.length b)%nat.
Proof. induction a as [|c a IH]; simpl; [reflexivity|now rewrite IH]. Qed.

Lemma fill_length (s : string) n :
  String.length (fill s n) = (n * String.length s)%nat.
Proof. induction n as [|n IH]; simpl; [reflexivity|]. now rewrite length_append, IH. Qed.

Lemma rule_length (s : string) widths :
  String.length s = 1%nat ->
  String.length ("+" ++ rule s widths) = table_width widths.
Proof.
  intros Hs. induction widths as [|w ws IH]; [reflexivity|].
  cbn [rule table_width fold_right]. fold (table_width ws).
  rewrite <- IH. rewrite !length_append, fill_length, Hs. cbn [String.length]. lia.
Qed.

Lemma line_length cs : forall widths,
  Forall2 (fun c w => (String.length c <= w)%nat) cs widths ->
  String.length ("|" ++ line cs widths) = table_width widths.
Proof.
  induction cs as [|c cs IH]; intros widths H; inversion H as [|? w ? ws Hc Hcs]; subst;
    [reflexivity|].
  cbn [line table_width fold_right hd tl]. fold (table_width ws).
  rewrite <- (IH ws Hcs).
  rewrite !length_append, fill_length. cbn [String.length]. lia.
Qed.

Lemma widen_cells types : forall cs ws,
  length cs = length types ->
  Forall2 (fun c w => (String.length c <= w)%nat) cs (widen types cs ws).
Proof.
  induction types as [|t types IH]; intros [|c cs] ws H; try discriminate;
    [constructor|].
  cbn [widen]. constructor; [lia|]. apply IH. now injection H.
Qed.

Lemma widen_types types : forall cs ws,
  length cs = length types ->
  ws = [] \/ Forall2 (fun t w => (String.length t <= w)%nat) types ws ->
  Forall2 (fun t w => (String.length t <= w)%nat) types (widen types cs ws).
Proof.
  induction types as [|t types IH]; intros [|c cs] ws H Hw; try discriminate;
    [constructor|].
  cbn [widen]. injection H as H. constructor.
  - destruct Hw as [->|Hw]; [lia|]. inversion Hw; subst.
    destruct y; lia.
  - apply IH; [exact H|]. destruct Hw as [->|Hw]; [now left|].
    inversion Hw; subst. now right.
Qed.

Lemma widen_grows types : forall cs ws,
  Forall2 (fun t w => (String.length t <= w)%nat) types ws ->
  length cs = length types ->
  Forall2 le ws (widen types cs ws).
Proof.
  induction types as [|t types IH]; intros [|c cs] ws Hw H; try discriminate;
    inversion Hw; subst; [constructor|].
  cbn [widen tl]. injection H as H. constructor; [destruct y; lia|].
  now apply IH.
Qed.

Lemma cells_length b : length (cells b) = length STATS_TYPES.
Proof. now destruct b. Qed.

Lemma Forall2_le_trans (cs : list string) ws ws' :
  Forall2 (fun c w => (String.length c <= w)%nat) cs ws -> Forall2 le ws ws' ->
  Forall2 (fun c w => (String.length c <= w)%nat) cs ws'.
Proof.
  intros H. revert ws'. induction H; intros ws' H'; inversion H'; subst;
    constructor; [lia|auto].
Qed.

(** Once the widths hold the titles, the widths of more buckets hold
    the titles, the cells of these buckets, and whatever the former
    widths held. *)
Lemma fold_widths stats : forall ws,
  Forall2 (fun t w => (String.length t <= w)%nat) STATS_TYPES ws ->
  let wf := fold_left (fun ws (kv : string * Bucket) =>
                         widen STATS_TYPES (cells (snd kv)) ws)
                      stats ws in
  Forall2 (fun t w => (String.length t <= w)%nat) STATS_TYPES wf /\
  Forall2 le ws wf /\
  forall kv, In kv stats ->
    Forall2 (fun c w => (String.length c <= w)%nat) (cells (snd kv)) wf.
Proof.
  induction stats as [|kv stats IH]; intros ws Hw; cbn [fold_left].
  - split; [exact Hw|]. split; [|intros ? []].
    clear. induction ws; constructor; auto.
  - pose proof (widen_types STATS_TYPES (cells (snd kv)) ws (cells_length _)
                  (or_intror Hw)) as Ht.
    pose proof (widen_grows STATS_TYPES (cells (snd kv)) ws Hw (cells_length _))
      as Hg.
    pose proof (widen_cells STATS_TYPES (cells (snd kv)) ws (cells_length _))
      as Hc.
    destruct (IH _ Ht) as (A & B & C). split; [exact A|]. split.
    + clear - Hg B. revert B.
      generalize (fold_left
        (fun ws (kv : string * Bucket) => widen STATS_TYPES (cells (snd kv)) ws)
        stats (widen STATS_TYPES (cells (snd kv)) ws)).
      induction Hg; intros fin B; inversion B; subst; constructor; [lia|auto].
    + intros kv' [<-|Hin]; [|now apply C].
      now apply (Forall2_le_trans _ _ _ Hc).
Qed.

Lemma widths_of_stats kv stats :
  let wf := columnWidths (kv :: stats) in
  Forall2 (fun t w => (String.length t <= w)%nat) STATS_TYPES wf /\
  forall kv', In kv' (kv :: stats) ->
    Forall2 (fun c w => (String.length c <= w)%nat) (cells (snd kv')) wf.
Proof.
  unfold columnWidths. cbn [fold_left].
  pose proof (widen_types STATS_TYPES (cells (snd kv)) [] (cells_length _)
                (or_introl eq_refl)) as Ht.
  pose proof (widen_cells STATS_TYPES (cells (snd kv)) [] (cells_length _)) as Hc.
  destruct (fold_widths stats _ Ht) as (A & B & C).
  split; [exact A|]. intros kv' [<-|Hin]; [|now apply C].
  now apply (Forall2_le_trans _ _ _ Hc).
Qed.

Lemma each_stat_unlines stats row widths :
  each_stat stats row widths =
  unlines (flat_map (fun kv => ["|" ++ line (cells (snd kv)) widths; row]) stats).
Proof.
  induction stats as [|[k b] stats IH]; [reflexivity|].
  cbn [each_stat flat_map app unlines snd]. rewrite IH.
  rewrite !app_assoc_s. reflexivity.
Qed.

(** X17.  [getSummary] returns the lines of the table, each followed
    by a line feed, then the total execution time if there is one.  As
    soon as the statistics hold a bucket, all the lines of the table
    have the same length; without any, the rules shrink to a single
    [+] under the unpadded titles. *)
Theorem summary_table_is_aligned (st : StatsResult) :
  getSummary st =
    unlines (table_lines st) ++
    (if truthy (sr_totalDuration st)
     then "Total Execution Time: " ++ sr_totalDuration st ++ nl
     else "") /\
  (objects (sr_buckets st) <> [] ->
   forall l, In l (table_lines st) ->
     String.length l = table_width (columnWidths (objects (sr_buckets st)))) /\
  (objects (sr_buckets st) = [] ->
   table_lines st =
     ["+"; "| Name | Calls | Total Duration | Avg Duration | Min Duration | Max Duration |"; "+"]).
Proof.
  split; [|split].
  - unfold getSummary, table_lines. cbv zeta.
    rewrite each_stat_unlines. cbn [unlines].
    rewrite !app_assoc_s. reflexivity.
  - intros Hne l Hin. unfold table_lines in Hin. cbv zeta in Hin.
    destruct (objects (sr_buckets st)) as [|kv stats] eqn:E; [congruence|].
    destruct (widths_of_stats kv stats) as [Ht Hc].
    destruct Hin as [<-|[<-|[<-|Hin]]].
    + now apply rule_length.
    + now apply line_length.
    + now apply rule_length.
    + apply in_flat_map in Hin as (kv' & Hkv & [<-|[<-|[]]]).
      * apply line_length. now apply Hc.
      * now apply rule_length.
  - intros E. unfold table_lines. rewrite E. reflexivity.
Qed.

End SummaryFacts.

Module PopupFacts.
Import Popup.
Local Open Scope Z_scope.

(** X18.  A popup no wider than the table, the pointer not left of
    the table: [move] puts the popup at most 10 pixels right of and
    below the pointer, not left of the table, and neither its right nor
    its bottom edge passes that of the table; on each axis the popup is
    either 10 pixels from the pointer or flush with that edge. *)
Theorem popup_stays_inside (tbody popup : Node) (mouseX mouseY : Z) :
  offsetWidth popup <= offsetWidth tbody ->
  getX tbody <= mouseX ->
  let x := fst (move tbody popup mouseX mouseY) in
  let y := snd (move tbody popup mouseX mouseY) in
  getX tbody <= x /\
  x + offsetWidth popup <= getX tbody + offsetWidth tbody /\
  y + offsetHeight popup <= getY tbody + offsetHeight tbody /\
  x <= mouseX + 10 /\ y <= mouseY + 10 /\
  (x = mouseX + 10 \/ x + offsetWidth popup = getX tbody + offsetWidth tbody) /\
  (y = mouseY + 10 \/ y + offsetHeight popup = getY tbody + offsetHeight tbody).
Proof.
  intros Hw Hx. unfold move. cbn [fst snd]. lia.
Qed.

End PopupFacts.

Module DispatchFacts.
Import JsString Regex Key Shape Num Obj Prof Reconciler Props.
Import ObjFacts KeyFacts ProfFacts ReconcilerFacts RepeatFacts MatchFacts KeyProps KeyMore Dispatch.
Local Open Scope string_scope.

Lemma clean_nonblank s : s <> "" -> clean s -> ~ blank s.
Proof.
  intros Hne [A B] H. unfold blank in H. rewrite trim_clean in H by assumption.
  congruence.
Qed.

(** The key [/name]. *)
Lemma mojit_key name :
  plain name -> clean name ->
  valid ("/" ++ name) = true /\
  parse (trim ("/" ++ name)) = Some (mkKey [name] None true).
Proof.
  intros Hp Hc. pose proof (clean_nonblank name (proj1 Hp) Hc) as Hnb.
  assert (Ht : trim ("/" ++ name) = "/" ++ name).
  { rewrite trim_app by (try exact Hnb; discriminate).
    destruct Hc as [_ B]. now rewrite trim_right_clean. }
  assert (Hr : "/" ++ name = render true name [] None).
  { unfold render. cbn [tail_str lab_str]. now rewrite !app_empty_r. }
  unfold valid. rewrite Ht. split.
  - apply andb_true_iff. split; [reflexivity|].
    rewrite Hr. apply lang_test, render_lang; auto. exact I.
  - rewrite Hr, parse_padded; auto; try exact I.
    cbn [map option_map]. destruct Hc. now rewrite trim_clean.
Qed.

(** The key [/name/stage]. *)
Lemma stage_key name stage :
  plain name -> clean name -> plain stage -> clean stage ->
  valid ("/" ++ name ++ "/" ++ stage) = true /\
  parse (trim ("/" ++ name ++ "/" ++ stage)) =
    Some (mkKey [name; stage] None true).
Proof.
  intros Hp Hc Hsp Hsc.
  pose proof (clean_nonblank name (proj1 Hp) Hc) as Hnb.
  pose proof (clean_nonblank stage (proj1 Hsp) Hsc) as Hsb.
  assert (Hr : "/" ++ name ++ "/" ++ stage = render true name [stage] None).
  { unfold render. cbn [tail_str lab_str]. now rewrite !app_empty_r. }
  assert (Ht : trim ("/" ++ name ++ "/" ++ stage) = "/" ++ name ++ "/" ++ stage).
  { rewrite trim_app; [|discriminate|].
    - cbn [trim_left is_ws]. f_equal.
      rewrite trim_right_app by (apply nonblank_app_r; exact Hsb).
      f_equal. rewrite trim_right_app by exact Hsb.
      destruct Hsc as [_ B]. now rewrite trim_right_clean.
    - apply nonblank_app_r, nonblank_app_r, Hsb. }
  unfold valid. rewrite Ht. split.
  - apply andb_true_iff. split; [reflexivity|].
    rewrite Hr. apply lang_test, render_lang; auto. exact I.
  - rewrite Hr, parse_padded;
      [|auto|auto|exact I|repeat constructor; assumption|exact I].
    cbn [map option_map]. destruct Hc, Hsc. now rewrite !trim_clean.
Qed.

Lemma start_pushes s raw t d pk :
  valid raw = true -> parse (trim raw) = Some pk ->
  step s (Start raw t d) =
  Some (mkState (stack s ++ [set (mkSetData (Some t) None d) (newProfile pk)])
                (events s) (origin (absoluteStartTime s) (Start raw t d)), []).
Proof.
  intros V P. unfold step. now rewrite valid_guard, V, P.
Qed.

Lemma rooted_end_adds s raw t d pk st e r0 :
  valid raw = true -> parse (trim raw) = Some pk -> root pk = true ->
  stack s = (st ++ [e])%list -> nth_error st 0 = Some r0 ->
  entry_key e = toString pk ->
  add_throws (closed_profile e t d) (focus r0) = false ->
  step s (End raw t d) =
  Some (mkState (update 0 (add_to (closed_profile e t d)) st)
                (events s) (origin (absoluteStartTime s) (End raw t d)), []).
Proof.
  intros V P R Hst H0 Hk Hthrow. unfold step. rewrite valid_guard, V, P.
  cbn [negb orb]. unfold step_end.
  assert (Hne : st <> []) by (intros ->; discriminate).
  rewrite Hst, (find_open_last _ _ _ Hne Hk), nth_error_last, splice_last, R.
  unfold add_at. rewrite H0. fold (closed_profile e t d). rewrite Hthrow.
  reflexivity.
Qed.

(** The chain of a started key whose segments are no inherited names
    is sound once closed. *)
Lemma sound_pushed pk t1 d1 t2 d2 :
  forallb (fun i => negb (inherited i)) (profiles pk) = true ->
  sound (closed_profile (set (mkSetData (Some t1) None d1) (newProfile pk))
                        t2 d2) = true.
Proof.
  intros H. rewrite sound_closed.
  rewrite (sound_frame _ _ (set_frame _ _)). now apply sound_new.
Qed.

(** A stage started and ended under the open mojit: its chain is added
    to the root, the mojit stays on the stack. *)
Lemma stage_pair s rootE P raw pk t1 d1 t2 d2 :
  valid raw = true -> parse (trim raw) = Some pk -> root pk = true ->
  profiles pk <> [] ->
  forallb (fun i => negb (inherited i)) (profiles pk) = true ->
  sound (focus rootE) = true ->
  stack s = [rootE; P] ->
  exists s',
    run s [Start raw t1 d1; End raw t2 d2] = Some (s', []) /\
    stack s' =
      [add_to (closed_profile (set (mkSetData (Some t1) None d1) (newProfile pk))
                              t2 d2) rootE; P] /\
    sound (focus (add_to (closed_profile (set (mkSetData (Some t1) None d1)
                                              (newProfile pk)) t2 d2)
                         rootE)) = true.
Proof.
  intros V Hp R Hne Hsafe Hroot Hst.
  destruct (add_sound _ (sound_pushed pk t1 d1 t2 d2 Hsafe) _ Hroot) as [Hth Hso].
  eexists. split; [|split].
  - cbn [run]. rewrite (start_pushes _ _ _ _ _ V Hp).
    rewrite (rooted_end_adds _ raw t2 d2 pk [rootE; P]
               (set (mkSetData (Some t1) None d1) (newProfile pk)) rootE V Hp R);
      [reflexivity| |reflexivity|now apply entry_key_pushed|exact Hth].
    cbn [stack]. rewrite Hst. reflexivity.
  - reflexivity.
  - exact Hso.
Qed.

Lemma stage_plain_clean stage : In stage stages -> plain stage /\ clean stage.
Proof.
  intros [<-|[<-|[<-|[<-|[]]]]]; (split; split; [discriminate|reflexivity|reflexivity|reflexivity]).
Qed.

Lemma set_singleton (V : Type) i (v w : V) : Obj.set i v [(i, w)] = [(i, v)].
Proof.
  unfold Obj.set. cbn [lookup]. rewrite String.eqb_refl. cbn [replace].
  now rewrite String.eqb_refl.
Qed.

(** A name that is no array index is enumerated last. *)
Lemma set_new (V : Type) k (v : V) o :
  lookup k o = None -> is_index k = false -> Obj.set k v o = (o ++ [(k, v)])%list.
Proof.
  intros Hl Hi. unfold Obj.set. rewrite Hl. clear Hl.
  induction o as [|[k' v'] o IH]; cbn [insert app]; [reflexivity|].
  unfold before. rewrite Hi. cbn [andb]. now rewrite IH.
Qed.

(** A closed chain [i/stage] added under an occurrence of [i] that is
    still open: the stage moves under that occurrence. *)
Lemma add_open_child X parent i lp stage leaf :
  id X = i -> truthy i = true -> durations X = None ->
  children X = [(stage, [leaf])] ->
  startTime lp = None ->
  truthy (id leaf) = true -> inherited (id leaf) = false ->
  lookup (id leaf) (children lp) = None ->
  add X (with_children parent [(i, [lp])]) =
  with_children parent
    [(i, [with_children lp (Obj.set (id leaf) [leaf] (children lp))])].
Proof.
  intros Hi Ht Hd Hc Hs Hl Hin Hn.
  rewrite add_eq, add_run_eq, Hi, Ht, Hd, Hc.
  cbn [negb children with_children lookup].
  rewrite String.eqb_refl. cbn [map last]. rewrite Hs.
  cbv zeta. cbn [add_each_key add_each_child].
  rewrite (add_run_first leaf lp Hl Hin Hn).
  cbn [fst map_last]. now rewrite set_singleton.
Qed.

(** The end of [i] itself, its occurrence still open: the two merge. *)
Lemma add_closing X parent i lp :
  id X = i -> truthy i = true -> durations X = None -> children X = [] ->
  startTime lp = None ->
  add X (with_children parent [(i, [lp])]) =
  with_children parent [(i, [merge_into lp X])].
Proof.
  intros Hi Ht Hd Hc Hs.
  rewrite add_eq, add_run_eq, Hi, Ht, Hd, Hc.
  cbn [negb children with_children lookup].
  rewrite String.eqb_refl. cbn [map last]. rewrite Hs.
  cbv zeta. cbn [fst map_last]. now rewrite set_singleton.
Qed.

Lemma stage_chain_facts name stage t1 d1 t2 :
  let X := closed_profile
             (set (mkSetData (Some t1) None d1)
                  (newProfile (mkKey [name; stage] None true))) t2 [] in
  id X = name /\ durations X = None /\ startTime X = None /\
  children X = [(stage, [stage_leaf stage t1 d1 t2])] /\
  data X = [] /\ id (stage_leaf stage t1 d1 t2) = stage.
Proof. cbv zeta. repeat split. Qed.

(** X19.  The calls of one dispatch, for a mojit whose name has no
    separator and no white space at its ends and is not the name of a
    member of [Object.prototype], are reconciled without any error
    into one row for the mojit under the root: it spans from the
    [start] of [dispatch] to the [end] of [adapter.done], keeps the
    data of that [start], and its children are the four stages, one
    profile each, in the order they began. *)
Theorem dispatch_builds_one_row (name : string) (time : nat -> rawtime) :
  plain name -> clean name -> inherited name = false ->
  exists r p,
    processCalls (dispatch_calls name time) = Some r /\
    r_log r = [] /\
    children (rootProfile r) = [(name, [p])] /\
    children p = stage_rows time /\
    startTime p = (if truthy_time (time 0%nat) then Some (time 0%nat) else None) /\
    endTime p = Some (time 9%nat) /\
    lookup "profileType" (data p) = Some "mojit".
Proof.
  intros Hp Hc Hin.
  destruct (mojit_key name Hp Hc) as [V0 P0].
  assert (Hs : forall stage, In stage stages ->
             valid ("/" ++ name ++ "/" ++ stage) = true /\
             parse (trim ("/" ++ name ++ "/" ++ stage)) =
               Some (mkKey [name; stage] None true)).
  { intros stage Hi. destruct (stage_plain_clean stage Hi).
    now apply stage_key. }
  destruct (Hs "Expand Instance") as [V1 P1]; [cbn; auto|].
  destruct (Hs "Create Action Context") as [V2 P2]; [cbn; auto|].
  destruct (Hs "Controller") as [V3 P3]; [cbn; auto|].
  destruct (Hs "Render") as [V4 P4]; [cbn; auto 6|].
  clear Hs.
  assert (Ht : truthy name = true) by (apply truthy_iff, Hp).
  assert (Hsafe : forall stage, inherited stage = false ->
            forallb (fun i => negb (inherited i))
                    (profiles (mkKey [name; stage] None true)) = true).
  { intros stage Hst. cbn [profiles forallb]. now rewrite Hin, Hst. }
  set (P := set (mkSetData (Some (time 0%nat)) None [("profileType", "mojit")])
                (newProfile (mkKey [name] None true))).
  set (s1 := mkState [rootEntry; P] [] (Some (time 0%nat))).
  assert (H1 : run init [Start ("/" ++ name) (time 0%nat) [("profileType", "mojit")]]
               = Some (s1, [])).
  { cbn [run]. rewrite (start_pushes _ _ _ _ _ V0 P0). reflexivity. }
  destruct (stage_chain_facts name "Expand Instance" (time 1%nat)
              [("profileType", "mojito")] (time 2%nat)) as (I1 & D1 & S1 & C1 & A1 & L1).
  destruct (stage_chain_facts name "Create Action Context" (time 3%nat)
              [("profileType", "mojito")] (time 4%nat)) as (I2 & D2 & _ & C2 & _ & L2).
  destruct (stage_chain_facts name "Controller" (time 5%nat)
              [("profileType", "mojito")] (time 6%nat)) as (I3 & D3 & _ & C3 & _ & L3).
  destruct (stage_chain_facts name "Render" (time 7%nat)
              [("level", "mojito")] (time 8%nat)) as (I4 & D4 & _ & C4 & _ & L4).
  cbv zeta in *.
  set (X1 := closed_profile _ (time 2%nat) []) in *.
  set (X2 := closed_profile _ (time 4%nat) []) in *.
  set (X3 := closed_profile _ (time 6%nat) []) in *.
  set (X4 := closed_profile _ (time 8%nat) []) in *.
  destruct (stage_pair s1 rootEntry P _ _ (time 1%nat) [("profileType", "mojito")]
              (time 2%nat) [] V1 P1 eq_refl ltac:(discriminate)
              (Hsafe "Expand Instance" eq_refl) eq_refl eq_refl)
    as (s2 & R2 & St2 & So2).
  destruct (stage_pair s2 _ P _ _ (time 3%nat) [("profileType", "mojito")]
              (time 4%nat) [] V2 P2 eq_refl ltac:(discriminate)
              (Hsafe "Create Action Context" eq_refl) So2 St2)
    as (s3 & R3 & St3 & So3).
  destruct (stage_pair s3 _ P _ _ (time 5%nat) [("profileType", "mojito")]
              (time 6%nat) [] V3 P3 eq_refl ltac:(discriminate)
              (Hsafe "Controller" eq_refl) So3 St3)
    as (s4 & R4 & St4 & So4).
  destruct (stage_pair s4 _ P _ _ (time 7%nat) [("level", "mojito")]
              (time 8%nat) [] V4 P4 eq_refl ltac:(discriminate)
              (Hsafe "Render" eq_refl) So4 St4)
    as (s5 & R5 & St5 & So5).
  fold X1 in St2, St3, St4, St5. fold X2 in St3, St4, St5.
  fold X3 in St4, St5. fold X4 in St5.
  assert (HM : sound (closed_profile P (time 9%nat) []) = true).
  { apply sound_pushed. cbn [profiles forallb]. now rewrite Hin. }
  pose proof (rooted_end_adds s5 ("/" ++ name) (time 9%nat) [] _ [_] P _ V0 P0
                eq_refl St5 eq_refl
                (entry_key_pushed (mkKey [name] None true) _ ltac:(discriminate))
                (proj1 (add_sound _ HM _ So5))) as R6.
  set (M := closed_profile P (time 9%nat) []) in *.
  unfold processCalls, dispatch_calls.
  match goal with
  | |- context [run init (?c0 :: ?c1 :: ?c2 :: ?c3 :: ?c4 :: ?c5 :: ?c6 :: ?c7 :: ?c8 :: ?c9 :: nil)] =>
      change (c0 :: c1 :: c2 :: c3 :: c4 :: c5 :: c6 :: c7 :: c8 :: [c9])
        with ([c0] ++ [c1; c2] ++ [c3; c4] ++ [c5; c6] ++ [c7; c8] ++ [c9])%list
  end.
  rewrite (run_app _ _ _ _ _ H1), (run_app _ _ _ _ _ R2), (run_app _ _ _ _ _ R3),
    (run_app _ _ _ _ _ R4), (run_app _ _ _ _ _ R5).
  cbn [run]. rewrite R6. cbn [app].
  unfold finish. cbn [stack update sweep r_log rootProfile app].
  unfold add_to. cbn [focus spine].
  (* the five additions to the root *)
  set (r0 := focus rootEntry).
  assert (E1 : add X1 r0 = with_children r0 [(name, [X1])]).
  { rewrite add_first; rewrite ?I1; auto. }
  rewrite E1.
  set (l1 := stage_leaf "Expand Instance" _ _ _) in *.
  set (l2 := stage_leaf "Create Action Context" _ _ _) in *.
  set (l3 := stage_leaf "Controller" _ _ _) in *.
  set (l4 := stage_leaf "Render" _ _ _) in *.
  rewrite (add_open_child X2 r0 name X1 _ l2 I2 Ht D2 C2 S1);
    [|now rewrite L2|now rewrite L2|now rewrite L2, C1].
  rewrite L2, C1, set_new by reflexivity. cbn [app].
  rewrite (add_open_child X3 r0 name _ _ l3 I3 Ht D3 C3);
    [|exact S1|now rewrite L3|now rewrite L3|now rewrite L3].
  rewrite L3. cbn [children with_children].
  rewrite set_new by reflexivity. cbn [app].
  rewrite (add_open_child X4 r0 name _ _ l4 I4 Ht D4 C4);
    [|exact S1|now rewrite L4|now rewrite L4|now rewrite L4].
  rewrite L4. cbn [children with_children].
  rewrite set_new by reflexivity. cbn [app].
  rewrite (add_closing M r0 name _ eq_refl Ht eq_refl eq_refl); [|exact S1].
  eexists. eexists. split; [reflexivity|].
  cbn [r_log rootProfile children with_children].
  split; [reflexivity|]. split; [reflexivity|].
  repeat split.
Qed.

End DispatchFacts.

Module MoreWitnesses.
Import JsString Regex Key Shape Num Obj Prof Reconciler Rows Stats Waterfall Props Demo.
Import KeyProps LogProps RowProps LifeProps StatProps SummaryTable Popup Dispatch
       OriginProps Samples.
Import KeyMore LogFacts RowFacts LifeFacts AddFacts FigureFacts RenameFacts
       SummaryFacts PopupFacts DispatchFacts OriginFacts CountFacts.
Local Open Scope string_scope.

Lemma parse_ignores_padding_witness :
  parse (render true " a " ["b "] (Some " x")) =
    Some (mkKey (map trim [" a "; "b "]) (option_map trim (Some " x")) true) /\
  toString (mkKey (map trim [" a "; "b "]) (option_map trim (Some " x")) true) =
    render true (trim " a ") (map trim ["b "]) (option_map trim (Some " x")).
Proof.
  apply (parse_ignores_padding true " a " ["b "] (Some " x")).
  - split; [discriminate|reflexivity].
  - repeat constructor; discriminate.
  - split; [discriminate|reflexivity].
  - repeat constructor; intros H; vm_compute in H; discriminate.
  - intros H; vm_compute in H; discriminate.
Defined.


Lemma sweep_reports_open_profiles_witness :
  exists s log r,
    run init open_p = Some (s, log) /\
    processCalls open_p = Some r /\
    r_log r = (log ++ map never_ended (tl (stack s)))%list.
Proof.
  apply (sweep_reports_open_profiles open_p). reflexivity.
Defined.

Lemma rows_of_any_log_witness :
  exists rows absEnd,
    buildRows true (r_origin span_x_result) (rootProfile span_x_result) =
      Some (rows, absEnd).
Proof.
  apply (rows_of_any_log true span_x span_x_result). reflexivity.
Defined.

Lemma rows_sharing_a_name_are_ranked_witness :
  map (fun r => lookup "Name" (s_data r)) (fst (fst three_rows_stats)) =
  ranked three_rows [] three_rows.
Proof.
  apply (rows_sharing_a_name_are_ranked eval_throws substitute_none None
           three_rows (fst (fst three_rows_stats)) (mkCollect [] None None)
           (snd (fst three_rows_stats)) (snd three_rows_stats)).
  reflexivity.
Defined.

Lemma unfiltered_stats_count_everything_witness :
  exists rows' c',
    getStats eval_throws substitute_none None three_rows
             (count_names three_rows) (mkCollect [] None None) =
      Some (rows', c', []) /\
    collected c' = (collected (mkCollect [] None None) + weights three_rows)%nat.
Proof.
  apply (unfiltered_stats_count_everything eval_throws substitute_none
           three_rows (mkCollect [] None None)).
  repeat constructor; cbn; intros; try discriminate.
Defined.

Lemma repeated_pairs_in_call_order_witness :
  exists s' parent',
    run init (repeated "a" two_pairs) = Some (s', []) /\
    stack s' = ([] ++ [parent'])%list /\
    lookup (trim "a") (children (focus parent')) =
      Some (map (profile_of_pair (trim "a")) two_pairs) /\
    map (fun p => (startTime p, endTime p))
        (map (profile_of_pair (trim "a")) two_pairs) =
      map (fun x : Pair => (Some (fst (fst (fst x))), Some (snd (fst x)))) two_pairs.
Proof.
  apply (repeated_pairs_in_call_order "a" two_pairs init [] rootEntry);
    try reflexivity.
  - repeat constructor.
  - discriminate.
Defined.

Lemma unended_parent_children_survive_witness :
  exists r,
    processCalls (Start "p" (TNum 1) [] :: repeated "a" two_pairs) = Some r /\
    children (rootProfile r) =
      [(trim "a", map (profile_of_pair (trim "a")) two_pairs)] /\
    r_log r = [error "End was never called." (trim "p")].
Proof.
  apply (unended_parent_children_survive "p" (TNum 1) [] "a" two_pairs);
    try reflexivity.
  - repeat constructor.
  - discriminate.
Defined.

Lemma buckets_cover_span_witness :
  lt (total (row_durations timed_row)) (row_span timed_row) = false /\
  (labels timed_profile = [] ->
   row_durations timed_row = [("Elapsed Time", row_span timed_row)]) /\
  (labels timed_profile <> [] ->
     map fst (row_durations timed_row) = labels timed_profile \/
     map fst (row_durations timed_row) = (labels timed_profile ++ ["Other"])%list /\
     total (row_durations timed_row) = row_span timed_row).
Proof.
  apply (buckets_cover_span true (Some (TNum 1)) timed_profile (Fin 0)
           timed_row (Fin 8) 9).
  - simpl. lia.
  - simpl. repeat split; try lia. repeat constructor; simpl; lia.
  - unfold exact_for. simpl. lia.
  - reflexivity.
Defined.

Lemma add_keeps_children_witness :
  exists arr',
    lookup "b" (children (add (node ["a"] None false) one_child)) = Some arr' /\
    (length [node ["b"] None false] <= length arr')%nat /\
    ("b" <> id (node ["a"] None false) -> arr' = [node ["b"] None false]).
Proof.
  apply (add_keeps_children (node ["a"] None false) one_child "b"
           [node ["b"] None false]).
  reflexivity.
Defined.


Lemma extremes_name_first_witness :
  f_min (figures ([mkStatValue (Fin 0) (Fin 5) (Some "r")] ++
                  mkStatValue (Fin 2) (Fin 4) (Some "a") ::
                  [mkStatValue (Fin 7) (Fin 9) (Some "b")])%list) =
  Some (Fin (span (mkStatValue (Fin 2) (Fin 4) (Some "a"))),
        sv_root (mkStatValue (Fin 2) (Fin 4) (Some "a"))).
Proof.
  apply (proj1 (extremes_name_first
                  [mkStatValue (Fin 0) (Fin 5) (Some "r")]
                  (mkStatValue (Fin 2) (Fin 4) (Some "a"))
                  [mkStatValue (Fin 7) (Fin 9) (Some "b")]
                  ltac:(repeat constructor; eexists; eexists; split; reflexivity))).
  - intros o' [<-|[]]. vm_compute. reflexivity.
  - intros o' [<-|[]]. vm_compute. discriminate.
Defined.

Lemma nan_first_poisons_witness :
  f_total (figures (no_start :: two_occurrences)) = NaN /\
  f_min (figures (no_start :: two_occurrences)) = Some (NaN, sv_root no_start) /\
  f_max (figures (no_start :: two_occurrences)) = Some (NaN, sv_root no_start).
Proof.
  apply (nan_first_poisons no_start two_occurrences). reflexivity.
Defined.

Lemma summary_table_is_aligned_witness :
  String.length ("+" ++ rule "=" (columnWidths (objects (sr_buckets one_bucket)))) =
  table_width (columnWidths (objects (sr_buckets one_bucket))).
Proof.
  apply (proj1 (proj2 (summary_table_is_aligned one_bucket))).
  - discriminate.
  - left. reflexivity.
Defined.

Lemma popup_stays_inside_witness :
  let x := fst (move table_body small_popup 95 45) in
  let y := snd (move table_body small_popup 95 45) in
  (getX table_body <= x /\
   x + offsetWidth small_popup <= getX table_body + offsetWidth table_body /\
   y + offsetHeight small_popup <= getY table_body + offsetHeight table_body /\
   x <= 95 + 10 /\ y <= 45 + 10 /\
   (x = 95 + 10 \/
    x + offsetWidth small_popup = getX table_body + offsetWidth table_body) /\
   (y = 45 + 10 \/
    y + offsetHeight small_popup = getY table_body + offsetHeight table_body))%Z.
Proof.
  apply (popup_stays_inside table_body small_popup 95 45); simpl; lia.
Defined.

Lemma dispatch_builds_one_row_witness :
  exists r p,
    processCalls (dispatch_calls "weather" ticking) = Some r /\
    r_log r = [] /\
    children (rootProfile r) = [("weather", [p])] /\
    children p = stage_rows ticking /\
    startTime p = (if truthy_time (ticking 0%nat) then Some (ticking 0%nat) else None) /\
    endTime p = Some (ticking 9%nat) /\
    lookup "profileType" (data p) = Some "mojit".
Proof.
  apply (dispatch_builds_one_row "weather" ticking).
  - split; [discriminate|reflexivity].
  - split; reflexivity.
  - reflexivity.
Defined.

Lemma zero_starts_collapse_witness :
  exists s' parent' q,
    run init (repeated "a" zero_pairs) = Some (s', []) /\
    stack s' = ([] ++ [parent'])%list /\
    lookup (trim "a") (children (focus parent')) = Some [q] /\
    startTime q = None /\ endTime q = last_end zero_pairs None.
Proof.
  apply (zero_starts_collapse "a" zero_pairs init [] rootEntry);
    try reflexivity.
  - repeat constructor.
  - discriminate.
Defined.

Lemma durations_ignore_origin_witness :
  exists r x r' x',
    createRows true (Some (TNum 1)) timed_profile (Fin 0) = Some (r, x) /\
    createRows true (Some (TNum 4)) timed_profile (Fin 0) = Some (r', x') /\
    untimed r = untimed r' /\
    shifted (drift (TNum 1) (TNum 4)) (row_startTime r) (row_startTime r') /\
    shifted (drift (TNum 1) (TNum 4)) (row_endTime r) (row_endTime r').
Proof.
  apply (durations_ignore_origin true (TNum 1) (TNum 4) timed_profile
           (Fin 0) (Fin 0) 9 1).
  - simpl. lia.
  - simpl. lia.
  - simpl. repeat split; try lia. repeat constructor; simpl; lia.
  - simpl. split; [lia|exact I].
  - unfold exact_for. simpl. lia.
  - exact I.
Defined.

Lemma resume_clear_then_record_witness :
  _calls (after (create None None)
                ([Pause; DoStart "x" (TNum 1) []] ++ [Resume; Clear] ++
                 [DoStart "a" (TNum 2) []; DoEnd "a" (TNum 3) []])) =
  flat_map call_of [DoStart "a" (TNum 2) []; DoEnd "a" (TNum 3) []].
Proof.
  apply (resume_clear_then_record None None [Pause; DoStart "x" (TNum 1) []]
           [DoStart "a" (TNum 2) []; DoEnd "a" (TNum 3) []]).
  reflexivity.
Defined.

Lemma configure_merges_stats_witness :
  stats_option (config (after (create (Some (mkConfig None [])) None)
                              [Configure filter_config])) "profileFilter" =
    match config (create (Some (mkConfig None [])) None) with
    | None => None
    | Some c0 =>
        match stats_option (Some filter_config) "profileFilter" with
        | Some v => Some v
        | None => stats_option (Some c0) "profileFilter"
        end
    end /\
  _calls (after (create (Some (mkConfig None [])) None) [Configure filter_config]) =
  _calls (create (Some (mkConfig None [])) None).
Proof.
  apply (configure_merges_stats (create (Some (mkConfig None [])) None)
           filter_config "profileFilter").
  - reflexivity.
  - intros st H. injection H as <-. repeat constructor. intros [].
Defined.

End MoreWitnesses.
